(** * Lazy ZIP over HTTP: the interval cache and the boundary probe

    A shallow embedding of [lazyzip.py].  The class [LazyZipOverHTTP]
    mirrors a remote object into a temporary file, remembers which byte
    ranges are already present in two parallel lists ([_left], [_right]),
    and on every read downloads what is missing with HTTP range requests.

    Layout of the development:
    - [Bisect]: [bisect_left] and [bisect_right] of Python's library, as the
      binary searches they are;
    - [Tracker]: the pure part of [_merge] and [_download] on the two lists;
    - [File]: the temporary file (contents and cursor);
    - the exception/state monad in which the methods are written;
    - the methods [read], [seek], [tell], [truncate], [_stay], [_check_zip],
      [_merge], [_download], [__aenter__];
    - the vocabulary of the statements, then examples and the theorems:
      binary search, the tracker invariant, the stream methods, and last
      the properties of the specification.

    Conventions.  Python integers are [Z]; list indices and the cursor of
    the file are [nat].  A method is a function from the object to a
    result that is either a value or an exception, with the object as the
    method left it.  The server is a pure function of the request: its
    answer to HEAD and its answer to each ranged GET.  The headers the code
    sends ([Accept-Encoding: identity], [Range: bytes=start-end],
    [Cache-Control: no-cache]) are fixed by the code and identify a ranged
    request by its two offsets.  The [await]s of [__aenter__] run in
    sequence, one request at a time. *)

From Stdlib Require Import String Ascii.
From Stdlib Require Import ZArith List Lia Bool Sorted.
Import ListNotations.
Local Open Scope Z_scope.

(* ===================================================================== *)
(** ** Python list helpers *)

(** [a[lo:hi]] for indices already clipped to [0 .. len a]. *)
Definition slice {A} (a : list A) (lo hi : nat) : list A :=
  firstn (hi - lo) (skipn lo a).

(** [a[lo:hi] = v]: when [hi < lo] Python inserts at [lo]. *)
Definition slice_assign {A} (a : list A) (lo hi : nat) (v : list A) : list A :=
  firstn lo a ++ v ++ skipn (Nat.max lo hi) a.

(** [a[:1]] and [a[-1:]]. *)
Definition first1 {A} (a : list A) : list A := firstn 1 a.
Definition last1 {A} (a : list A) : list A := skipn (length a - 1) a.

(** [min] and [max] of a non-empty list, written [x :: xs]. *)
Definition py_min (x : Z) (xs : list Z) : Z := fold_left Z.min xs x.
Definition py_max (x : Z) (xs : list Z) : Z := fold_left Z.max xs x.

(** [range(0, stop, step)]; [None] is the [ValueError] of a zero step. *)
Definition range_len (stop step : Z) : nat :=
  if 0 <? step then
    (if 0 <? stop then Z.to_nat ((stop - 1) / step + 1) else O)
  else
    (if stop <? 0 then Z.to_nat ((- stop - 1) / (- step) + 1) else O).

Definition py_range0 (stop step : Z) : option (list Z) :=
  if step =? 0 then None
  else Some (map (fun k => Z.of_nat k * step) (seq 0 (range_len stop step))).

(* ===================================================================== *)
(** ** bisect *)

Module Bisect.

(** The loop of [bisect_left]:
    [while lo < hi: mid = (lo+hi)//2; if a[mid] < x: lo = mid+1 else: hi = mid].
    The fuel bounds the number of iterations; [hi - lo] iterations are
    always enough (lemma [left_loop_fuel]). *)
Fixpoint left_loop (fuel : nat) (a : list Z) (x : Z) (lo hi : nat) : nat :=
  match fuel with
  | O => lo
  | S f =>
      if (lo <? hi)%nat then
        let mid := ((lo + hi) / 2)%nat in
        if nth mid a 0 <? x then left_loop f a x (mid + 1)%nat hi
        else left_loop f a x lo mid
      else lo
  end.

(** The loop of [bisect_right]:
    [if x < a[mid]: hi = mid else: lo = mid+1]. *)
Fixpoint right_loop (fuel : nat) (a : list Z) (x : Z) (lo hi : nat) : nat :=
  match fuel with
  | O => lo
  | S f =>
      if (lo <? hi)%nat then
        let mid := ((lo + hi) / 2)%nat in
        if x <? nth mid a 0 then right_loop f a x lo mid
        else right_loop f a x (mid + 1)%nat hi
      else lo
  end.

Definition bisect_left (a : list Z) (x : Z) : nat :=
  left_loop (length a) a x 0 (length a).

Definition bisect_right (a : list Z) (x : Z) : nat :=
  right_loop (length a) a x 0 (length a).

End Bisect.
Export Bisect.

(* ===================================================================== *)
(** ** The interval tracker: the pure part of [_merge] and [_download] *)

Module Tracker.

(** The walk over the touched intervals in [_merge]:
    [for j, k in zip(lslice, rslice): if j > i: yield i, j-1; i = k+1]
    followed by [if i <= end: yield i, end]. *)
Fixpoint merge_walk (i : Z) (touched : list (Z * Z)) (end_ : Z) : list (Z * Z) :=
  match touched with
  | [] => if i <=? end_ then [(i, end_)] else []
  | (j, k) :: rest =>
      (if j >? i then [(i, j - 1)] else []) ++ merge_walk (k + 1) rest end_
  end.

(** [_merge], in the three parts its generator body has: the bounds of
    the merged interval, the ranges it yields, and the store it performs
    when it has run to its end. *)
Definition merge_bounds (_left _right : list Z) (start end_ : Z) (left right : nat)
  : Z * Z :=
  let lslice := slice _left left right in
  let rslice := slice _right left right in
  (py_min start (first1 lslice), py_max end_ (last1 rslice)).

Definition merge_yields (_left _right : list Z) (start end_ : Z) (left right : nat)
  : list (Z * Z) :=
  let lslice := slice _left left right in
  let rslice := slice _right left right in
  let '(start', end') := merge_bounds _left _right start end_ left right in
  merge_walk start' (combine lslice rslice) end'.

Definition merge_store (_left _right : list Z) (left right : nat) (b : Z * Z)
  : list Z * list Z :=
  (slice_assign _left left right [fst b], slice_assign _right left right [snd b]).

Definition _merge (_left _right : list Z) (start end_ : Z) (left right : nat)
  : list (Z * Z) * (list Z * list Z) :=
  (merge_yields _left _right start end_ left right,
   merge_store _left _right left right
     (merge_bounds _left _right start end_ left right)).

(** What [_download] does to the tracker when every fetch succeeds. *)
Definition reserve (t : list Z * list Z) (start end_ : Z)
  : list (Z * Z) * (list Z * list Z) :=
  let left := bisect_left (snd t) start in
  let right := bisect_right (fst t) end_ in
  _merge (fst t) (snd t) start end_ left right.

Definition empty : list Z * list Z := ([], []).

(** A sequence of calls, oldest first. *)
Fixpoint reserve_all (t : list Z * list Z) (reqs : list (Z * Z)) : list Z * list Z :=
  match reqs with
  | [] => t
  | (a, b) :: rest => reserve_all (snd (reserve t a b)) rest
  end.

(** The recorded intervals, as pairs. *)
Definition intervals (t : list Z * list Z) : list (Z * Z) :=
  combine (fst t) (snd t).

(** Byte offset [x] lies in a recorded interval. *)
Definition covered (t : list Z * list Z) (x : Z) : Prop :=
  exists l r, In (l, r) (intervals t) /\ l <= x <= r.

(** Offset [x] lies in the closed interval [iv]. *)
Definition inside (iv : Z * Z) (x : Z) : Prop := fst iv <= x <= snd iv.

(** The representation invariant: every interval is non-empty and ends
    strictly before every later one starts. *)
Inductive chain : list (Z * Z) -> Prop :=
| chain_nil : chain []
| chain_cons iv rest :
    fst iv <= snd iv ->
    Forall (fun iv' => snd iv < fst iv') rest ->
    chain rest ->
    chain (iv :: rest).

Definition wf (t : list Z * list Z) : Prop :=
  length (fst t) = length (snd t) /\ chain (intervals t).

(** The two lists of a list of intervals. *)
Definition of_intervals (ivs : list (Z * Z)) : list Z * list Z :=
  (map fst ivs, map snd ivs).

(** The bounds of the merged interval, from the touched intervals. *)
Definition lo_bound (a : Z) (touched : list (Z * Z)) : Z :=
  Z.min a (fst (hd (a, a) touched)).
Definition hi_bound (b : Z) (touched : list (Z * Z)) : Z :=
  Z.max b (snd (last touched (b, b))).

(** Sorted by start; pairwise non-overlapping. *)
Definition sorted_by_start (t : list Z * list Z) : Prop :=
  StronglySorted Z.lt (fst t).
Definition overlap (iv1 iv2 : Z * Z) : Prop :=
  exists x, inside iv1 x /\ inside iv2 x.
Definition non_overlapping (t : list Z * list Z) : Prop :=
  ForallOrdPairs (fun iv1 iv2 => ~ overlap iv1 iv2) (intervals t).

(** Offset [x] was asked for by one of the requests. *)
Definition requested (reqs : list (Z * Z)) (x : Z) : Prop :=
  Exists (fun ab => inside ab x) reqs.

End Tracker.

(* ===================================================================== *)
(** ** The temporary file behind the stream *)

Module File.

(** A binary file opened for reading and writing: its bytes and its cursor.
    The cursor of a file is never negative, hence [nat]. *)
Record t := mk { content : list Byte.byte; fpos : nat }.

Definition empty : t := mk [] 0.

Inductive error := EINVAL | BadLength.

(** [seek(offset, whence)]: the new cursor, or [EINVAL] for a negative
    target or an unknown [whence]. *)
Definition seek (f : t) (offset whence : Z) : error + t :=
  let target :=
    if whence =? 0 then Some offset
    else if whence =? 1 then Some (Z.of_nat (fpos f) + offset)
    else if whence =? 2 then Some (Z.of_nat (length (content f)) + offset)
    else None in
  match target with
  | Some p => if p <? 0 then inl EINVAL else inr (mk (content f) (Z.to_nat p))
  | None => inl EINVAL
  end.

(** [read(size)]: [-1] reads to the end of the file, a smaller size is
    refused, otherwise at most [size] bytes are returned. *)
Definition read (f : t) (size : Z) : error + (list Byte.byte * t) :=
  if size <? -1 then inl BadLength
  else
    let rest := skipn (fpos f) (content f) in
    let data := if size <? 0 then rest else firstn (Z.to_nat size) rest in
    inr (data, mk (content f) (fpos f + length data)).

(** [write(chunk)]: overwrites at the cursor, zero-filling a hole when the
    cursor is beyond the end, and growing the file when needed; writing
    nothing changes nothing. *)
Definition write (f : t) (chunk : list Byte.byte) : t :=
  match chunk with
  | [] => f
  | _ =>
      let hole := repeat Byte.x00 (fpos f - length (content f)) in
      mk (firstn (fpos f) (content f) ++ hole ++ chunk
            ++ skipn (fpos f + length chunk) (content f))
         (fpos f + length chunk)
  end.

(** [truncate(size)]: cut or zero-extend to [size]; the cursor stays. *)
Definition truncate (f : t) (size : Z) : error + t :=
  if size <? 0 then inl EINVAL
  else
    let n := Z.to_nat size in
    inr (mk (firstn n (content f) ++ repeat Byte.x00 (n - length (content f)))
            (fpos f)).

End File.

(* ===================================================================== *)
(** ** The HTTP session, as the class sees it *)

(** The [Content-Length] header as [int(head.headers["Content-Length"])]
    meets it: not there (the lookup raises [KeyError]), there with a text
    that is no integer literal ([int] raises [ValueError]), or there with
    an integer value. *)
Inductive length_field :=
| Missing
| NotAnInteger
| Integer (n : Z).

(** Response to the HEAD request; [accept_ranges] is the [Accept-Ranges]
    header when present. *)
Record head_response := {
  head_status : Z;
  length_header : length_field;
  accept_ranges : option string
}.

(** The length a HEAD response announces, when it announces one. *)
Definition content_length (h : head_response) : option Z :=
  match length_header h with
  | Integer n => Some n
  | Missing | NotAnInteger => None
  end.

(** Response to a ranged GET. *)
Record get_response := {
  get_status : Z;
  body : list Byte.byte
}.

Record session := {
  head : head_response;
  get : Z -> Z -> get_response
}.

(** [raise_for_status] passes on a 2xx status only. *)
Definition is_success (status : Z) : bool :=
  (200 <=? status) && (status <=? 299).

(** [needle in s] on strings. *)
Fixpoint str_contains (needle s : string) : bool :=
  String.prefix needle s ||
  match s with
  | EmptyString => false
  | String _ s' => str_contains needle s'
  end.

(** [response_chunks(response, chunk_size)]: the body in pieces of
    [chunk_size] bytes, for a chunk size of at least 1.  The helper is
    pip's; what it does with a smaller chunk size is its own affair and is
    not modelled: the definition keeps the body in one piece there, and the
    statements about the bytes written assume a chunk size of at least 1. *)
Fixpoint chunks_fuel (fuel n : nat) (data : list Byte.byte) : list (list Byte.byte) :=
  match fuel with
  | O => []
  | S f =>
      match data with
      | [] => []
      | _ => firstn n data :: chunks_fuel f n (skipn n data)
      end
  end.

Definition response_chunks (r : get_response) (chunk_size : Z) : list (list Byte.byte) :=
  match Z.to_nat chunk_size with
  | O => match body r with [] => [] | b => [b] end
  | n => chunks_fuel (length (body r)) n (body r)
  end.

(* ===================================================================== *)
(** ** The stream object and the monad of its methods *)

Inductive exn :=
| HTTPRangeRequestUnsupportedError
| HTTPStatusError
| AssertionError
| KeyError
| ValueError
| OSError
| BadZipFile
| OtherError (tag : nat).

Definition exn_of_file_error (e : File.error) : exn :=
  match e with
  | File.EINVAL => OSError
  | File.BadLength => ValueError
  end.

(** What the outside world has seen of this object: the requests sent
    through [session] and the constructions of [ZipFile], oldest first.
    This is a ghost field; the methods only append to it. *)
Inductive event :=
| EvHead
| EvGet (start end_ : Z)
| EvZipFile.

Record LazyZipOverHTTP := {
  chunk_size : Z;
  _length : Z;
  _file : File.t;
  _left : list Z;
  _right : list Z;
  trace : list event
}.

Definition CONTENT_CHUNK_SIZE : Z := 10 * 1024.

(** [__post_init__]. *)
Definition __post_init__ (chunk : Z) : LazyZipOverHTTP :=
  {| chunk_size := chunk; _length := 0; _file := File.empty;
     _left := []; _right := []; trace := [] |}.

Definition set_file (f : File.t) (s : LazyZipOverHTTP) : LazyZipOverHTTP :=
  {| chunk_size := chunk_size s; _length := _length s; _file := f;
     _left := _left s; _right := _right s; trace := trace s |}.

Definition set_length (n : Z) (s : LazyZipOverHTTP) : LazyZipOverHTTP :=
  {| chunk_size := chunk_size s; _length := n; _file := _file s;
     _left := _left s; _right := _right s; trace := trace s |}.

Definition set_tracker (t : list Z * list Z) (s : LazyZipOverHTTP) : LazyZipOverHTTP :=
  {| chunk_size := chunk_size s; _length := _length s; _file := _file s;
     _left := fst t; _right := snd t; trace := trace s |}.

Definition log (e : event) (s : LazyZipOverHTTP) : LazyZipOverHTTP :=
  {| chunk_size := chunk_size s; _length := _length s; _file := _file s;
     _left := _left s; _right := _right s; trace := trace s ++ [e] |}.

Definition tracker (s : LazyZipOverHTTP) : list Z * list Z := (_left s, _right s).

(** A method either returns a value or raises; either way the object
    keeps the mutations made so far. *)
Inductive result (A : Type) :=
| Ok (v : A) (s : LazyZipOverHTTP)
| Raise (e : exn) (s : LazyZipOverHTTP).
Arguments Ok {A} v s.
Arguments Raise {A} e s.

Definition M (A : Type) := LazyZipOverHTTP -> result A.

Definition ret {A} (v : A) : M A := fun s => Ok v s.
Definition raise {A} (e : exn) : M A := fun s => Raise e s.
Definition bind {A B} (m : M A) (k : A -> M B) : M B :=
  fun s => match m s with
           | Ok v s' => k v s'
           | Raise e s' => Raise e s'
           end.
Definition self : M LazyZipOverHTTP := fun s => Ok s s.
Definition modify (f : LazyZipOverHTTP -> LazyZipOverHTTP) : M unit :=
  fun s => Ok tt (f s).

(** [try: body finally: cleanup]. *)
Definition try_finally {A} (body : M A) (cleanup : M unit) : M A :=
  fun s => match body s with
           | Ok v s' => match cleanup s' with
                        | Ok _ s'' => Ok v s''
                        | Raise e s'' => Raise e s''
                        end
           | Raise e s' => match cleanup s' with
                           | Ok _ s'' => Raise e s''
                           | Raise e' s'' => Raise e' s''
                           end
           end.

(** [try: body except e: pass]: the value says whether [body] returned. *)
Definition try_except (body : M unit) (caught : exn -> bool) : M bool :=
  fun s => match body s with
           | Ok _ s' => Ok true s'
           | Raise e s' => if caught e then Ok false s' else Raise e s'
           end.

(** The outcome of a call, handed to code that may catch the exception. *)
Definition attempt {A} (m : M A) : M (exn + A) :=
  fun s => match m s with
           | Ok v s' => Ok (inr v) s'
           | Raise e s' => Ok (inl e) s'
           end.

Declare Scope py_scope.
Delimit Scope py_scope with py.
Notation "x <- m ;; k" := (bind m (fun x => k))
  (at level 61, m at next level, right associativity) : py_scope.
Notation "m ;;; k" := (bind m (fun _ => k))
  (at level 61, right associativity) : py_scope.
Local Open Scope py_scope.

Definition state_of {A} (r : result A) : LazyZipOverHTTP :=
  match r with Ok _ s => s | Raise _ s => s end.

Definition is_ok {A} (r : result A) : bool :=
  match r with Ok _ _ => true | Raise _ _ => false end.

(** The ranged fetches in a trace. *)
Definition fetches (tr : list event) : list (Z * Z) :=
  flat_map (fun e => match e with EvGet a b => [(a, b)] | _ => [] end) tr.

(** The number of [ZipFile] constructions in a trace. *)
Definition parses (tr : list event) : nat :=
  length (filter (fun e => match e with EvZipFile => true | _ => false end) tr).


(* ===================================================================== *)
(** ** The archive reader: what [ZipFile(self)] does to the stream *)

(** [ZipFile] is outside this program.  It is a client that calls [read],
    [seek] and [tell] on the stream, may catch what they raise, and in the
    end either returns or raises.  Such a client is a tree. *)
Inductive zip_reader :=
| ZDone (outcome : option exn)
| ZRead (size : Z) (k : exn + list Byte.byte -> zip_reader)
| ZSeek (offset whence : Z) (k : exn + Z -> zip_reader)
| ZTell (k : Z -> zip_reader).

Definition is_BadZipFile (e : exn) : bool :=
  match e with BadZipFile => true | _ => false end.

(* ===================================================================== *)
(** ** The methods of [LazyZipOverHTTP] *)

Section Methods.

Variable srv : session.

Definition tell : M Z :=
  fun s => Ok (Z.of_nat (File.fpos (_file s))) s.

Definition seek (offset whence : Z) : M Z :=
  fun s => match File.seek (_file s) offset whence with
           | inl e => Raise (exn_of_file_error e) s
           | inr f => Ok (Z.of_nat (File.fpos f)) (set_file f s)
           end.

Definition truncate (size : option Z) : M Z :=
  fun s =>
    let n := match size with
             | Some n => n
             | None => Z.of_nat (File.fpos (_file s))
             end in
    match File.truncate (_file s) n with
    | inl e => Raise (exn_of_file_error e) s
    | inr f => Ok n (set_file f s)
    end.

Definition file_read (size : Z) : M (list Byte.byte) :=
  fun s => match File.read (_file s) size with
           | inl e => Raise (exn_of_file_error e) s
           | inr (data, f) => Ok data (set_file f s)
           end.

Definition file_write (chunk : list Byte.byte) : M unit :=
  modify (fun s => set_file (File.write (_file s) chunk) s).

(** [_stay]: [pos = self.tell(); try: yield; finally: self.seek(pos)]. *)
Definition _stay {A} (body : M A) : M A :=
  pos <- tell ;;
  try_finally body (seek pos 0 ;;; ret tt).

Definition raise_for_status (status : Z) : M unit :=
  if is_success status then ret tt else raise HTTPStatusError.

(** [_stream_response]: one ranged GET through the session. *)
Definition _stream_response (start end_ : Z) : M get_response :=
  modify (log (EvGet start end_)) ;;;
  ret (get srv start end_).

Fixpoint write_chunks (cs : list (list Byte.byte)) : M unit :=
  match cs with
  | [] => ret tt
  | c :: rest => file_write c ;;; write_chunks rest
  end.

(** The body of the loop in [_download], for one yielded range. *)
Definition fetch (gap : Z * Z) : M unit :=
  response <- _stream_response (fst gap) (snd gap) ;;
  raise_for_status (get_status response) ;;;
  seek (fst gap) 0 ;;;
  s <- self ;;
  write_chunks (response_chunks response (chunk_size s)).

Fixpoint fetch_all (gaps : list (Z * Z)) : M unit :=
  match gaps with
  | [] => ret tt
  | g :: rest => fetch g ;;; fetch_all rest
  end.

(** [_download].  The generator [_merge] reads the two lists when it is
    first advanced and stores into them only after its last range has been
    consumed: an exception in the loop body leaves them as they were. *)
Definition _download (start end_ : Z) : M unit :=
  _stay (
    s <- self ;;
    let left := bisect_left (_right s) start in
    let right := bisect_right (_left s) end_ in
    let bounds := Tracker.merge_bounds (_left s) (_right s) start end_ left right in
    fetch_all (Tracker.merge_yields (_left s) (_right s) start end_ left right) ;;;
    modify (fun s' =>
      set_tracker (Tracker.merge_store (_left s') (_right s') left right bounds) s')).

(** [read].  Note the second assignment to [start]. *)
Definition read (size : Z) : M (list Byte.byte) :=
  s <- self ;;
  let download_size := Z.max size (chunk_size s) in
  start <- tell ;;
  let length := _length s in
  let stop := if size <? 0 then length
              else Z.min (start + download_size) length in
  let start := Z.max 0 (stop - download_size) in
  _download start (stop - 1) ;;;
  file_read size.

(** Running the archive reader against the stream. *)
Fixpoint run_reader (p : zip_reader) : M unit :=
  match p with
  | ZDone None => ret tt
  | ZDone (Some e) => raise e
  | ZRead size k => v <- attempt (read size) ;; run_reader (k v)
  | ZSeek offset whence k => v <- attempt (seek offset whence) ;; run_reader (k v)
  | ZTell k => v <- tell ;; run_reader (k v)
  end.

Definition ZipFile (p : zip_reader) : M unit :=
  modify (log EvZipFile) ;;;
  run_reader p.

(** The loop of [_check_zip] over the reversed range. *)
Fixpoint probe (p : zip_reader) (end_ : Z) (starts : list Z) : M unit :=
  match starts with
  | [] => ret tt
  | start :: rest =>
      _download start end_ ;;;
      parsed <- _stay (try_except (ZipFile p) is_BadZipFile) ;;
      if parsed then ret tt else probe p end_ rest
  end.

(** [_check_zip]: [for start in reversed(range(0, end, self.chunk_size))]. *)
Definition _check_zip (p : zip_reader) : M unit :=
  s <- self ;;
  let end_ := _length s - 1 in
  match py_range0 end_ (chunk_size s) with
  | None => raise ValueError
  | Some r => probe p end_ (rev r)
  end.

(** [__aenter__].  The final [self._file.__enter__()] changes nothing
    that is modelled. *)
Definition __aenter__ (p : zip_reader) : M unit :=
  modify (log EvHead) ;;;
  let h := head srv in
  raise_for_status (head_status h) ;;;
  (if head_status h =? 200 then ret tt else raise AssertionError) ;;;
  n <- match length_header h with
       | Integer n => ret n
       | Missing => raise KeyError
       | NotAnInteger => raise ValueError
       end ;;
  modify (set_length n) ;;;
  s <- self ;;
  truncate (Some (_length s)) ;;;
  if negb (str_contains "bytes"
             (match accept_ranges h with Some v => v | None => "none"%string end))
  then raise HTTPRangeRequestUnsupportedError
  else _check_zip p.

End Methods.

(** Opening a fresh object. *)
Definition open (srv : session) (chunk : Z) (p : zip_reader) : result unit :=
  __aenter__ srv p (__post_init__ chunk).

(* ===================================================================== *)
(** ** Sample servers and readers used in the examples *)

(** A server that honours range requests against [data]. *)
Definition range_server (data : list Byte.byte) : session :=
  {| head := {| head_status := 200;
                length_header := Integer (Z.of_nat (length data));
                accept_ranges := Some "bytes"%string |};
     get := fun a b =>
       {| get_status := 206;
          body := firstn (Z.to_nat (b - a + 1)) (skipn (Z.to_nat a) data) |} |}.

(** The same object behind a server that does not announce ranges. *)
Definition plain_server (data : list Byte.byte) : session :=
  {| head := {| head_status := 200;
                length_header := Integer (Z.of_nat (length data));
                accept_ranges := None |};
     get := fun a b => {| get_status := 200; body := data |} |}.

(** A reader that looks at the last four bytes and accepts the
    end-of-directory signature [PK\005\006]. *)
Definition tail_reader : zip_reader :=
  ZSeek (-4) 2 (fun _ =>
  ZRead 4 (fun v =>
    match v with
    | inr [Byte.x50; Byte.x4b; Byte.x05; Byte.x06] => ZDone None
    | _ => ZDone (Some BadZipFile)
    end)).

(** A server that announces ranges and then refuses every ranged request. *)
Definition refusing_server (len : Z) : session :=
  {| head := {| head_status := 200;
                length_header := Integer len;
                accept_ranges := Some "bytes"%string |};
     get := fun a b => {| get_status := 503; body := [] |} |}.

(** A server that answers the HEAD request with [status] and no headers. *)
Definition bare_server (status : Z) : session :=
  {| head := {| head_status := status;
                length_header := Missing;
                accept_ranges := None |};
     get := fun a b => {| get_status := status; body := [] |} |}.

(** A server whose HEAD response carries a [Content-Length] that is not a
    number, and announces byte ranges. *)
Definition garbled_server : session :=
  {| head := {| head_status := 200;
                length_header := NotAnInteger;
                accept_ranges := Some "bytes"%string |};
     get := fun a b => {| get_status := 206; body := [] |} |}.

(** A reader that raises something else than [BadZipFile]. *)
Definition crashing_reader : zip_reader :=
  ZSeek 3 0 (fun _ => ZDone (Some (OtherError 0))).

(** A reader that looks at the last four bytes and rejects them whatever
    they are. *)
Definition blind_reader : zip_reader :=
  ZSeek (-4) 2 (fun _ => ZRead 4 (fun _ => ZDone (Some BadZipFile))).

(** A reader that rejects everything without looking. *)
Definition reject_reader : zip_reader := ZDone (Some BadZipFile).

Definition sig_bytes : list Byte.byte := [Byte.x50; Byte.x4b; Byte.x05; Byte.x06].


(* ===================================================================== *)
(** ** Vocabulary of the statements *)

(** The event of a ranged fetch. *)
Definition ev_get (g : Z * Z) : event := EvGet (fst g) (snd g).

(** The state with the cursor put back at [pos]. *)
Definition restore_pos (pos : nat) (s : LazyZipOverHTTP) : LazyZipOverHTTP :=
  set_file (File.mk (File.content (_file s)) pos) s.

Definition cursor (s : LazyZipOverHTTP) : nat := File.fpos (_file s).

(** [s'] differs from [s] in the file and in ranged fetches only. *)
Definition frame (s s' : LazyZipOverHTTP) : Prop :=
  chunk_size s' = chunk_size s /\ _length s' = _length s /\
  _left s' = _left s /\ _right s' = _right s.

(** The state invariant of an open stream of length [L]. *)
Definition stream_inv (L chunk : Z) (s : LazyZipOverHTTP) : Prop :=
  _length s = L /\ chunk_size s = chunk /\
  Tracker.wf (tracker s) /\ Forall (fun l => 0 <= l) (_left s).

(** Every ranged request is answered with a success status. *)
Definition always_serves (srv : session) : Prop :=
  forall a b, is_success (get_status (get srv a b)) = true.

(** The HEAD response is a 200 that announces length [L] and byte ranges. *)
Definition announces (srv : session) (L : Z) : Prop :=
  head_status (head srv) = 200 /\
  content_length (head srv) = Some L /\
  exists v, accept_ranges (head srv) = Some v /\ str_contains "bytes" v = true.

(** The HEAD response does not confirm byte ranges. *)
Definition no_range_support (srv : session) : Prop :=
  str_contains "bytes"
    (match accept_ranges (head srv) with Some v => v | None => "none"%string end)
  = false.

(** A reader that ends in [BadZipFile] whatever it is given. *)
Fixpoint always_bad (p : zip_reader) : Prop :=
  match p with
  | ZDone o => o = Some BadZipFile
  | ZRead _ k => forall v, always_bad (k v)
  | ZSeek _ _ k => forall v, always_bad (k v)
  | ZTell k => forall v, always_bad (k v)
  end.

(** The reader [p], run on the file [f] as it is, returns normally and all
    its reads stay inside the last [chunk] bytes of an object of length [L]:
    every read asks for at most [chunk] bytes, and either reads to the end
    or starts at most [chunk] bytes before the end. *)
Fixpoint parses_from_tail (L chunk : Z) (f : File.t) (p : zip_reader) : Prop :=
  match p with
  | ZDone o => o = None
  | ZRead size k =>
      size <= chunk /\ (size < 0 \/ L <= Z.of_nat (File.fpos f) + chunk) /\
      match File.read f size with
      | inl e => parses_from_tail L chunk f (k (inl (exn_of_file_error e)))
      | inr (data, f') => parses_from_tail L chunk f' (k (inr data))
      end
  | ZSeek offset whence k =>
      match File.seek f offset whence with
      | inl e => parses_from_tail L chunk f (k (inl (exn_of_file_error e)))
      | inr f' => parses_from_tail L chunk f' (k (inr (Z.of_nat (File.fpos f'))))
      end
  | ZTell k => parses_from_tail L chunk f (k (Z.of_nat (File.fpos f)))
  end.

(** The range [read(size)] asks [_download] for. *)
Definition read_window (size : Z) (s : LazyZipOverHTTP) : Z * Z :=
  let download_size := Z.max size (chunk_size s) in
  let stop := if size <? 0 then _length s
              else Z.min (Z.of_nat (cursor s) + download_size) (_length s) in
  (Z.max 0 (stop - download_size), stop - 1).

(** [s'] covers at least what [s] covers and has seen as many
    constructions of [ZipFile]. *)
Definition extends (s s' : LazyZipOverHTTP) : Prop :=
  (forall x, Tracker.covered (tracker s) x -> Tracker.covered (tracker s') x) /\
  parses (trace s') = parses (trace s).

(** One parse attempt of [_check_zip]: the [with self._stay()] block.
    The value says whether [ZipFile] was constructed. *)
Definition parse_attempt (srv : session) (p : zip_reader) : M bool :=
  _stay (try_except (ZipFile srv p) is_BadZipFile).

(** Exactly the last [chunk] bytes of an object of length [L] are
    recorded as mirrored. *)
Definition tail_only (L chunk : Z) (s : LazyZipOverHTTP) : Prop :=
  _length s = L /\ chunk_size s = chunk /\ tracker s = ([L - chunk], [L - 1]).

(** A sequence of [_download] calls, oldest first. *)
Fixpoint download_all (srv : session) (reqs : list (Z * Z)) : M unit :=
  match reqs with
  | [] => ret tt
  | (a, b) :: rest => _download srv a b ;;; download_all srv rest
  end.

(** The object right after negotiation: length recorded, mirror sized. *)
Definition negotiated (chunk L : Z) : LazyZipOverHTTP :=
  {| chunk_size := chunk; _length := L;
     _file := File.mk (repeat Byte.x00 (Z.to_nat L)) 0;
     _left := []; _right := []; trace := [EvHead] |}.

(** The object after negotiation and a first fetch of its last [chunk]
    bytes. *)
Definition probed (srv : session) (chunk L : Z) : LazyZipOverHTTP :=
  state_of (_download srv (L - chunk) (L - 1) (negotiated chunk L)).

(* ===================================================================== *)
(** ** Vocabulary of the further properties *)

(** A ranged request that is non-empty and lies inside an object of
    length [L]. *)
Definition in_bounds (L : Z) (g : Z * Z) : Prop :=
  0 <= fst g /\ fst g <= snd g /\ snd g <= L - 1.

(** Offset [x] was asked for by one of the ranged fetches of a trace. *)
Definition fetched (tr : list event) (x : Z) : Prop :=
  exists g, In g (fetches tr) /\ Tracker.inside g x.

(** An open stream whose recorded intervals and whose ranged fetches so
    far all lie inside the object. *)
Definition bounded (L chunk : Z) (s : LazyZipOverHTTP) : Prop :=
  stream_inv L chunk s /\
  Forall (fun r => r <= L - 1) (_right s) /\
  Forall (in_bounds L) (fetches (trace s)).

(** A bounded stream whose ranged fetches so far are pairwise disjoint and
    make up exactly the recorded intervals. *)
Definition frugal (L chunk : Z) (s : LazyZipOverHTTP) : Prop :=
  bounded L chunk s /\
  ForallOrdPairs (fun g1 g2 => ~ Tracker.overlap g1 g2) (fetches (trace s)) /\
  forall x, fetched (trace s) x <-> Tracker.covered (tracker s) x.

(** A bounded stream over the object [data]: the mirror has the size of
    the object and holds its bytes at every recorded offset. *)
Definition mirrors (data : list Byte.byte) (chunk : Z) (s : LazyZipOverHTTP) : Prop :=
  bounded (Z.of_nat (length data)) chunk s /\
  length (File.content (_file s)) = length data /\
  forall x, Tracker.covered (tracker s) x ->
            nth_error (File.content (_file s)) (Z.to_nat x)
            = nth_error data (Z.to_nat x).

(** The object [data] is no archive for the reader [p]: run against the
    stream in any state that mirrors [data] faithfully, however much of it
    has been fetched and wherever the cursor is, [p] ends by raising
    [BadZipFile]. *)
Definition corrupt_for (data : list Byte.byte) (chunk : Z) (p : zip_reader) : Prop :=
  forall s, mirrors data chunk s ->
    exists s', run_reader (range_server data) p s = Raise BadZipFile s'.

(** The whole object [data] is mirrored: every offset is recorded and the
    mirror file is the object. *)
Definition fully_mirrored (data : list Byte.byte) (s : LazyZipOverHTTP) : Prop :=
  (forall x, 0 <= x < Z.of_nat (length data) -> Tracker.covered (tracker s) x) /\
  File.content (_file s) = data.

(** A faithful mirror of [data] in which every offset is recorded. *)
Definition complete (data : list Byte.byte) (chunk : Z) (s : LazyZipOverHTTP) : Prop :=
  mirrors data chunk s /\
  forall x, 0 <= x < Z.of_nat (length data) -> Tracker.covered (tracker s) x.

(** A reader that ends by raising [e] whatever it is given. *)
Fixpoint always_raises (e : exn) (p : zip_reader) : Prop :=
  match p with
  | ZDone o => o = Some e
  | ZRead _ k => forall v, always_raises e (k v)
  | ZSeek _ _ k => forall v, always_raises e (k v)
  | ZTell k => forall v, always_raises e (k v)
  end.

(** The start of the first range [_check_zip] downloads: the largest
    multiple of the chunk size below [L - 1]. *)
Definition first_probe (L chunk : Z) : Z := chunk * ((L - 2) / chunk).

(** An open stream whose first ranged fetch was [g]. *)
Definition first_fetch_is (g : Z * Z) (L chunk : Z) (s : LazyZipOverHTTP) : Prop :=
  stream_inv L chunk s /\ exists rest, fetches (trace s) = g :: rest.

(** [data[pos : pos + size]], and [data[pos:]] for a negative size. *)
Definition py_slice_from (data : list Byte.byte) (pos : nat) (size : Z)
  : list Byte.byte :=
  if size <? 0 then skipn pos data
  else firstn (Z.to_nat size) (skipn pos data).

(* ===================================================================== *)
(** * Examples *)

Example reserve_disjoint :
  Tracker.reserve_all Tracker.empty [(0, 9); (100, 109)] = ([0; 100], [9; 109]).
Proof. reflexivity. Qed.

Example reserve_bridge :
  Tracker.reserve ([0; 20; 40], [9; 29; 49]) 5 44
  = ([(10, 19); (30, 39)], ([0], [49])).
Proof. reflexivity. Qed.

Example reserve_adj :
  Tracker.reserve_all Tracker.empty [(0, 9); (10, 19)] = ([0; 10], [9; 19]).
Proof. reflexivity. Qed.

Example reserve_degenerate :
  Tracker.reserve_all Tracker.empty [(5, 3); (4, 4)] = ([5; 4], [3; 4]).
Proof. reflexivity. Qed.

Example range_ex : py_range0 24 10 = Some [0; 10; 20].
Proof. reflexivity. Qed.

Example range_ex2 : py_range0 20 10 = Some [0; 10].
Proof. reflexivity. Qed.

Example range_ex3 : py_range0 (-1) (-1) = Some [0].
Proof. reflexivity. Qed.

Example range_ex4 : py_range0 0 10 = Some [].
Proof. reflexivity. Qed.

Example open_40 :
  let r := open (range_server (repeat Byte.x01 36 ++ sig_bytes)) 10 tail_reader in
  is_ok r = true /\ trace (state_of r) = [EvHead; EvGet 30 39; EvZipFile].
Proof. vm_compute. split; reflexivity. Qed.

Example open_25 :
  let r := open (range_server (repeat Byte.x01 21 ++ sig_bytes)) 10 tail_reader in
  is_ok r = true /\
  trace (state_of r) = [EvHead; EvGet 20 24; EvZipFile; EvGet 15 19].
Proof. vm_compute. split; reflexivity. Qed.

Example open_21 :
  let r := open (range_server (repeat Byte.x01 17 ++ sig_bytes)) 10 tail_reader in
  is_ok r = true /\ trace (state_of r) = [EvHead; EvGet 10 20; EvZipFile].
Proof. vm_compute. split; reflexivity. Qed.

Example open_bad :
  let r := open (range_server (repeat Byte.x01 25)) 10 tail_reader in
  is_ok r = true /\
  trace (state_of r)
  = [EvHead; EvGet 20 24; EvZipFile; EvGet 15 19;
     EvGet 10 14; EvZipFile; EvGet 0 9; EvZipFile] /\
  tracker (state_of r) = ([0], [24]).
Proof. vm_compute. repeat split; reflexivity. Qed.

(** The cursor guard on the failing paths: a refused fetch, and a reader
    that moves the cursor and then raises. *)
Example download_refused :
  let s := restore_pos 7 (negotiated 10 30) in
  let r := _download (refusing_server 30) 20 29 s in
  is_ok r = false /\ cursor (state_of r) = 7%nat /\
  tracker (state_of r) = tracker s /\
  fetches (trace (state_of r)) = [(20, 29)].
Proof. vm_compute. repeat split; reflexivity. Qed.

Example parse_crashes :
  let s := restore_pos 7 (negotiated 10 30) in
  parse_attempt (range_server (repeat Byte.x01 30)) crashing_reader s
  = Raise (OtherError 0) (log EvZipFile s).
Proof. reflexivity. Qed.

(* ===================================================================== *)
(** * Binary search *)

Module BisectFacts.

Lemma left_loop_S f a x lo hi :
  left_loop (S f) a x lo hi =
  if (lo <? hi)%nat then
    if nth ((lo + hi) / 2) a 0 <? x
    then left_loop f a x ((lo + hi) / 2 + 1)%nat hi
    else left_loop f a x lo ((lo + hi) / 2)%nat
  else lo.
Proof. reflexivity. Qed.

Lemma right_loop_S f a x lo hi :
  right_loop (S f) a x lo hi =
  if (lo <? hi)%nat then
    if x <? nth ((lo + hi) / 2) a 0
    then right_loop f a x lo ((lo + hi) / 2)%nat
    else right_loop f a x ((lo + hi) / 2 + 1)%nat hi
  else lo.
Proof. reflexivity. Qed.

Lemma mid_bounds lo hi : (lo < hi -> lo <= (lo + hi) / 2 < hi)%nat.
Proof.
  intros H. pose proof (Nat.div_mod_eq (lo + hi) 2) as E.
  pose proof (Nat.mod_upper_bound (lo + hi) 2). lia.
Qed.

(** [hi - lo] iterations are enough: more fuel changes nothing. *)
Lemma left_loop_fuel a x : forall f1 f2 lo hi,
  (hi - lo <= f1)%nat -> (hi - lo <= f2)%nat ->
  left_loop f1 a x lo hi = left_loop f2 a x lo hi.
Proof.
  induction f1 as [|f1 IH]; intros f2 lo hi H1 H2.
  - destruct f2 as [|f2]; [reflexivity|]. rewrite ?left_loop_S, ?right_loop_S. simpl.
    destruct (Nat.ltb_spec lo hi); [lia | reflexivity].
  - destruct f2 as [|f2]; rewrite ?left_loop_S, ?right_loop_S.
    + simpl. destruct (Nat.ltb_spec lo hi); [lia | reflexivity].
    + destruct (Nat.ltb_spec lo hi) as [Hlt|]; [|reflexivity].
      pose proof (mid_bounds lo hi Hlt) as Hmid.
      destruct (nth ((lo + hi) / 2) a 0 <? x); apply IH; lia.
Qed.

Lemma right_loop_fuel a x : forall f1 f2 lo hi,
  (hi - lo <= f1)%nat -> (hi - lo <= f2)%nat ->
  right_loop f1 a x lo hi = right_loop f2 a x lo hi.
Proof.
  induction f1 as [|f1 IH]; intros f2 lo hi H1 H2.
  - destruct f2 as [|f2]; [reflexivity|]. rewrite ?left_loop_S, ?right_loop_S. simpl.
    destruct (Nat.ltb_spec lo hi); [lia | reflexivity].
  - destruct f2 as [|f2]; rewrite ?left_loop_S, ?right_loop_S.
    + simpl. destruct (Nat.ltb_spec lo hi); [lia | reflexivity].
    + destruct (Nat.ltb_spec lo hi) as [Hlt|]; [|reflexivity].
      pose proof (mid_bounds lo hi Hlt) as Hmid.
      destruct (x <? nth ((lo + hi) / 2) a 0); apply IH; lia.
Qed.

(** On a list that splits into a part below [x] and a part not below [x],
    the left search stops at the split point. *)
Lemma left_loop_split p q x : forall fuel lo hi,
  Forall (fun y => y < x) p -> Forall (fun y => x <= y) q ->
  (lo <= length p <= hi)%nat -> (hi <= length (p ++ q))%nat ->
  (hi - lo <= fuel)%nat ->
  left_loop fuel (p ++ q) x lo hi = length p.
Proof.
  intros fuel lo hi Hp Hq. revert lo hi.
  induction fuel as [|f IH]; intros lo hi Hb Hlen Hf.
  - simpl. lia.
  - rewrite ?left_loop_S, ?right_loop_S. destruct (Nat.ltb_spec lo hi) as [Hlt|]; [|lia].
    pose proof (mid_bounds lo hi Hlt) as Hmid.
    set (mid := ((lo + hi) / 2)%nat) in *.
    destruct (Z.ltb_spec (nth mid (p ++ q) 0) x) as [Hc|Hc].
    + assert (mid < length p)%nat.
      { destruct (Nat.lt_ge_cases mid (length p)) as [|Hge]; [assumption|].
        rewrite app_nth2 in Hc by lia.
        rewrite Forall_forall in Hq.
        assert (x <= nth (mid - length p) q 0).
        { apply Hq, nth_In. rewrite length_app in Hlen. lia. }
        lia. }
      apply IH; lia.
    + assert (length p <= mid)%nat.
      { destruct (Nat.lt_ge_cases mid (length p)) as [Hl|]; [|assumption].
        rewrite app_nth1 in Hc by lia.
        rewrite Forall_forall in Hp.
        assert (nth mid p 0 < x) by (apply Hp, nth_In; lia).
        lia. }
      apply IH; lia.
Qed.

Lemma right_loop_split p q x : forall fuel lo hi,
  Forall (fun y => y <= x) p -> Forall (fun y => x < y) q ->
  (lo <= length p <= hi)%nat -> (hi <= length (p ++ q))%nat ->
  (hi - lo <= fuel)%nat ->
  right_loop fuel (p ++ q) x lo hi = length p.
Proof.
  intros fuel lo hi Hp Hq. revert lo hi.
  induction fuel as [|f IH]; intros lo hi Hb Hlen Hf.
  - simpl. lia.
  - rewrite ?left_loop_S, ?right_loop_S. destruct (Nat.ltb_spec lo hi) as [Hlt|]; [|lia].
    pose proof (mid_bounds lo hi Hlt) as Hmid.
    set (mid := ((lo + hi) / 2)%nat) in *.
    destruct (Z.ltb_spec x (nth mid (p ++ q) 0)) as [Hc|Hc].
    + assert (length p <= mid)%nat.
      { destruct (Nat.lt_ge_cases mid (length p)) as [Hl|]; [|assumption].
        rewrite app_nth1 in Hc by lia.
        rewrite Forall_forall in Hp.
        assert (nth mid p 0 <= x) by (apply Hp, nth_In; lia).
        lia. }
      apply IH; lia.
    + assert (mid < length p)%nat.
      { destruct (Nat.lt_ge_cases mid (length p)) as [|Hge]; [assumption|].
        rewrite app_nth2 in Hc by lia.
        rewrite Forall_forall in Hq.
        assert (x < nth (mid - length p) q 0).
        { apply Hq, nth_In. rewrite length_app in Hlen. lia. }
        lia. }
      apply IH; lia.
Qed.

Lemma bisect_left_split p q x :
  Forall (fun y => y < x) p -> Forall (fun y => x <= y) q ->
  bisect_left (p ++ q) x = length p.
Proof.
  intros Hp Hq. unfold bisect_left.
  apply left_loop_split; auto; rewrite ?length_app; lia.
Qed.

Lemma bisect_right_split p q x :
  Forall (fun y => y <= x) p -> Forall (fun y => x < y) q ->
  bisect_right (p ++ q) x = length p.
Proof.
  intros Hp Hq. unfold bisect_right.
  apply right_loop_split; auto; rewrite ?length_app; lia.
Qed.

End BisectFacts.

(* ===================================================================== *)
(** * The interval tracker *)

Module TrackerFacts.
Import Tracker BisectFacts.

(** ** Slices *)

Lemma slice_mid {A} (p m q : list A) :
  slice (p ++ m ++ q) (length p) (length p + length m) = m.
Proof.
  unfold slice. rewrite skipn_app, skipn_all, Nat.sub_diag. simpl.
  replace (length p + length m - length p)%nat with (length m) by lia.
  rewrite firstn_app, firstn_all, Nat.sub_diag. simpl. apply app_nil_r.
Qed.

Lemma slice_assign_mid {A} (p m q v : list A) :
  slice_assign (p ++ m ++ q) (length p) (length p + length m) v = p ++ v ++ q.
Proof.
  unfold slice_assign.
  rewrite firstn_app, firstn_all, Nat.sub_diag. simpl. rewrite app_nil_r.
  replace (Nat.max (length p) (length p + length m)) with (length p + length m)%nat by lia.
  rewrite (app_assoc p m q), skipn_app, <- length_app.
  rewrite skipn_all, Nat.sub_diag. reflexivity.
Qed.

Lemma combine_fst_snd (m : list (Z * Z)) : combine (map fst m) (map snd m) = m.
Proof. induction m as [|[l r] m IH]; simpl; congruence. Qed.

Lemma of_intervals_combine (L R : list Z) :
  length L = length R -> of_intervals (combine L R) = (L, R).
Proof.
  unfold of_intervals. revert R.
  induction L as [|l L IH]; intros [|r R] H; simpl in *; try discriminate.
  - reflexivity.
  - specialize (IH R ltac:(lia)).
    pose proof (f_equal fst IH) as E1. pose proof (f_equal snd IH) as E2.
    simpl in E1, E2. rewrite E1, E2. reflexivity.
Qed.

Lemma intervals_of (ivs : list (Z * Z)) : intervals (of_intervals ivs) = ivs.
Proof. apply combine_fst_snd. Qed.

(** ** The bounds of the merged interval *)

Lemma py_min_first a (m : list (Z * Z)) :
  py_min a (first1 (map fst m)) = lo_bound a m.
Proof. destruct m as [|[l r] m]; unfold lo_bound; simpl; lia. Qed.

Lemma py_max_last b (m : list (Z * Z)) :
  py_max b (last1 (map snd m)) = hi_bound b m.
Proof.
  destruct m as [|iv0 m0] eqn:E.
  - unfold hi_bound. simpl. lia.
  - rewrite <- E.
    assert (H : m <> []) by (rewrite E; discriminate).
    destruct (exists_last H) as [m' [iv E']]. rewrite E'.
    unfold hi_bound. rewrite last_last, map_app. unfold last1. simpl map.
    rewrite length_app. simpl length.
    replace (length (map snd m') + 1 - 1)%nat with (length (map snd m')) by lia.
    rewrite skipn_app, skipn_all, Nat.sub_diag. reflexivity.
Qed.

Lemma slice_map {A} (f : Z * Z -> A) p m q :
  slice (map f (p ++ m ++ q)) (length p) (length p + length m) = map f m.
Proof.
  rewrite !map_app, <- (length_map f p), <- (length_map f m).
  apply slice_mid.
Qed.

Lemma slice_assign_map {A} (f : Z * Z -> A) p m q v :
  slice_assign (map f (p ++ m ++ q)) (length p) (length p + length m) [f v]
  = map f (p ++ v :: q).
Proof.
  rewrite !map_app, <- (length_map f p), <- (length_map f m).
  apply (slice_assign_mid (map f p) (map f m) (map f q) [f v]).
Qed.

(** ** [reserve] on a tracker whose intervals split around the request *)

Section Split.

Variables (pre mid post : list (Z * Z)) (a b : Z).
Hypothesis Hab : a <= b.
Hypothesis Hpre : Forall (fun iv => snd iv < a) pre.
Hypothesis Hmid : Forall (fun iv => a <= snd iv /\ fst iv <= b) mid.
Hypothesis Hpost : Forall (fun iv => b < fst iv) post.
Hypothesis Hne : Forall (fun iv => fst iv <= snd iv) (pre ++ mid ++ post).

Lemma bisect_left_on_split :
  bisect_left (map snd (pre ++ mid ++ post)) a = length pre.
Proof.
  rewrite map_app, <- (length_map snd pre).
  apply bisect_left_split.
  - apply Forall_map. exact Hpre.
  - apply Forall_map. apply Forall_app in Hne as [_ Hne'].
    apply Forall_app in Hne' as [_ Hne'']. apply Forall_app. split.
    + eapply Forall_impl; [|exact Hmid]. simpl. intros iv H. lia.
    + rewrite Forall_forall in *. intros iv Hin.
      specialize (Hpost iv Hin). specialize (Hne'' iv Hin). simpl in *. lia.
Qed.

Lemma bisect_right_on_split :
  bisect_right (map fst (pre ++ mid ++ post)) b = (length pre + length mid)%nat.
Proof.
  rewrite app_assoc, map_app, <- length_app, <- (length_map fst (pre ++ mid)).
  apply bisect_right_split.
  - apply Forall_map. apply Forall_app. split.
    + apply Forall_app in Hne as [Hne' _].
      rewrite Forall_forall in *. intros iv Hin.
      specialize (Hpre iv Hin). specialize (Hne' iv Hin). simpl in *. lia.
    + eapply Forall_impl; [|exact Hmid]. simpl. intros iv H. lia.
  - apply Forall_map. exact Hpost.
Qed.

Lemma reserve_on_split :
  reserve (of_intervals (pre ++ mid ++ post)) a b =
  (merge_walk (lo_bound a mid) mid (hi_bound b mid),
   of_intervals (pre ++ (lo_bound a mid, hi_bound b mid) :: post)).
Proof.
  unfold reserve, of_intervals. simpl fst. simpl snd.
  rewrite bisect_left_on_split, bisect_right_on_split.
  unfold _merge, merge_yields, merge_bounds, merge_store.
  rewrite !slice_map, py_min_first, py_max_last, combine_fst_snd.
  rewrite (slice_assign_map fst pre mid post (lo_bound a mid, hi_bound b mid)).
  rewrite (slice_assign_map snd pre mid post (lo_bound a mid, hi_bound b mid)).
  reflexivity.
Qed.

End Split.

(** ** The invariant *)

Lemma chain_nonempty ivs :
  chain ivs -> Forall (fun iv => fst iv <= snd iv) ivs.
Proof. induction 1; constructor; assumption. Qed.

Lemma chain_app xs ys :
  chain (xs ++ ys) <->
  chain xs /\ chain ys /\
  (forall x y, In x xs -> In y ys -> snd x < fst y).
Proof.
  induction xs as [|x xs IH]; simpl.
  - split.
    + intros H. repeat split; [constructor | assumption | intros ? ? []].
    + intros (_ & H & _). exact H.
  - split.
    + intros H. inversion H as [|? ? Hx Hall Hrest]; subst.
      apply IH in Hrest as (Hxs & Hys & Hcross).
      apply Forall_app in Hall as [Hall1 Hall2].
      repeat split; [constructor; assumption | assumption |].
      intros x' y [->|Hin] Hy.
      * rewrite Forall_forall in Hall2. apply Hall2. exact Hy.
      * apply Hcross; assumption.
    + intros (Hc & Hys & Hcross).
      inversion Hc as [|? ? Hx Hall Hrest]; subst.
      constructor; [assumption | | ].
      * apply Forall_app. split; [assumption|].
        apply Forall_forall. intros y Hy. apply Hcross; auto.
      * apply IH. repeat split; auto.
Qed.

(** A chain splits around any request: the intervals that end before
    it, those that touch it, and those that start after it. *)
Lemma chain_split ivs a b :
  chain ivs -> a <= b ->
  exists pre mid post,
    ivs = pre ++ mid ++ post /\
    Forall (fun iv => snd iv < a) pre /\
    Forall (fun iv => a <= snd iv /\ fst iv <= b) mid /\
    Forall (fun iv => b < fst iv) post.
Proof.
  intros Hc Hab. induction Hc as [|iv rest Hiv Hall Hrest IH].
  - exists [], [], []. repeat split; constructor.
  - destruct IH as (pre & mid & post & E & Hpre & Hmid & Hpost).
    pose proof (chain_nonempty _ Hrest) as Hne.
    destruct (Z_lt_ge_dec (snd iv) a) as [Hlt|Hge].
    + exists (iv :: pre), mid, post. subst rest.
      repeat split; auto.
    + assert (pre = []) as ->.
      { destruct pre as [|x pre]; [reflexivity|]. exfalso.
        subst rest. inversion Hpre; subst. inversion Hall; subst.
        inversion Hne; subst. lia. }
      simpl in E. destruct (Z_le_gt_dec (fst iv) b) as [Hle|Hgt].
      * exists [], (iv :: mid), post. subst rest.
        repeat split; auto. constructor; [lia | assumption].
      * exists [], [], (iv :: rest). simpl.
        repeat split; auto. constructor; [lia|].
        rewrite Forall_forall in *. intros y Hy.
        specialize (Hall y Hy). lia.
Qed.

(** ** The merged bounds against the touched intervals *)

Lemma lo_bound_le a mid : lo_bound a mid <= a.
Proof. unfold lo_bound. lia. Qed.

Lemma hi_bound_ge b mid : b <= hi_bound b mid.
Proof. unfold hi_bound. lia. Qed.

Lemma lo_bound_cases a mid :
  lo_bound a mid = a \/ exists iv, In iv mid /\ lo_bound a mid = fst iv.
Proof.
  unfold lo_bound. destruct mid as [|iv mid]; simpl.
  - left. lia.
  - destruct (Z.min_spec a (fst iv)) as [[_ E]|[_ E]]; rewrite E.
    + left. reflexivity.
    + right. exists iv. auto.
Qed.

Lemma hi_bound_cases b mid :
  hi_bound b mid = b \/ exists iv, In iv mid /\ hi_bound b mid = snd iv.
Proof.
  unfold hi_bound. destruct mid as [|iv0 mid0] eqn:E.
  - left. simpl. lia.
  - rewrite <- E. assert (Hne : mid <> []) by (rewrite E; discriminate).
    destruct (exists_last Hne) as [m' [iv E']]. rewrite E', last_last.
    destruct (Z.max_spec b (snd iv)) as [[_ Em]|[_ Em]]; rewrite Em.
    + right. exists iv. split; [apply in_or_app; right; left|]; reflexivity.
    + left. reflexivity.
Qed.

Lemma chain_first_least mid d :
  chain mid -> Forall (fun iv => fst (hd d mid) <= fst iv) mid.
Proof.
  intros Hc. destruct Hc as [|iv rest Hiv Hall Hrest]; simpl; constructor.
  - lia.
  - eapply Forall_impl; [|exact Hall]. simpl. intros. lia.
Qed.

Lemma chain_last_greatest mid d :
  chain mid -> Forall (fun iv => snd iv <= snd (last mid d)) mid.
Proof.
  induction 1 as [|iv rest Hiv Hall Hrest IH]; [constructor|].
  destruct rest as [|iv' rest']; [repeat constructor; simpl; lia|].
  change (last (iv :: iv' :: rest') d) with (last (iv' :: rest') d).
  constructor; [|exact IH].
  pose proof (chain_nonempty _ Hrest) as Hne.
  assert (Hin : In (last (iv' :: rest') d) (iv' :: rest')).
  { assert (Hx : iv' :: rest' <> []) by discriminate.
    destruct (exists_last Hx) as [m [y E]]. rewrite E, last_last.
    apply in_or_app. right. left. reflexivity. }
  rewrite Forall_forall in Hall, Hne.
  specialize (Hall _ Hin). specialize (Hne _ Hin). lia.
Qed.

Lemma lo_bound_least a mid :
  chain mid -> Forall (fun iv => lo_bound a mid <= fst iv) mid.
Proof.
  intros Hc. eapply Forall_impl; [|apply (chain_first_least mid (a, a) Hc)].
  simpl. unfold lo_bound. intros. lia.
Qed.

Lemma hi_bound_greatest b mid :
  chain mid -> Forall (fun iv => snd iv <= hi_bound b mid) mid.
Proof.
  intros Hc. eapply Forall_impl; [|apply (chain_last_greatest mid (b, b) Hc)].
  simpl. unfold hi_bound. intros. lia.
Qed.

(** ** The shape of one [reserve] on a well-formed tracker *)

Lemma wf_of_intervals t : wf t -> t = of_intervals (intervals t).
Proof.
  intros [Hlen _]. destruct t as [L R]. unfold intervals. simpl in *.
  symmetry. apply of_intervals_combine. exact Hlen.
Qed.

Lemma wf_of ivs : chain ivs -> wf (of_intervals ivs).
Proof.
  intros Hc. split.
  - unfold of_intervals. simpl. rewrite !length_map. reflexivity.
  - rewrite intervals_of. exact Hc.
Qed.

Lemma reserve_shape t a b :
  wf t -> a <= b ->
  exists pre mid post,
    intervals t = pre ++ mid ++ post /\
    Forall (fun iv => snd iv < a) pre /\
    Forall (fun iv => a <= snd iv /\ fst iv <= b) mid /\
    Forall (fun iv => b < fst iv) post /\
    reserve t a b =
      (merge_walk (lo_bound a mid) mid (hi_bound b mid),
       of_intervals (pre ++ (lo_bound a mid, hi_bound b mid) :: post)).
Proof.
  intros Hwf Hab. pose proof (wf_of_intervals t Hwf) as Et.
  destruct Hwf as [_ Hc].
  destruct (chain_split _ a b Hc Hab) as (pre & mid & post & E & Hpre & Hmid & Hpost).
  exists pre, mid, post. repeat split; try assumption.
  rewrite Et at 1. rewrite E. apply reserve_on_split; try assumption.
  rewrite <- E. apply chain_nonempty. exact Hc.
Qed.

(** The merged list is again a chain. *)
Lemma merged_chain pre mid post a b :
  a <= b ->
  chain (pre ++ mid ++ post) ->
  Forall (fun iv => snd iv < a) pre ->
  Forall (fun iv => b < fst iv) post ->
  chain (pre ++ (lo_bound a mid, hi_bound b mid) :: post).
Proof.
  intros Hab Hc Hpre Hpost.
  apply chain_app in Hc as (Hcpre & Hc & Hx1).
  apply chain_app in Hc as (Hcmid & Hcpost & Hx2).
  pose proof (lo_bound_le a mid). pose proof (hi_bound_ge b mid).
  apply chain_app. repeat split.
  - exact Hcpre.
  - constructor; simpl; [lia | | exact Hcpost].
    apply Forall_forall. intros y Hy.
    destruct (hi_bound_cases b mid) as [E|(iv & Hin & E)]; rewrite E.
    + rewrite Forall_forall in Hpost. apply Hpost. exact Hy.
    + apply Hx2; assumption.
  - intros x y Hx [<-|Hy]; simpl.
    + destruct (lo_bound_cases a mid) as [E|(iv & Hin & E)]; rewrite E.
      * rewrite Forall_forall in Hpre. apply Hpre. exact Hx.
      * apply Hx1; [exact Hx|]. apply in_or_app. left. exact Hin.
    + apply Hx1; [exact Hx|]. apply in_or_app. right. exact Hy.
Qed.

Lemma reserve_wf t a b : wf t -> a <= b -> wf (snd (reserve t a b)).
Proof.
  intros Hwf Hab.
  destruct (reserve_shape t a b Hwf Hab)
    as (pre & mid & post & E & Hpre & Hmid & Hpost & Er).
  rewrite Er. simpl. apply wf_of. destruct Hwf as [_ Hc]. rewrite E in Hc.
  apply merged_chain; assumption.
Qed.

Lemma covered_of ivs x :
  covered (of_intervals ivs) x <-> exists iv, In iv ivs /\ inside iv x.
Proof.
  unfold covered. rewrite intervals_of. split.
  - intros (l & r & Hin & H). exists (l, r). split; [exact Hin | exact H].
  - intros ([l r] & Hin & H). exists l, r. split; [exact Hin | exact H].
Qed.

Lemma covered_intervals t x :
  covered t x <-> exists iv, In iv (intervals t) /\ inside iv x.
Proof.
  unfold covered. split.
  - intros (l & r & Hin & H). exists (l, r). split; [exact Hin | exact H].
  - intros ([l r] & Hin & H). exists l, r. split; [exact Hin | exact H].
Qed.

(** After [reserve], exactly the old bytes and the requested ones are
    covered. *)
Lemma reserve_covered t a b x :
  wf t -> a <= b ->
  (covered (snd (reserve t a b)) x <-> covered t x \/ a <= x <= b).
Proof.
  intros Hwf Hab.
  destruct (reserve_shape t a b Hwf Hab)
    as (pre & mid & post & E & Hpre & Hmid & Hpost & Er).
  rewrite Er. simpl snd. rewrite covered_of, covered_intervals, E.
  destruct Hwf as [_ Hc]. rewrite E in Hc.
  apply chain_app in Hc as (_ & Hc & _). apply chain_app in Hc as (Hcmid & _ & _).
  pose proof (lo_bound_le a mid). pose proof (hi_bound_ge b mid).
  pose proof (lo_bound_least a mid Hcmid) as Hlo.
  pose proof (hi_bound_greatest b mid Hcmid) as Hhi.
  rewrite Forall_forall in Hlo, Hhi, Hmid.
  split.
  - intros (iv & Hin & Hx). apply in_app_or in Hin as [Hin|[<-|Hin]].
    + left. exists iv. split; [apply in_or_app; left; exact Hin | exact Hx].
    + unfold inside in Hx. simpl in Hx.
      destruct (Z_lt_ge_dec x a) as [Hlt|Hge].
      * destruct (lo_bound_cases a mid) as [El|(iv & Hin & El)]; [lia|].
        left. exists iv. split.
        -- apply in_or_app. right. apply in_or_app. left. exact Hin.
        -- specialize (Hmid _ Hin). unfold inside. lia.
      * destruct (Z_le_gt_dec x b) as [Hle|Hgt]; [right; lia|].
        destruct (hi_bound_cases b mid) as [Eh|(iv & Hin & Eh)]; [lia|].
        left. exists iv. split.
        -- apply in_or_app. right. apply in_or_app. left. exact Hin.
        -- specialize (Hmid _ Hin). unfold inside. lia.
    + left. exists iv. split; [|exact Hx].
      apply in_or_app. right. apply in_or_app. right. exact Hin.
  - intros [(iv & Hin & Hx)|Hx].
    + apply in_app_or in Hin as [Hin|Hin].
      * exists iv. split; [apply in_or_app; left; exact Hin | exact Hx].
      * apply in_app_or in Hin as [Hin|Hin].
        -- exists (lo_bound a mid, hi_bound b mid). split.
           ++ apply in_or_app. right. left. reflexivity.
           ++ specialize (Hlo _ Hin). specialize (Hhi _ Hin).
              unfold inside in *. simpl. lia.
        -- exists iv. split; [|exact Hx].
           apply in_or_app. right. right. exact Hin.
    + exists (lo_bound a mid, hi_bound b mid). split.
      * apply in_or_app. right. left. reflexivity.
      * unfold inside. simpl. lia.
Qed.

(** ** The yielded ranges *)

(** When the walk yields nothing, the touched intervals cover the whole
    merged span. *)
Lemma merge_walk_nil : forall mid i e,
  merge_walk i mid e = [] ->
  forall x, i <= x <= e -> exists iv, In iv mid /\ inside iv x.
Proof.
  induction mid as [|[j k] mid IH]; simpl; intros i e H x Hx.
  - destruct (Z.leb_spec i e); [discriminate | lia].
  - apply app_eq_nil in H as [H1 H2].
    destruct (Z.gtb_spec j i) as [|Hji]; [discriminate|].
    destruct (Z_le_gt_dec x k) as [Hle|Hgt].
    + exists (j, k). split; [left; reflexivity | unfold inside; simpl; lia].
    + destruct (IH _ _ H2 x ltac:(lia)) as (iv & Hin & Hiv).
      exists iv. split; [right; exact Hin | exact Hiv].
Qed.

(** Every yielded range starts at the walk's start or just after a
    touched interval. *)
Lemma merge_walk_starts : forall mid i e lo,
  lo <= i -> Forall (fun iv => lo <= snd iv + 1) mid ->
  Forall (fun g => lo <= fst g) (merge_walk i mid e).
Proof.
  induction mid as [|[j k] mid IH]; simpl; intros i e lo Hi Hmid.
  - destruct (i <=? e); repeat constructor. exact Hi.
  - inversion Hmid; subst. simpl in *. apply Forall_app. split.
    + destruct (j >? i); repeat constructor. exact Hi.
    + apply IH; assumption.
Qed.

Lemma reserve_yields_nonempty t a b :
  wf t -> a <= b ->
  (exists x, a <= x <= b /\ ~ covered t x) ->
  fst (reserve t a b) <> [].
Proof.
  intros Hwf Hab (x & Hx & Hnc) Hnil.
  destruct (reserve_shape t a b Hwf Hab)
    as (pre & mid & post & E & Hpre & Hmid & Hpost & Er).
  rewrite Er in Hnil. simpl in Hnil.
  pose proof (lo_bound_le a mid). pose proof (hi_bound_ge b mid).
  destruct (merge_walk_nil _ _ _ Hnil x ltac:(lia)) as (iv & Hin & Hiv).
  apply Hnc. apply covered_intervals. exists iv. split; [|exact Hiv].
  rewrite E. apply in_or_app. right. apply in_or_app. left. exact Hin.
Qed.

(** Asking again for the same range yields nothing and stores the same
    lists. *)
Lemma reserve_twice t a b :
  wf t -> a <= b ->
  reserve (snd (reserve t a b)) a b = ([], snd (reserve t a b)).
Proof.
  intros Hwf Hab.
  destruct (reserve_shape t a b Hwf Hab)
    as (pre & mid & post & E & Hpre & Hmid & Hpost & Er).
  rewrite Er. simpl snd.
  pose proof (lo_bound_le a mid) as Hlo. pose proof (hi_bound_ge b mid) as Hhi.
  set (lo := lo_bound a mid) in *. set (hi := hi_bound b mid) in *.
  assert (Hc : chain (pre ++ [(lo, hi)] ++ post)).
  { destruct Hwf as [_ Hc]. rewrite E in Hc.
    apply (merged_chain pre mid post a b); assumption. }
  change (pre ++ (lo, hi) :: post) with (pre ++ [(lo, hi)] ++ post).
  rewrite (reserve_on_split pre [(lo, hi)] post a b); try assumption.
  - unfold lo_bound, hi_bound. simpl.
    rewrite (Z.min_r a lo), (Z.max_r b hi) by lia.
    destruct (Z.gtb_spec lo lo); [lia|].
    destruct (Z.leb_spec (hi + 1) hi); [lia|]. reflexivity.
  - repeat constructor; simpl; lia.
  - apply chain_nonempty. exact Hc.
Qed.

(** ** Non-negative offsets *)

Lemma reserve_nonneg t a b :
  wf t -> a <= b -> 0 <= a ->
  Forall (fun l => 0 <= l) (fst t) ->
  Forall (fun l => 0 <= l) (fst (snd (reserve t a b))) /\
  Forall (fun g => 0 <= fst g) (fst (reserve t a b)).
Proof.
  intros Hwf Hab Ha Hnn.
  destruct (reserve_shape t a b Hwf Hab)
    as (pre & mid & post & E & Hpre & Hmid & Hpost & Er).
  rewrite Er. simpl fst. simpl snd.
  rewrite (wf_of_intervals t Hwf), E in Hnn. simpl in Hnn.
  rewrite !map_app in Hnn.
  apply Forall_app in Hnn as [Hn1 Hn2]. apply Forall_app in Hn2 as [Hn2 Hn3].
  rewrite Forall_map in Hn2.
  assert (Hlo : 0 <= lo_bound a mid).
  { destruct (lo_bound_cases a mid) as [El|(iv & Hin & El)]; rewrite El; [exact Ha|].
    rewrite Forall_forall in Hn2. apply Hn2. exact Hin. }
  split.
  - rewrite map_app. simpl. apply Forall_app. split; [exact Hn1|].
    constructor; assumption.
  - apply merge_walk_starts; [exact Hlo|].
    destruct Hwf as [_ Hc]. rewrite E in Hc.
    apply chain_app in Hc as (_ & Hc & _). apply chain_app in Hc as (Hcm & _ & _).
    apply chain_nonempty in Hcm.
    rewrite Forall_forall in *. intros iv Hin.
    specialize (Hn2 _ Hin). specialize (Hcm _ Hin). simpl in *. lia.
Qed.

(** ** Sequences of calls *)

Lemma wf_empty : wf empty.
Proof. split; [reflexivity | constructor]. Qed.

Lemma reserve_all_wf reqs : forall t,
  wf t -> Forall (fun ab => fst ab <= snd ab) reqs ->
  wf (reserve_all t reqs).
Proof.
  induction reqs as [|[a b] reqs IH]; intros t Hwf Hreqs; simpl; [exact Hwf|].
  inversion Hreqs; subst. apply IH; [|assumption].
  apply reserve_wf; assumption.
Qed.

Lemma reserve_all_covered reqs : forall t x,
  wf t -> Forall (fun ab => fst ab <= snd ab) reqs ->
  (covered (reserve_all t reqs) x <-> covered t x \/ requested reqs x).
Proof.
  unfold requested.
  induction reqs as [|[a b] reqs IH]; intros t x Hwf Hreqs.
  - simpl. rewrite Exists_nil. tauto.
  - inversion Hreqs as [|? ? Hab Hrest]; subst. simpl in Hab.
    change (reserve_all t ((a, b) :: reqs))
      with (reserve_all (snd (reserve t a b)) reqs).
    rewrite IH by (try apply reserve_wf; assumption).
    rewrite reserve_covered by assumption.
    rewrite Exists_cons. unfold inside at 2. simpl. tauto.
Qed.

(** ** What the invariant says about the two lists *)

Lemma chain_sorted ivs : chain ivs -> StronglySorted Z.lt (map fst ivs).
Proof.
  induction 1 as [|iv rest Hiv Hall Hrest IH]; simpl; constructor.
  - exact IH.
  - apply Forall_map. eapply Forall_impl; [|exact Hall]. simpl. intros. lia.
Qed.

Lemma chain_disjoint ivs :
  chain ivs -> ForallOrdPairs (fun iv1 iv2 => ~ overlap iv1 iv2) ivs.
Proof.
  induction 1 as [|iv rest Hiv Hall Hrest IH]; constructor.
  - eapply Forall_impl; [|exact Hall]. simpl.
    intros iv' Hlt (x & H1 & H2). unfold inside in *. lia.
  - exact IH.
Qed.

Lemma chain_nth ivs d :
  chain ivs ->
  forall i j, (i < j < length ivs)%nat ->
  snd (nth i ivs d) < fst (nth j ivs d).
Proof.
  induction 1 as [|iv rest Hiv Hall Hrest IH]; intros i j Hij; simpl in Hij; [lia|].
  destruct j as [|j]; [lia|]. destruct i as [|i]; simpl.
  - rewrite Forall_forall in Hall. apply Hall, nth_In. lia.
  - apply IH. lia.
Qed.

Lemma wf_sorted t : wf t -> sorted_by_start t.
Proof.
  intros Hwf. unfold sorted_by_start. rewrite (wf_of_intervals t Hwf).
  simpl. apply chain_sorted. apply Hwf.
Qed.

Lemma wf_non_overlapping t : wf t -> non_overlapping t.
Proof. intros [_ Hc]. apply chain_disjoint. exact Hc. Qed.

Lemma wf_gap t :
  wf t ->
  forall i, (S i < length (fst t))%nat ->
  nth i (snd t) 0 < nth (S i) (fst t) 0.
Proof.
  intros [Hlen Hc] i Hi. destruct t as [L R]. unfold intervals in Hc. simpl in *.
  pose proof (chain_nth _ (0, 0) Hc i (S i)) as H.
  rewrite !combine_nth in H by exact Hlen. simpl in H. apply H.
  rewrite length_combine. lia.
Qed.

(** ** The yielded ranges are exactly what was missing *)

Lemma merge_walk_exact : forall mid i e x,
  chain mid ->
  Forall (fun iv => i <= fst iv /\ snd iv <= e) mid ->
  ((exists g, In g (merge_walk i mid e) /\ inside g x) <->
   i <= x <= e /\ ~ exists iv, In iv mid /\ inside iv x).
Proof.
  induction mid as [|[j k] mid IH]; intros i e x Hc Hb.
  - simpl. destruct (Z.leb_spec i e) as [Hie|Hie]; split.
    + intros (g & [<-|[]] & Hg). split; [exact Hg|]. intros (iv & [] & _).
    + intros [Hx _]. exists (i, e). split; [left; reflexivity | exact Hx].
    + intros (g & [] & _).
    + intros [Hx _]. lia.
  - inversion Hc as [|? ? Hjk Hall Hrest]; subst. simpl in Hjk.
    inversion Hb as [|? ? [Hij Hke] Hb']; subst. simpl in Hij, Hke.
    assert (Hb'' : Forall (fun iv => k + 1 <= fst iv /\ snd iv <= e) mid).
    { rewrite Forall_forall in *. intros iv Hin.
      specialize (Hall iv Hin). specialize (Hb' iv Hin). simpl in Hall. lia. }
    specialize (IH (k + 1) e x Hrest Hb'').
    change (merge_walk i ((j, k) :: mid) e)
      with ((if j >? i then [(i, j - 1)] else []) ++ merge_walk (k + 1) mid e).
    split.
    + intros (g & Hin & Hg). apply in_app_or in Hin as [Hin|Hin].
      * destruct (Z.gtb_spec j i) as [Hgt|]; [|destruct Hin].
        destruct Hin as [<-|[]]. unfold inside in Hg. simpl in Hg.
        split; [lia|]. intros (iv & [<-|Hiv] & Hx); unfold inside in Hx; simpl in Hx.
        -- lia.
        -- rewrite Forall_forall in Hall. specialize (Hall iv Hiv). simpl in Hall. lia.
      * destruct (proj1 IH (ex_intro _ g (conj Hin Hg))) as [Hx Hn].
        split; [lia|]. intros (iv & [<-|Hiv] & Hx'); unfold inside in Hx'; simpl in Hx'.
        -- lia.
        -- apply Hn. exists iv. split; assumption.
    + intros [Hx Hn].
      destruct (Z_lt_ge_dec x j) as [Hlt|Hge].
      * exists (i, j - 1). split.
        -- apply in_or_app. left.
           destruct (Z.gtb_spec j i); [left; reflexivity | lia].
        -- unfold inside. simpl. lia.
      * assert (Hxk : k < x).
        { destruct (Z_le_gt_dec x k) as [Hle|]; [|lia].
          exfalso. apply Hn. exists (j, k). split; [left; reflexivity|].
          unfold inside. simpl. lia. }
        destruct (proj2 IH) as (g & Hin & Hg).
        { split; [lia|]. intros (iv & Hiv & Hx'). apply Hn.
          exists iv. split; [right; exact Hiv | exact Hx']. }
        exists g. split; [apply in_or_app; right; exact Hin | exact Hg].
Qed.

(** The ranges a [reserve] yields are exactly the offsets it newly
    covers: nothing already mirrored is fetched again, nothing missing is
    left out. *)
Lemma reserve_yields_exact t a b x :
  wf t -> a <= b ->
  ((exists g, In g (fst (reserve t a b)) /\ inside g x) <->
   covered (snd (reserve t a b)) x /\ ~ covered t x).
Proof.
  intros Hwf Hab. rewrite (reserve_covered t a b x Hwf Hab).
  destruct (reserve_shape t a b Hwf Hab)
    as (pre & mid & post & E & Hpre & Hmid & Hpost & Er).
  rewrite Er. simpl fst. rewrite covered_intervals, E.
  destruct Hwf as [_ Hc]. rewrite E in Hc.
  pose proof (chain_nonempty _ Hc) as Hne.
  apply chain_app in Hc as (_ & Hc & Hx1). apply chain_app in Hc as (Hcmid & _ & Hx2).
  apply Forall_app in Hne as [Hne1 Hne2]. apply Forall_app in Hne2 as [Hne2 Hne3].
  pose proof (lo_bound_le a mid) as Hlo. pose proof (hi_bound_ge b mid) as Hhi.
  pose proof (lo_bound_least a mid Hcmid) as Hlo'.
  pose proof (hi_bound_greatest b mid Hcmid) as Hhi'.
  assert (Hb : Forall (fun iv => lo_bound a mid <= fst iv /\ snd iv <= hi_bound b mid) mid).
  { rewrite Forall_forall in *. intros iv Hin. split; auto. }
  rewrite (merge_walk_exact mid _ _ x Hcmid Hb).
  rewrite Forall_forall in Hpre, Hmid, Hpost, Hne1, Hne2, Hne3, Hlo', Hhi'.
  split.
  - intros [Hx Hn]. split.
    + destruct (Z_lt_ge_dec x a) as [Hlt|Hge].
      * destruct (lo_bound_cases a mid) as [El|(iv & Hin & El)]; [lia|].
        exfalso. apply Hn. exists iv. split; [exact Hin|].
        specialize (Hmid _ Hin). unfold inside. lia.
      * destruct (Z_le_gt_dec x b) as [Hle|Hgt]; [right; lia|].
        destruct (hi_bound_cases b mid) as [Eh|(iv & Hin & Eh)]; [lia|].
        exfalso. apply Hn. exists iv. split; [exact Hin|].
        specialize (Hmid _ Hin). unfold inside. lia.
    + intros (iv & Hin & Hiv). unfold inside in Hiv.
      apply in_app_or in Hin as [Hin|Hin].
      * assert (Hlt : snd iv < lo_bound a mid).
        { destruct (lo_bound_cases a mid) as [El|(iv' & Hin' & El)]; rewrite El.
          - apply Hpre. exact Hin.
          - apply Hx1; [exact Hin|]. apply in_or_app. left. exact Hin'. }
        lia.
      * apply in_app_or in Hin as [Hin|Hin].
        -- apply Hn. exists iv. split; [exact Hin | exact Hiv].
        -- assert (Hgt : hi_bound b mid < fst iv).
           { destruct (hi_bound_cases b mid) as [Eh|(iv' & Hin' & Eh)]; rewrite Eh.
             - apply Hpost. exact Hin.
             - apply Hx2; assumption. }
           lia.
  - intros [Hx Hn]. split.
    + destruct Hx as [Hx|Hx]; [contradiction | lia].
    + intros (iv & Hin & Hiv). apply Hn. exists iv. split; [|exact Hiv].
      apply in_or_app. right. apply in_or_app. left. exact Hin.
Qed.

End TrackerFacts.

(* ===================================================================== *)
(** * The stream methods *)

Module StreamFacts.
Import Tracker TrackerFacts.

#[local] Open Scope py_scope.

Lemma file_eta f : File.mk (File.content f) (File.fpos f) = f.
Proof. destruct f; reflexivity. Qed.

Lemma restore_same s : restore_pos (cursor s) s = s.
Proof.
  unfold restore_pos, cursor, set_file. rewrite file_eta. destruct s; reflexivity.
Qed.

Lemma frame_refl s : frame s s.
Proof. repeat split. Qed.

Lemma frame_trans s1 s2 s3 : frame s1 s2 -> frame s2 s3 -> frame s1 s3.
Proof. unfold frame. intros (?&?&?&?) (?&?&?&?). repeat split; congruence. Qed.

Lemma frame_set_file f s : frame s (set_file f s).
Proof. repeat split. Qed.

Lemma frame_log e s : frame s (log e s).
Proof. repeat split. Qed.

#[local] Hint Resolve frame_refl frame_set_file frame_log : core.

Section WithSession.

Variable srv : session.

(** ** The cursor guard *)

Lemma seek_abs pos s :
  seek (Z.of_nat pos) 0 s = Ok (Z.of_nat pos) (restore_pos pos s).
Proof.
  unfold seek, File.seek. simpl.
  destruct (Z.ltb_spec (Z.of_nat pos) 0); [lia|].
  rewrite Nat2Z.id. reflexivity.
Qed.

Lemma stay_eq {A} (body : M A) s :
  _stay body s =
  match body s with
  | Ok v s' => Ok v (restore_pos (cursor s) s')
  | Raise e s' => Raise e (restore_pos (cursor s) s')
  end.
Proof.
  unfold _stay, bind, tell, try_finally. fold (cursor s).
  destruct (body s) as [v s'|e s']; rewrite seek_abs; reflexivity.
Qed.

Lemma cursor_restore pos s : cursor (restore_pos pos s) = pos.
Proof. reflexivity. Qed.

Lemma stay_cursor {A} (body : M A) s :
  cursor (state_of (_stay body s)) = cursor s.
Proof. rewrite stay_eq. destruct (body s); reflexivity. Qed.

(** ** One fetch *)

Lemma write_chunks_ok cs : forall s,
  exists s', write_chunks cs s = Ok tt s' /\ frame s s' /\ trace s' = trace s.
Proof.
  induction cs as [|c cs IH]; intros s; simpl.
  - exists s. auto.
  - unfold bind, file_write, modify.
    destruct (IH (set_file (File.write (_file s) c) s)) as (s' & E & F & T).
    exists s'. rewrite E. repeat split; try apply F. exact T.
Qed.

Lemma fetch_frame g s :
  frame s (state_of (fetch srv g s)) /\
  trace (state_of (fetch srv g s)) = trace s ++ [ev_get g].
Proof.
  cbv beta iota delta
    [fetch bind _stream_response raise_for_status modify ret raise self].
  destruct (is_success (get_status (get srv (fst g) (snd g)))); simpl;
    [|split; [apply frame_log | reflexivity]].
  unfold seek.
  match goal with |- context [File.seek ?a ?b ?c] =>
    destruct (File.seek a b c) as [e|f] end; simpl;
    [split; [apply frame_log | reflexivity]|].
  match goal with |- context [write_chunks ?cs ?s0] =>
    destruct (write_chunks_ok cs s0) as (s' & E & F & T) end.
  rewrite E. simpl. split; [|exact T].
  eapply frame_trans; [|exact F]. repeat split.
Qed.

Lemma fetch_ok g s :
  is_success (get_status (get srv (fst g) (snd g))) = true ->
  0 <= fst g ->
  is_ok (fetch srv g s) = true.
Proof.
  intros Hs Hg.
  cbv beta iota delta
    [fetch bind _stream_response raise_for_status modify ret raise self].
  rewrite Hs. simpl. unfold seek, File.seek. simpl.
  destruct (Z.ltb_spec (fst g) 0); [lia|]. simpl. unfold self.
  match goal with |- context [write_chunks ?cs ?s0] =>
    destruct (write_chunks_ok cs s0) as (s' & E & _) end.
  rewrite E. reflexivity.
Qed.

(** ** The loop of [_download] *)

Lemma fetch_all_spec gaps : forall s,
  exists k,
    frame s (state_of (fetch_all srv gaps s)) /\
    trace (state_of (fetch_all srv gaps s)) = trace s ++ map ev_get (firstn k gaps) /\
    (is_ok (fetch_all srv gaps s) = true -> k = length gaps).
Proof.
  induction gaps as [|g gaps IH]; intros s; simpl.
  - exists O. simpl. rewrite app_nil_r. auto.
  - unfold bind. destruct (fetch_frame g s) as [F T].
    destruct (fetch srv g s) as [[] s1|e s1]; simpl in *.
    + destruct (IH s1) as (k & F' & T' & K).
      exists (S k). simpl. split; [|split].
      * eapply frame_trans; eassumption.
      * rewrite T', T, <- app_assoc. reflexivity.
      * intros H. rewrite K by exact H. reflexivity.
    + exists 1%nat. simpl. split; [exact F|split].
      * destruct gaps; exact T.
      * discriminate.
Qed.

Lemma fetch_all_ok gaps : forall s,
  Forall (fun g => is_success (get_status (get srv (fst g) (snd g))) = true
                   /\ 0 <= fst g) gaps ->
  is_ok (fetch_all srv gaps s) = true.
Proof.
  induction gaps as [|g gaps IH]; intros s H; simpl; [reflexivity|].
  inversion H as [|? ? [Hs Hg] Hrest]; subst.
  unfold bind. pose proof (fetch_ok g s Hs Hg) as Hok.
  destruct (fetch srv g s); [|discriminate]. apply IH. exact Hrest.
Qed.

(** ** [_download] *)

Lemma download_eq a b s :
  _download srv a b s =
  match fetch_all srv (fst (reserve (tracker s) a b)) s with
  | Ok _ s' =>
      Ok tt (restore_pos (cursor s)
               (set_tracker
                  (merge_store (_left s') (_right s')
                     (bisect_left (_right s) a) (bisect_right (_left s) b)
                     (merge_bounds (_left s) (_right s) a b
                        (bisect_left (_right s) a) (bisect_right (_left s) b)))
                  s'))
  | Raise e s' => Raise e (restore_pos (cursor s) s')
  end.
Proof.
  unfold _download. rewrite stay_eq.
  cbv beta iota delta [bind self modify].
  change (merge_yields (_left s) (_right s) a b
            (bisect_left (_right s) a) (bisect_right (_left s) b))
    with (fst (reserve (tracker s) a b)).
  destruct (fetch_all srv (fst (reserve (tracker s) a b)) s); reflexivity.
Qed.

Lemma download_spec a b s :
  exists k,
    cursor (state_of (_download srv a b s)) = cursor s /\
    chunk_size (state_of (_download srv a b s)) = chunk_size s /\
    _length (state_of (_download srv a b s)) = _length s /\
    trace (state_of (_download srv a b s)) =
      trace s ++ map ev_get (firstn k (fst (reserve (tracker s) a b))) /\
    (if is_ok (_download srv a b s)
     then tracker (state_of (_download srv a b s)) = snd (reserve (tracker s) a b)
          /\ k = length (fst (reserve (tracker s) a b))
     else tracker (state_of (_download srv a b s)) = tracker s).
Proof.
  rewrite download_eq.
  destruct (fetch_all_spec (fst (reserve (tracker s) a b)) s) as (k & F & T & K).
  exists k. destruct F as (F1 & F2 & F3 & F4).
  destruct (fetch_all srv (fst (reserve (tracker s) a b)) s) as [[] s'|e s'];
    simpl in *.
  - repeat split; try assumption.
    + rewrite F3, F4. reflexivity.
    + apply K. reflexivity.
  - repeat split; try assumption. unfold tracker. simpl. congruence.
Qed.

Lemma download_ok a b s :
  Forall (fun g => is_success (get_status (get srv (fst g) (snd g))) = true
                   /\ 0 <= fst g) (fst (reserve (tracker s) a b)) ->
  is_ok (_download srv a b s) = true.
Proof.
  intros H. rewrite download_eq. pose proof (fetch_all_ok _ s H) as Hok.
  destruct (fetch_all srv (fst (reserve (tracker s) a b)) s); [reflexivity|discriminate].
Qed.

(** A request that is already covered by one stored interval changes
    nothing at all. *)
Lemma download_noop a b s :
  reserve (tracker s) a b = ([], tracker s) ->
  _download srv a b s = Ok tt s.
Proof.
  intros H. rewrite download_eq. rewrite H. simpl.
  pose proof (f_equal snd H) as H2. unfold reserve, _merge in H2. simpl in H2.
  rewrite H2. unfold tracker. simpl.
  unfold set_tracker. simpl.
  f_equal. unfold restore_pos, cursor, set_file. simpl.
  rewrite file_eta. destruct s; reflexivity.
Qed.

(** [_download] keeps the cursor on every exit path. *)
Lemma download_cursor a b s :
  cursor (state_of (_download srv a b s)) = cursor s.
Proof. apply stay_cursor. Qed.

(** ** Traces *)

Lemma parses_app t1 t2 : parses (t1 ++ t2) = (parses t1 + parses t2)%nat.
Proof. unfold parses. rewrite filter_app, length_app. reflexivity. Qed.

Lemma parses_gets gaps : parses (map ev_get gaps) = O.
Proof. induction gaps; simpl; auto. Qed.

Lemma fetches_app t1 t2 : fetches (t1 ++ t2) = fetches t1 ++ fetches t2.
Proof. unfold fetches. apply flat_map_app. Qed.

Lemma fetches_gets gaps : fetches (map ev_get gaps) = gaps.
Proof.
  induction gaps as [|[a b] gaps IH]; [reflexivity|].
  change (fetches (map ev_get ((a, b) :: gaps)))
    with ((a, b) :: fetches (map ev_get gaps)).
  rewrite IH. reflexivity.
Qed.

Lemma extends_refl s : extends s s.
Proof. split; auto. Qed.

Lemma extends_trans s1 s2 s3 : extends s1 s2 -> extends s2 s3 -> extends s1 s3.
Proof. intros [C1 P1] [C2 P2]. split; [auto | congruence]. Qed.

(** ** The invariant of an open stream *)

Section Invariant.

Variables L chunk : Z.
Hypothesis HL : 1 <= L.
Hypothesis Hchunk : 1 <= chunk.

Lemma download_inv a b s :
  0 <= a <= b -> stream_inv L chunk s ->
  stream_inv L chunk (state_of (_download srv a b s)) /\
  extends s (state_of (_download srv a b s)) /\
  (is_ok (_download srv a b s) = true ->
   forall x, a <= x <= b -> covered (tracker (state_of (_download srv a b s))) x).
Proof.
  intros Hab (IL & Ic & Iwf & Inn).
  destruct (download_spec a b s) as (k & Hcur & Hch & Hlen & Htr & Hres).
  set (s' := state_of (_download srv a b s)) in *.
  assert (Hp : parses (trace s') = parses (trace s)).
  { rewrite Htr, parses_app, parses_gets. lia. }
  destruct (is_ok (_download srv a b s)).
  - destruct Hres as [Ht _].
    destruct (reserve_nonneg (tracker s) a b Iwf ltac:(lia) ltac:(lia) Inn) as [Hn _].
    split; [|split; [split|]].
    + split; [congruence|]. split; [congruence|]. split.
      * rewrite Ht. apply reserve_wf; [exact Iwf | lia].
      * change (_left s') with (fst (tracker s')). rewrite Ht. exact Hn.
    + intros x Hx. rewrite Ht. apply reserve_covered; [exact Iwf | lia | auto].
    + exact Hp.
    + intros _ x Hx. rewrite Ht. apply reserve_covered; [exact Iwf | lia | auto].
  - assert (El : _left s' = _left s) by (apply (f_equal fst Hres)).
    split; [|split; [split|]].
    + split; [congruence|]. split; [congruence|]. split.
      * rewrite Hres. exact Iwf.
      * rewrite El. exact Inn.
    + intros x Hx. rewrite Hres. exact Hx.
    + exact Hp.
    + discriminate.
Qed.

Lemma read_eq size s :
  read srv size s =
  match _download srv (fst (read_window size s)) (snd (read_window size s)) s with
  | Ok _ s' => file_read size s'
  | Raise e s' => Raise e s'
  end.
Proof. reflexivity. Qed.

Lemma read_window_ok size s :
  stream_inv L chunk s ->
  0 <= fst (read_window size s) <= snd (read_window size s).
Proof.
  intros (IL & Ic & _). unfold read_window. rewrite IL, Ic. simpl.
  destruct (Z.ltb_spec size 0); lia.
Qed.

Lemma file_read_frame size s :
  frame s (state_of (file_read size s)) /\
  trace (state_of (file_read size s)) = trace s.
Proof.
  unfold file_read. destruct (File.read (_file s) size) as [e|[data f]]; simpl; auto.
Qed.

Lemma inv_frame s s' :
  frame s s' -> trace s' = trace s ->
  stream_inv L chunk s -> stream_inv L chunk s' /\ extends s s'.
Proof.
  intros (F1 & F2 & F3 & F4) T (IL & Ic & Iwf & Inn).
  assert (Et : tracker s' = tracker s) by (unfold tracker; congruence).
  split; [|split].
  - split; [congruence|]. split; [congruence|]. split.
    + rewrite Et. exact Iwf.
    + rewrite F3. exact Inn.
  - intros x. rewrite Et. auto.
  - rewrite T. reflexivity.
Qed.

Lemma read_inv size s :
  stream_inv L chunk s ->
  stream_inv L chunk (state_of (read srv size s)) /\
  extends s (state_of (read srv size s)).
Proof.
  intros Hinv. rewrite read_eq.
  pose proof (read_window_ok size s Hinv) as Hw.
  destruct (download_inv _ _ s Hw Hinv) as (Hinv1 & Hext1 & _).
  destruct (_download srv _ _ s) as [[] s1|e s1]; simpl in *; [|auto].
  destruct (file_read_frame size s1) as [F T].
  destruct (inv_frame _ _ F T Hinv1) as [Hinv2 Hext2].
  split; [exact Hinv2 | eapply extends_trans; eassumption].
Qed.

Lemma seek_frame offset whence s :
  frame s (state_of (seek offset whence s)) /\
  trace (state_of (seek offset whence s)) = trace s.
Proof.
  unfold seek. destruct (File.seek (_file s) offset whence); simpl; auto.
Qed.

Lemma attempt_eq {A} (m : M A) s :
  exists v, attempt m s = Ok v (state_of (m s)).
Proof. unfold attempt. destruct (m s); eexists; reflexivity. Qed.

Lemma run_reader_inv p : forall s,
  stream_inv L chunk s ->
  stream_inv L chunk (state_of (run_reader srv p s)) /\
  extends s (state_of (run_reader srv p s)).
Proof.
  induction p as [o|size k IH|offset whence k IH|k IH]; intros s Hinv; simpl.
  - destruct o; simpl; split; auto using extends_refl.
  - unfold bind. destruct (attempt_eq (read srv size) s) as [v E]. rewrite E.
    destruct (read_inv size s Hinv) as [H1 H2].
    destruct (IH v _ H1) as [H3 H4].
    split; [exact H3 | eapply extends_trans; eassumption].
  - unfold bind. destruct (attempt_eq (seek offset whence) s) as [v E]. rewrite E.
    destruct (seek_frame offset whence s) as [F T].
    destruct (inv_frame _ _ F T Hinv) as [H1 H2].
    destruct (IH v _ H1) as [H3 H4].
    split; [exact H3 | eapply extends_trans; eassumption].
  - unfold bind, tell. apply IH. exact Hinv.
Qed.

End Invariant.

Lemma run_reader_bad p : forall s,
  always_bad p -> exists s', run_reader srv p s = Raise BadZipFile s'.
Proof.
  induction p as [o|size k IH|offset whence k IH|k IH]; intros s Hbad; simpl in *.
  - subst o. eexists. reflexivity.
  - unfold bind. destruct (attempt_eq (read srv size) s) as [v E]. rewrite E.
    apply IH, Hbad.
  - unfold bind. destruct (attempt_eq (seek offset whence) s) as [v E]. rewrite E.
    apply IH, Hbad.
  - unfold bind, tell. apply IH, Hbad.
Qed.

(** ** One step of the probe *)

Lemma probe_cons p e st rest s :
  probe srv p e (st :: rest) s =
  match _download srv st e s with
  | Ok _ s1 =>
      match parse_attempt srv p s1 with
      | Ok parsed s2 => if parsed then Ok tt s2 else probe srv p e rest s2
      | Raise x s2 => Raise x s2
      end
  | Raise x s1 => Raise x s1
  end.
Proof.
  simpl. unfold bind, parse_attempt.
  destruct (_download srv st e s); [|reflexivity].
  destruct (_stay _ s0) as [[] ?|]; reflexivity.
Qed.

Lemma ZipFile_eq p s : ZipFile srv p s = run_reader srv p (log EvZipFile s).
Proof. reflexivity. Qed.

Lemma parse_attempt_eq p s :
  parse_attempt srv p s =
  match run_reader srv p (log EvZipFile s) with
  | Ok _ s' => Ok true (restore_pos (cursor s) s')
  | Raise e s' =>
      if is_BadZipFile e then Ok false (restore_pos (cursor s) s')
      else Raise e (restore_pos (cursor s) s')
  end.
Proof.
  unfold parse_attempt. rewrite stay_eq. unfold try_except. rewrite ZipFile_eq.
  destruct (run_reader srv p (log EvZipFile s)) as [[] s'|e s']; [reflexivity|].
  destruct (is_BadZipFile e); reflexivity.
Qed.

Lemma parse_attempt_cursor p s :
  cursor (state_of (parse_attempt srv p s)) = cursor s.
Proof. apply stay_cursor. Qed.

Lemma parses_log_zip s : parses (trace (log EvZipFile s)) = S (parses (trace s)).
Proof.
  change (trace (log EvZipFile s)) with (trace s ++ [EvZipFile]).
  rewrite parses_app. change (parses [EvZipFile]) with 1%nat. lia.
Qed.

Section Probe.

Variables L chunk : Z.
Hypothesis HL : 1 <= L.
Hypothesis Hchunk : 1 <= chunk.

Lemma inv_log e s : stream_inv L chunk s -> stream_inv L chunk (log e s).
Proof. intros H. exact H. Qed.

Lemma inv_restore pos s :
  stream_inv L chunk s -> stream_inv L chunk (restore_pos pos s).
Proof. intros H. exact H. Qed.

Lemma parse_attempt_bad p s :
  always_bad p -> stream_inv L chunk s ->
  exists s',
    parse_attempt srv p s = Ok false s' /\
    stream_inv L chunk s' /\
    (forall x, covered (tracker s) x -> covered (tracker s') x) /\
    parses (trace s') = S (parses (trace s)).
Proof.
  intros Hbad Hinv. rewrite parse_attempt_eq.
  destruct (run_reader_bad p (log EvZipFile s) Hbad) as [s1 E].
  destruct (run_reader_inv L chunk HL Hchunk p (log EvZipFile s) (inv_log _ _ Hinv))
    as [Hinv1 [Hcov Hpar]].
  rewrite E in *. simpl in *.
  exists (restore_pos (cursor s) s1). split; [reflexivity|].
  split; [apply inv_restore; exact Hinv1|]. split.
  - intros x Hx. apply (Hcov x). exact Hx.
  - change (trace (restore_pos (cursor s) s1)) with (trace s1).
    rewrite Hpar. apply parses_log_zip.
Qed.

Lemma download_serves a b s :
  always_serves srv -> 0 <= a <= b -> stream_inv L chunk s ->
  exists s',
    _download srv a b s = Ok tt s' /\
    stream_inv L chunk s' /\ extends s s' /\
    (forall x, a <= x <= b -> covered (tracker s') x).
Proof.
  intros Hsrv Hab Hinv.
  assert (Hok : is_ok (_download srv a b s) = true).
  { apply download_ok. destruct Hinv as (_ & _ & Iwf & Inn).
    destruct (reserve_nonneg (tracker s) a b Iwf ltac:(lia) ltac:(lia) Inn) as [_ Hg].
    rewrite Forall_forall in *. intros g Hin. split; [apply Hsrv | apply Hg, Hin]. }
  destruct (download_inv L chunk a b s Hab Hinv) as (H1 & H2 & H3).
  destruct (_download srv a b s) as [[] s'|]; [|discriminate].
  exists s'. simpl in *.
  split; [reflexivity|]. split; [exact H1|]. split; [exact H2|].
  apply H3. reflexivity.
Qed.

(** With a reader that always fails, the probe runs through all its
    starts and returns. *)
Lemma probe_bad p :
  always_serves srv -> always_bad p ->
  forall starts s,
    stream_inv L chunk s ->
    Forall (fun st => 0 <= st <= L - 1) starts ->
    exists s',
      probe srv p (L - 1) starts s = Ok tt s' /\
      stream_inv L chunk s' /\
      (forall x, covered (tracker s) x -> covered (tracker s') x) /\
      parses (trace s') = (parses (trace s) + length starts)%nat /\
      (forall st, In st starts ->
         forall x, st <= x <= L - 1 -> covered (tracker s') x).
Proof.
  intros Hsrv Hbad.
  induction starts as [|st rest IH]; intros s Hinv Hst.
  - exists s. simpl. split; [reflexivity|]. split; [exact Hinv|].
    split; [auto|]. split; [lia|]. intros st [].
  - inversion Hst as [|? ? Hb Hrest]; subst.
    rewrite probe_cons.
    destruct (download_serves st (L - 1) s Hsrv Hb Hinv)
      as (s1 & E1 & Hinv1 & [Hc1 Hp1] & Hcov1).
    rewrite E1.
    destruct (parse_attempt_bad p s1 Hbad Hinv1) as (s2 & E2 & Hinv2 & Hc2 & Hp2).
    rewrite E2.
    destruct (IH s2 Hinv2 Hrest) as (s3 & E3 & Hinv3 & Hc3 & Hp3 & Hcov3).
    exists s3. split; [exact E3|]. split; [exact Hinv3|]. split; [|split].
    + intros x Hx. auto.
    + rewrite Hp3, Hp2, Hp1. simpl. lia.
    + intros st' [<-|Hin] x Hx.
      * apply Hc3, Hc2, Hcov1. exact Hx.
      * apply (Hcov3 st' Hin x Hx).
Qed.

End Probe.

End WithSession.

(** ** The range of probe starts *)

Lemma range_small L chunk :
  1 <= chunk -> L <= 1 -> py_range0 (L - 1) chunk = Some [].
Proof.
  intros Hc HL. unfold py_range0, range_len.
  destruct (Z.eqb_spec chunk 0); [lia|].
  destruct (Z.ltb_spec 0 chunk); [|lia].
  destruct (Z.ltb_spec 0 (L - 1)); [lia|]. reflexivity.
Qed.

Lemma range_bounds L chunk :
  1 <= chunk -> 2 <= L ->
  exists r, py_range0 (L - 1) chunk = Some r /\
            In 0 r /\ Forall (fun st => 0 <= st <= L - 1) r.
Proof.
  intros Hc HL. unfold py_range0, range_len.
  destruct (Z.eqb_spec chunk 0); [lia|].
  destruct (Z.ltb_spec 0 chunk); [|lia].
  destruct (Z.ltb_spec 0 (L - 1)); [|lia].
  eexists. split; [reflexivity|].
  assert (Hq : 0 <= (L - 1 - 1) / chunk) by (apply Z.div_pos; lia).
  split.
  - apply in_map_iff. exists O. split; [reflexivity|].
    apply in_seq. lia.
  - apply Forall_forall. intros st Hin.
    apply in_map_iff in Hin as (k & <- & Hk). apply in_seq in Hk.
    pose proof (Z.mul_div_le (L - 1 - 1) chunk ltac:(lia)).
    assert (Z.of_nat k <= (L - 1 - 1) / chunk) by lia.
    nia.
Qed.

Lemma range_aligned k chunk :
  2 <= chunk -> 1 <= k ->
  exists r rest, py_range0 (k * chunk - 1) chunk = Some r /\
                 rev r = (k * chunk - chunk) :: rest.
Proof.
  intros Hc Hk. unfold py_range0, range_len.
  destruct (Z.eqb_spec chunk 0); [lia|].
  destruct (Z.ltb_spec 0 chunk); [|lia].
  destruct (Z.ltb_spec 0 (k * chunk - 1)); [|nia].
  assert (Hq : (k * chunk - 1 - 1) / chunk = k - 1).
  { symmetry. apply (Z.div_unique _ _ (k - 1) (chunk - 2)); [left|]; lia. }
  assert (En : Z.to_nat (k - 1 + 1) = S (Z.to_nat (k - 1))) by lia.
  eexists. eexists. split; [reflexivity|].
  rewrite Hq, En, seq_S, map_app, rev_app_distr. simpl.
  f_equal. rewrite Z2Nat.id by lia. lia.
Qed.

(** ** Negotiation *)

Lemma truncate_empty L :
  0 <= L ->
  File.truncate File.empty L = inr (File.mk (repeat Byte.x00 (Z.to_nat L)) 0).
Proof.
  intros HL. unfold File.truncate.
  destruct (Z.ltb_spec L 0); [lia|]. simpl.
  rewrite firstn_nil, Nat.sub_0_r. reflexivity.
Qed.

Lemma length_announced h L :
  content_length h = Some L -> length_header h = Integer L.
Proof.
  unfold content_length. destruct (length_header h); congruence.
Qed.

Lemma open_eq srv chunk p L :
  announces srv L -> 0 <= L ->
  open srv chunk p = _check_zip srv p (negotiated chunk L).
Proof.
  intros (Hs & Hl & v & Ha & Hb) HL.
  apply length_announced in Hl.
  unfold open, __aenter__.
  cbv beta iota delta [bind modify raise_for_status ret raise self truncate].
  rewrite Hs, Hl, Ha, Hb.
  change (is_success 200) with true. change (200 =? 200) with true.
  cbv beta iota zeta delta [negb set_length _length _file log __post_init__].
  rewrite (truncate_empty L HL). reflexivity.
Qed.

Lemma check_zip_eq srv p s r :
  py_range0 (_length s - 1) (chunk_size s) = Some r ->
  _check_zip srv p s = probe srv p (_length s - 1) (rev r) s.
Proof.
  intros E. unfold _check_zip, bind, self. rewrite E. reflexivity.
Qed.

Lemma inv_negotiated chunk L : stream_inv L chunk (negotiated chunk L).
Proof.
  repeat split; simpl; constructor.
Qed.

(** ** A reader that stays inside the mirrored tail *)

Lemma reserve_empty a b :
  a <= b -> reserve empty a b = ([(a, b)], ([a], [b])).
Proof.
  intros H. unfold reserve, _merge, merge_yields, merge_bounds, merge_store. simpl.
  unfold py_min, py_max. simpl.
  destruct (Z.leb_spec a b); [reflexivity | lia].
Qed.

Lemma reserve_single a b :
  a <= b -> reserve ([a], [b]) a b = ([], ([a], [b])).
Proof.
  intros H. pose proof (reserve_twice empty a b wf_empty H) as E.
  rewrite (reserve_empty a b H) in E. exact E.
Qed.

Section Confined.

Variable srv : session.
Variables L chunk : Z.
Hypothesis Hchunk : 1 <= chunk.
Hypothesis HL : chunk <= L.

Lemma read_confined size s :
  tail_only L chunk s ->
  size <= chunk -> (size < 0 \/ L <= Z.of_nat (cursor s) + chunk) ->
  read srv size s = file_read size s.
Proof.
  intros (El & Ec & Et) Hs Hp. rewrite read_eq.
  assert (Ew : read_window size s = (L - chunk, L - 1)).
  { unfold read_window. rewrite El, Ec.
    rewrite (Z.max_r size chunk) by lia.
    destruct (Z.ltb_spec size 0); f_equal; lia. }
  rewrite Ew. simpl fst. simpl snd.
  rewrite download_noop; [reflexivity|].
  rewrite Et. apply reserve_single. lia.
Qed.

Lemma run_from_tail p : forall s,
  tail_only L chunk s -> parses_from_tail L chunk (_file s) p ->
  exists s',
    run_reader srv p s = Ok tt s' /\ trace s' = trace s /\ tail_only L chunk s'.
Proof.
  induction p as [o|size k IH|offset whence k IH|k IH]; intros s Ht Hc; simpl in Hc.
  - subst o. exists s. auto.
  - destruct Hc as (Hs & Hp & Hk).
    change (run_reader srv (ZRead size k) s)
      with (match attempt (read srv size) s with
            | Ok v s' => run_reader srv (k v) s'
            | Raise e s' => Raise e s'
            end).
    unfold attempt. rewrite (read_confined size s Ht Hs Hp).
    unfold file_read.
    destruct (File.read (_file s) size) as [e|[data f']].
    + apply IH; [exact Ht | exact Hk].
    + destruct (IH (inr data) (set_file f' s) Ht Hk) as (s' & E & T1 & T2).
      exists s'. auto.
  - change (run_reader srv (ZSeek offset whence k) s)
      with (match attempt (seek offset whence) s with
            | Ok v s' => run_reader srv (k v) s'
            | Raise e s' => Raise e s'
            end).
    unfold attempt, seek.
    destruct (File.seek (_file s) offset whence) as [e|f'].
    + apply IH; [exact Ht | exact Hc].
    + destruct (IH (inr (Z.of_nat (File.fpos f'))) (set_file f' s) Ht Hc)
        as (s' & E & T1 & T2).
      exists s'. auto.
  - change (run_reader srv (ZTell k) s)
      with (run_reader srv (k (Z.of_nat (cursor s))) s).
    apply IH; [exact Ht | exact Hc].
Qed.

End Confined.

(** ** What a fetch writes *)

(** The pieces of [response_chunks] make up the body: the fuel of
    [chunks_fuel] is enough. *)
Lemma chunks_fuel_concat n : forall fuel data,
  (0 < n)%nat -> (length data <= fuel)%nat ->
  concat (chunks_fuel fuel n data) = data.
Proof.
  induction fuel as [|fuel IH]; intros data Hn Hlen.
  - destruct data; [reflexivity | simpl in Hlen; lia].
  - destruct data as [|x data]; [reflexivity|].
    change (chunks_fuel (S fuel) n (x :: data))
      with (firstn n (x :: data) :: chunks_fuel fuel n (skipn n (x :: data))).
    simpl concat. rewrite IH; [apply firstn_skipn | exact Hn |].
    rewrite length_skipn. cbn [length] in *. lia.
Qed.

Lemma response_chunks_concat r c : concat (response_chunks r c) = body r.
Proof.
  unfold response_chunks. destruct (Z.to_nat c) as [|n] eqn:E.
  - destruct (body r) as [|x l]; [reflexivity|].
    simpl. rewrite app_nil_r. reflexivity.
  - apply chunks_fuel_concat; lia.
Qed.

Lemma write_nonempty f chunk :
  chunk <> [] ->
  File.write f chunk =
  File.mk (firstn (File.fpos f) (File.content f)
             ++ repeat Byte.x00 (File.fpos f - length (File.content f))
             ++ chunk
             ++ skipn (File.fpos f + length chunk) (File.content f))
          (File.fpos f + length chunk).
Proof. destruct chunk; [contradiction | reflexivity]. Qed.

Lemma write_write f a b :
  File.write (File.write f a) b = File.write f (a ++ b).
Proof.
  destruct a as [|x a]; [reflexivity|].
  destruct b as [|y b]; [rewrite app_nil_r; reflexivity|].
  assert (Ha : x :: a <> []) by discriminate.
  assert (Hb : y :: b <> []) by discriminate.
  revert Ha Hb. generalize (x :: a) (y :: b). clear x a y b.
  intros a b Ha Hb.
  assert (Hab : a ++ b <> []) by (destruct a; [contradiction | discriminate]).
  rewrite (write_nonempty f a Ha), (write_nonempty _ b Hb),
    (write_nonempty f (a ++ b) Hab).
  destruct f as [c p]. cbn [File.content File.fpos].
  set (hole := repeat Byte.x00 (p - length c)).
  assert (Hp : length (firstn p c ++ hole) = p).
  { rewrite length_app, length_firstn. unfold hole. rewrite repeat_length. lia. }
  set (c1 := firstn p c ++ hole ++ a ++ skipn (p + length a) c).
  assert (Ec1 : c1 = ((firstn p c ++ hole) ++ a) ++ skipn (p + length a) c).
  { unfold c1. rewrite <- !app_assoc. reflexivity. }
  assert (Hpa : length ((firstn p c ++ hole) ++ a) = (p + length a)%nat).
  { rewrite length_app, Hp. reflexivity. }
  assert (Hf : firstn (p + length a) c1 = (firstn p c ++ hole) ++ a).
  { rewrite Ec1, <- Hpa, firstn_app, firstn_all, Nat.sub_diag. simpl.
    apply app_nil_r. }
  assert (Hs : skipn (p + length a + length b) c1 = skipn (p + length (a ++ b)) c).
  { rewrite Ec1, skipn_app, Hpa.
    rewrite skipn_all2 by (rewrite Hpa; lia).
    rewrite app_nil_l, skipn_skipn. f_equal. rewrite length_app. lia. }
  assert (Hh : (p + length a - length c1 = 0)%nat).
  { rewrite Ec1, length_app, Hpa. lia. }
  rewrite Hf, Hs, Hh. cbn [repeat]. rewrite app_nil_l.
  rewrite length_app, <- !app_assoc. f_equal. lia.
Qed.

Lemma write_chunks_concat cs : forall s,
  write_chunks cs s = Ok tt (set_file (File.write (_file s) (concat cs)) s).
Proof.
  induction cs as [|c cs IH]; intros s.
  - simpl. destruct s; reflexivity.
  - change (write_chunks (c :: cs) s)
      with (write_chunks cs (set_file (File.write (_file s) c) s)).
    rewrite IH. simpl _file. rewrite write_write. reflexivity.
Qed.

(** A served fetch writes the response body into the mirror at the start
    of the range, and leaves the cursor behind it. *)
Lemma fetch_writes_body srv g s :
  is_success (get_status (get srv (fst g) (snd g))) = true ->
  0 <= fst g ->
  fetch srv g s =
  Ok tt (set_file
           (File.write (File.mk (File.content (_file s)) (Z.to_nat (fst g)))
              (body (get srv (fst g) (snd g))))
           (log (ev_get g) s)).
Proof.
  intros Hs Hg.
  cbv beta iota delta
    [fetch bind _stream_response raise_for_status modify ret raise self].
  rewrite Hs. cbv iota beta. unfold seek, File.seek.
  change (0 =? 0) with true. cbv iota.
  destruct (Z.ltb_spec (fst g) 0); [lia|].
  rewrite write_chunks_concat, response_chunks_concat. reflexivity.
Qed.

End StreamFacts.

(* ===================================================================== *)
(** * The properties of the specification *)

Import Tracker TrackerFacts StreamFacts.

(** ** Auxiliary facts shared by several statements *)

Lemma covered_empty x : ~ covered empty x.
Proof. intros (l & r & [] & _). Qed.

(** A download whose ranges are all served returns, stores the merged
    interval and has issued exactly the yielded ranges. *)
Lemma download_served srv a b s :
  Forall (fun g => is_success (get_status (get srv (fst g) (snd g))) = true
                   /\ 0 <= fst g) (fst (reserve (tracker s) a b)) ->
  exists s',
    _download srv a b s = Ok tt s' /\
    tracker s' = snd (reserve (tracker s) a b) /\
    trace s' = trace s ++ map ev_get (fst (reserve (tracker s) a b)) /\
    cursor s' = cursor s /\ _length s' = _length s /\ chunk_size s' = chunk_size s.
Proof.
  intros H. pose proof (download_ok srv a b s H) as Hok.
  destruct (download_spec srv a b s) as (k & Hcur & Hch & Hlen & Htr & Hres).
  rewrite Hok in Hres. destruct Hres as [Ht Hk].
  rewrite Hk, firstn_all in Htr.
  destruct (_download srv a b s) as [[] s'|]; [|discriminate].
  exists s'. simpl in *. auto 10.
Qed.

(** A download that returns has stored the merged interval and issued the
    yielded ranges. *)
Lemma download_returned srv a b s s' :
  _download srv a b s = Ok tt s' ->
  tracker s' = snd (reserve (tracker s) a b) /\
  fetches (trace s') = fetches (trace s) ++ fst (reserve (tracker s) a b).
Proof.
  intros E.
  destruct (download_spec srv a b s) as (k & _ & _ & _ & Htr & Hres).
  rewrite E in *. simpl in *. destruct Hres as [Ht Hk].
  split; [exact Ht|].
  rewrite Htr, Hk, firstn_all, fetches_app, fetches_gets. reflexivity.
Qed.

(** With a negative size the window of [read] is the last chunk, wherever
    the cursor is. *)
Lemma read_window_negative size s :
  size < 0 -> 0 <= chunk_size s ->
  read_window size s = (Z.max 0 (_length s - chunk_size s), _length s - 1).
Proof.
  intros Hs Hc. unfold read_window.
  destruct (Z.ltb_spec size 0); [|lia].
  rewrite (Z.max_r size (chunk_size s)) by lia. reflexivity.
Qed.

(** A sequence of downloads that returns has stored what the same
    sequence of reservations stores. *)
Lemma download_all_tracker srv reqs : forall s s',
  download_all srv reqs s = Ok tt s' ->
  tracker s' = reserve_all (tracker s) reqs.
Proof.
  induction reqs as [|[a b] reqs IH]; intros s s' E.
  - inversion E. reflexivity.
  - change (download_all srv ((a, b) :: reqs) s)
      with (match _download srv a b s with
            | Ok _ s1 => download_all srv reqs s1
            | Raise e s1 => Raise e s1
            end) in E.
    destruct (_download srv a b s) as [[] s1|e s1] eqn:E1; [|discriminate].
    destruct (download_returned srv a b s s1 E1) as [T _].
    change (reserve_all (tracker s) ((a, b) :: reqs))
      with (reserve_all (snd (reserve (tracker s) a b)) reqs).
    rewrite <- T. apply IH. exact E.
Qed.

(** The probe keeps the cursor. *)
Lemma probe_cursor srv p e : forall starts s,
  cursor (state_of (probe srv p e starts s)) = cursor s.
Proof.
  induction starts as [|st rest IH]; intros s; [reflexivity|].
  rewrite probe_cons.
  pose proof (download_cursor srv st e s) as H1.
  destruct (_download srv st e s) as [[] s1|x s1]; simpl in H1; [|exact H1].
  pose proof (parse_attempt_cursor srv p s1) as H2.
  destruct (parse_attempt srv p s1) as [parsed s2|x s2]; simpl in H2;
    [|simpl; congruence].
  destruct parsed; [simpl; congruence|].
  rewrite IH. congruence.
Qed.

Lemma check_zip_cursor srv p s :
  cursor (state_of (_check_zip srv p s)) = cursor s.
Proof.
  unfold _check_zip, bind, self.
  destruct (py_range0 (_length s - 1) (chunk_size s)); [|reflexivity].
  apply probe_cursor.
Qed.

(** ** Interval tracker *)

(** C3, as stated, fails: after [reserve(0,9)] and [reserve(10,19)] the
    tracker does not hold the single interval [(0,19)]; it holds two
    intervals with [end_0 + 1 >= start_1]. *)
Lemma adjacent_not_merged :
  let t := reserve_all empty [(0, 9); (10, 19)] in
  intervals t <> [(0, 19)] /\
  length (intervals t) = 2%nat /\
  nth 0 (snd t) 0 + 1 >= nth 1 (fst t) 0.
Proof.
  vm_compute. split; [discriminate|]. split; [reflexivity|]. discriminate.
Qed.

(** C3, amended: a reservation exactly adjacent to a recorded interval is
    recorded next to it, not merged: after [reserve(0,9)] and
    [reserve(10,19)] the tracker holds [(0,9)] and [(10,19)].  In general,
    after any sequence of reservations of non-empty ranges, consecutive
    recorded intervals are strictly apart by order, [end_i < start_(i+1)]:
    they never share a byte, but they may touch. *)
Theorem adjacent_kept_apart :
  reserve_all empty [(0, 9); (10, 19)] = ([0; 10], [9; 19]) /\
  forall (reqs : list (Z * Z)) (i : nat),
    Forall (fun ab => fst ab <= snd ab) reqs ->
    (S i < length (fst (reserve_all empty reqs)))%nat ->
    nth i (snd (reserve_all empty reqs)) 0
    < nth (S i) (fst (reserve_all empty reqs)) 0.
Proof.
  split; [reflexivity|].
  intros reqs i Hreqs Hi.
  apply wf_gap; [|exact Hi].
  apply reserve_all_wf; [apply wf_empty | exact Hreqs].
Qed.

Lemma adjacent_kept_apart_witness :
  nth 0 (snd (reserve_all empty [(0, 9); (10, 19)])) 0
  < nth 1 (fst (reserve_all empty [(0, 9); (10, 19)])) 0.
Proof.
  apply (proj2 adjacent_kept_apart [(0, 9); (10, 19)] 0%nat).
  - repeat constructor; simpl; lia.
  - simpl. lia.
Defined.

(** C4: after any finite sequence of reservations of closed ranges
    [(a, b)], [a <= b], starting from the empty tracker, the recorded
    intervals are sorted by start, pairwise non-overlapping, and cover
    exactly the offsets that were requested.  These are the lists a fresh
    stream holds after the same sequence of [_download] calls has
    returned. *)
Theorem reserve_all_invariant (reqs : list (Z * Z)) :
  Forall (fun ab => fst ab <= snd ab) reqs ->
  (sorted_by_start (reserve_all empty reqs) /\
   non_overlapping (reserve_all empty reqs) /\
   forall x, covered (reserve_all empty reqs) x <-> requested reqs x) /\
  (forall (srv : session) (s s' : LazyZipOverHTTP),
     tracker s = empty ->
     download_all srv reqs s = Ok tt s' ->
     tracker s' = reserve_all empty reqs).
Proof.
  intros Hreqs.
  pose proof (reserve_all_wf reqs empty wf_empty Hreqs) as Hwf.
  split.
  - split; [apply wf_sorted; exact Hwf|].
    split; [apply wf_non_overlapping; exact Hwf|].
    intros x. rewrite (reserve_all_covered reqs empty x wf_empty Hreqs).
    pose proof (covered_empty x). tauto.
  - intros srv s s' Ht E. rewrite <- Ht.
    apply (download_all_tracker srv reqs s s' E).
Qed.

Lemma reserve_all_invariant_witness :
  (sorted_by_start (reserve_all empty [(0, 9); (100, 109); (5, 14)]) /\
   non_overlapping (reserve_all empty [(0, 9); (100, 109); (5, 14)]) /\
   forall x, covered (reserve_all empty [(0, 9); (100, 109); (5, 14)]) x
             <-> requested [(0, 9); (100, 109); (5, 14)] x) /\
  tracker (state_of (download_all (range_server (repeat Byte.x01 120))
                       [(0, 9); (100, 109); (5, 14)] (negotiated 10 120)))
  = reserve_all empty [(0, 9); (100, 109); (5, 14)].
Proof.
  destruct (reserve_all_invariant [(0, 9); (100, 109); (5, 14)]) as [H1 H2].
  - repeat constructor; simpl; lia.
  - split; [exact H1|].
    apply (H2 (range_server (repeat Byte.x01 120)) (negotiated 10 120));
      vm_compute; reflexivity.
Defined.

(** C5: from the empty tracker, [reserve(0,9)] yields exactly the range
    [(0,9)] and [reserve(5,14)] then yields exactly [(10,14)], leaving the
    single interval [(0,14)].  For the stream: when a fresh object
    downloads [0..9] and then [5..14] from a server that serves both
    requests, the ranged fetches issued are exactly [0..9] and [10..14],
    in this order; no offset of [5..9] is in the second. *)
Theorem merge_overlapping :
  reserve empty 0 9 = ([(0, 9)], ([0], [9])) /\
  reserve ([0], [9]) 5 14 = ([(10, 14)], ([0], [14])) /\
  forall (srv : session) (s : LazyZipOverHTTP),
    tracker s = empty ->
    is_success (get_status (get srv 0 9)) = true ->
    is_success (get_status (get srv 10 14)) = true ->
    exists s1 s2,
      _download srv 0 9 s = Ok tt s1 /\
      trace s1 = trace s ++ [EvGet 0 9] /\
      _download srv 5 14 s1 = Ok tt s2 /\
      trace s2 = trace s1 ++ [EvGet 10 14] /\
      tracker s2 = ([0], [14]).
Proof.
  split; [reflexivity|]. split; [reflexivity|].
  intros srv s Ht H1 H2.
  destruct (download_served srv 0 9 s) as (s1 & E1 & T1 & Tr1 & _).
  { rewrite Ht. repeat constructor; simpl; [exact H1 | lia]. }
  rewrite Ht in T1, Tr1.
  destruct (download_served srv 5 14 s1) as (s2 & E2 & T2 & Tr2 & _).
  { rewrite T1. repeat constructor; simpl; [exact H2 | lia]. }
  rewrite T1 in T2, Tr2.
  exists s1, s2. auto.
Qed.

Lemma merge_overlapping_witness :
  exists s1 s2,
    _download (range_server (repeat Byte.x01 20)) 0 9 (negotiated 10 20) = Ok tt s1 /\
    trace s1 = trace (negotiated 10 20) ++ [EvGet 0 9] /\
    _download (range_server (repeat Byte.x01 20)) 5 14 s1 = Ok tt s2 /\
    trace s2 = trace s1 ++ [EvGet 10 14] /\
    tracker s2 = ([0], [14]).
Proof.
  apply (proj2 (proj2 merge_overlapping)
           (range_server (repeat Byte.x01 20)) (negotiated 10 20));
    reflexivity.
Defined.

(** C6: on a well-formed tracker, for a range [(a, b)], [a <= b], with an
    offset not yet covered, [reserve(a, b)] yields a non-empty list of
    ranges, and a second [reserve(a, b)] yields the empty list and stores
    the same lists.  For the stream: when the first [_download(a, b)]
    returns it has issued at least one ranged fetch, and the second
    [_download(a, b)] returns the very same state: no fetch, no change. *)
Theorem reserve_idempotent (t : list Z * list Z) (a b : Z) :
  wf t -> a <= b ->
  (exists x, a <= x <= b /\ ~ covered t x) ->
  fst (reserve t a b) <> [] /\
  reserve (snd (reserve t a b)) a b = ([], snd (reserve t a b)) /\
  forall (srv : session) (s s1 : LazyZipOverHTTP),
    tracker s = t ->
    _download srv a b s = Ok tt s1 ->
    fetches (trace s1) = fetches (trace s) ++ fst (reserve t a b) /\
    tracker s1 = snd (reserve t a b) /\
    _download srv a b s1 = Ok tt s1.
Proof.
  intros Hwf Hab Hnc.
  split; [apply reserve_yields_nonempty; assumption|].
  split; [apply reserve_twice; assumption|].
  intros srv s s1 Ht E. subst t.
  destruct (download_returned srv a b s s1 E) as [T F].
  split; [exact F|]. split; [exact T|].
  apply download_noop. rewrite T. apply reserve_twice; assumption.
Qed.

Lemma reserve_idempotent_witness :
  fst (reserve ([0; 20], [9; 29]) 5 24) <> [] /\
  reserve (snd (reserve ([0; 20], [9; 29]) 5 24)) 5 24
  = ([], snd (reserve ([0; 20], [9; 29]) 5 24)) /\
  fetches (trace (state_of (_download (range_server (repeat Byte.x01 30)) 5 24
                              (set_tracker ([0; 20], [9; 29]) (negotiated 10 30)))))
  = [(10, 19)] /\
  _download (range_server (repeat Byte.x01 30)) 5 24
    (state_of (_download (range_server (repeat Byte.x01 30)) 5 24
                 (set_tracker ([0; 20], [9; 29]) (negotiated 10 30))))
  = Ok tt (state_of (_download (range_server (repeat Byte.x01 30)) 5 24
                       (set_tracker ([0; 20], [9; 29]) (negotiated 10 30)))).
Proof.
  destruct (reserve_idempotent ([0; 20], [9; 29]) 5 24) as (H1 & H2 & H3).
  - split; [reflexivity|]. repeat constructor; simpl; lia.
  - lia.
  - exists 15. split; [lia|].
    intros (l & r & Hin & Hx). simpl in Hin.
    destruct Hin as [E|[E|[]]]; inversion E; subst; lia.
  - destruct (H3 (range_server (repeat Byte.x01 30))
                (set_tracker ([0; 20], [9; 29]) (negotiated 10 30))
                (state_of (_download (range_server (repeat Byte.x01 30)) 5 24
                             (set_tracker ([0; 20], [9; 29]) (negotiated 10 30))))
                eq_refl eq_refl) as (F & T & E).
    split; [exact H1|]. split; [exact H2|]. split; [exact F | exact E].
Defined.

(** ** Opening the stream *)

(** C1, as stated, fails: on a 25-byte object without an end-of-directory
    signature the probe walks back to offset 0, the whole object is
    mirrored, the reader still raises [BadZipFile] on it, and yet opening
    returns normally. *)
Lemma final_failure_swallowed :
  let srv := range_server (repeat Byte.x01 25) in
  let r := open srv 10 tail_reader in
  is_ok r = true /\
  tracker (state_of r) = ([0], [24]) /\
  ZipFile srv tail_reader (state_of r)
  = Raise BadZipFile (log EvZipFile
                        (restore_pos 25 (state_of r))).
Proof. vm_compute. repeat split; reflexivity. Qed.

(** C2, evaluated where it fails: a 30-byte object of [0xff] bytes is
    opened with chunk size 10 (the probe mirrors [20..29]); with the cursor
    at 0, [read()] downloads nothing more and returns 30 bytes of which the
    first 20 are the zero filling of the mirror, not bytes of the object.
    The recorded interval is still [(20, 29)] only. *)
Theorem read_all_returns_unmirrored :
  let srv := range_server (repeat Byte.xff 30) in
  let s := state_of (open srv 10 (ZDone None)) in
  cursor s = 0%nat /\ tracker s = ([20], [29]) /\
  exists s',
    read srv (-1) s = Ok (repeat Byte.x00 20 ++ repeat Byte.xff 10) s' /\
    fetches (trace s') = [(20, 29)] /\
    tracker s' = ([20], [29]).
Proof.
  vm_compute. split; [reflexivity|]. split; [reflexivity|].
  eexists. split; [reflexivity|]. split; reflexivity.
Qed.

(** C7: when the HEAD response does not confirm byte ranges, opening does
    not return and nothing but the HEAD request has happened: no ranged
    fetch, no parse attempt.  When that response is otherwise a 200 with a
    valid length, the exception is [HTTPRangeRequestUnsupportedError]. *)
Theorem unsupported_range_no_fetch (srv : session) (chunk : Z) (p : zip_reader) :
  no_range_support srv ->
  (is_ok (open srv chunk p) = false /\
   trace (state_of (open srv chunk p)) = [EvHead] /\
   fetches (trace (state_of (open srv chunk p))) = []) /\
  (forall L, head_status (head srv) = 200 ->
             content_length (head srv) = Some L -> 0 <= L ->
             exists s', open srv chunk p
                        = Raise HTTPRangeRequestUnsupportedError s').
Proof.
  unfold no_range_support. intros Hno. split.
  - unfold open, __aenter__.
    cbv beta iota delta [bind modify raise_for_status ret raise self truncate].
    rewrite Hno.
    destruct (is_success (head_status (head srv))); [|auto].
    destruct (head_status (head srv) =? 200); [|auto].
    destruct (length_header (head srv)) as [| |n]; [auto | auto |].
    cbv beta iota zeta.
    match goal with |- context [File.truncate ?f ?n] =>
      destruct (File.truncate f n) end; auto.
  - intros L Hs Hl HL.
    apply length_announced in Hl.
    unfold open, __aenter__.
    cbv beta iota delta [bind modify raise_for_status ret raise self truncate].
    rewrite Hno, Hs, Hl.
    change (is_success 200) with true. change (200 =? 200) with true.
    cbv beta iota zeta delta [negb set_length _length _file log __post_init__].
    rewrite (truncate_empty L HL). eexists. reflexivity.
Qed.

Lemma unsupported_range_no_fetch_witness :
  (is_ok (open (plain_server (repeat Byte.x01 25)) 10 tail_reader) = false /\
   trace (state_of (open (plain_server (repeat Byte.x01 25)) 10 tail_reader))
   = [EvHead] /\
   fetches (trace (state_of (open (plain_server (repeat Byte.x01 25)) 10 tail_reader)))
   = []) /\
  exists s', open (plain_server (repeat Byte.x01 25)) 10 tail_reader
             = Raise HTTPRangeRequestUnsupportedError s'.
Proof.
  destruct (unsupported_range_no_fetch
              (plain_server (repeat Byte.x01 25)) 10 tail_reader eq_refl)
    as [H1 H2].
  split; [exact H1|].
  apply (H2 25); [reflexivity | reflexivity | lia].
Defined.

(** C8, as stated, fails.  With chunk size 10 and an archive whose
    directory is read from its last four bytes: for length 21 the single
    fetch is [10..20], eleven bytes, and offset 10 lies in [0, 21 - 10);
    for length 25 the probe fetches [20..24] and the reader's first read
    fetches [15..19], two fetches. *)
Lemma first_probe_not_chunk_sized :
  let r21 := open (range_server (repeat Byte.x01 17 ++ sig_bytes)) 10 tail_reader in
  let r25 := open (range_server (repeat Byte.x01 21 ++ sig_bytes)) 10 tail_reader in
  (is_ok r21 = true /\
   parses_from_tail 21 10 (_file (state_of r21)) tail_reader /\
   fetches (trace (state_of r21)) = [(10, 20)] /\
   20 - 10 + 1 <> 10 /\ 0 <= 10 < 21 - 10) /\
  (is_ok r25 = true /\
   parses_from_tail 25 10 (_file (state_of r25)) tail_reader /\
   fetches (trace (state_of r25)) = [(20, 24); (15, 19)]).
Proof.
  vm_compute. repeat split; try reflexivity; try discriminate;
    right; discriminate.
Qed.

(** C8, amended: for an object whose length [L] is a positive multiple of
    the chunk size (at least 2), served with byte ranges, and a reader that
    parses from the last [chunk] bytes alone (run on the mirror as the first
    probe leaves it, it returns and reads inside [L - chunk .. L - 1] only),
    opening returns after exactly one ranged fetch, [L - chunk .. L - 1],
    of [chunk] bytes, and one parse attempt; no offset below [L - chunk]
    is fetched. *)
Theorem one_fetch_when_aligned
  (srv : session) (chunk k L : Z) (p : zip_reader) :
  2 <= chunk -> 1 <= k -> L = k * chunk ->
  announces srv L ->
  is_success (get_status (get srv (L - chunk) (L - 1))) = true ->
  parses_from_tail L chunk (_file (probed srv chunk L)) p ->
  exists s',
    open srv chunk p = Ok tt s' /\
    fetches (trace s') = [(L - chunk, L - 1)] /\
    (L - 1) - (L - chunk) + 1 = chunk /\
    parses (trace s') = 1%nat.
Proof.
  intros Hc Hk EL Han Hget Hp.
  assert (HL : chunk <= L) by nia.
  rewrite (open_eq srv chunk p L Han ltac:(lia)).
  destruct (range_aligned k chunk Hc Hk) as (r & rest & Er & Erev).
  rewrite <- EL in Er, Erev.
  rewrite (check_zip_eq srv p (negotiated chunk L) r Er), Erev.
  change (_length (negotiated chunk L)) with L.
  rewrite probe_cons.
  destruct (download_served srv (L - chunk) (L - 1) (negotiated chunk L))
    as (s1 & E1 & T1 & Tr1 & C1 & L1 & K1).
  { change (tracker (negotiated chunk L)) with empty.
    rewrite reserve_empty by lia. repeat constructor; simpl; [exact Hget | lia]. }
  change (tracker (negotiated chunk L)) with empty in T1, Tr1.
  rewrite reserve_empty in T1, Tr1 by lia. simpl in T1, Tr1.
  assert (Es : probed srv chunk L = s1) by (unfold probed; rewrite E1; reflexivity).
  rewrite Es in Hp. rewrite E1.
  assert (Ht : tail_only L chunk (log EvZipFile s1)).
  { split; [exact L1|]. split; [exact K1 | exact T1]. }
  destruct (run_from_tail srv L chunk ltac:(lia) HL p (log EvZipFile s1) Ht Hp)
    as (s2 & E2 & Tr2 & _).
  rewrite parse_attempt_eq, E2.
  eexists. split; [reflexivity|].
  change (trace (restore_pos (cursor s1) s2)) with (trace s2).
  rewrite Tr2.
  change (trace (log EvZipFile s1)) with (trace s1 ++ [EvZipFile]).
  rewrite Tr1. split; [reflexivity|]. split; [lia | reflexivity].
Qed.

Lemma one_fetch_when_aligned_witness :
  exists s',
    open (range_server (repeat Byte.x01 36 ++ sig_bytes)) 10 tail_reader = Ok tt s' /\
    fetches (trace s') = [(40 - 10, 40 - 1)] /\
    (40 - 1) - (40 - 10) + 1 = 10 /\
    parses (trace s') = 1%nat.
Proof.
  apply (one_fetch_when_aligned
           (range_server (repeat Byte.x01 36 ++ sig_bytes)) 10 4 40 tail_reader).
  - lia.
  - lia.
  - reflexivity.
  - split; [reflexivity|]. split; [reflexivity|].
    exists "bytes"%string. split; reflexivity.
  - reflexivity.
  - vm_compute. repeat split; try reflexivity; try discriminate.
    right. discriminate.
Defined.

(** C9: the internal operations that move the cursor give it back on every
    exit path.  Whatever the server answers and whatever the reader does,
    and whether the call returns or raises, after [_download] (from the
    probe or from [read]), after a parse attempt of [_check_zip], and after
    [_check_zip] as a whole, the cursor is where it was. *)
Theorem cursor_restored (srv : session) :
  (forall a b s, cursor (state_of (_download srv a b s)) = cursor s) /\
  (forall p s, cursor (state_of (parse_attempt srv p s)) = cursor s) /\
  (forall p s, cursor (state_of (_check_zip srv p s)) = cursor s).
Proof.
  split; [apply download_cursor|].
  split; [apply parse_attempt_cursor | apply check_zip_cursor].
Qed.

(** C10: for a remote object of negotiated length 0 or 1 (positive chunk
    size, byte ranges announced), opening returns right after negotiation:
    the trace holds the HEAD request only, so there was no ranged fetch and
    no parse attempt, whatever the reader would have said. *)
Theorem tiny_object_not_validated
  (srv : session) (chunk L : Z) (p : zip_reader) :
  1 <= chunk -> 0 <= L <= 1 -> announces srv L ->
  open srv chunk p = Ok tt (negotiated chunk L) /\
  fetches (trace (negotiated chunk L)) = [] /\
  parses (trace (negotiated chunk L)) = 0%nat.
Proof.
  intros Hc HL Han.
  rewrite (open_eq srv chunk p L Han ltac:(lia)).
  rewrite (check_zip_eq srv p (negotiated chunk L) []).
  - repeat split; reflexivity.
  - apply (range_small L chunk); [exact Hc | lia].
Qed.

Lemma tiny_object_not_validated_witness :
  open (range_server [Byte.x01]) 10 reject_reader = Ok tt (negotiated 10 1) /\
  fetches (trace (negotiated 10 1)) = [] /\
  parses (trace (negotiated 10 1)) = 0%nat.
Proof.
  apply (tiny_object_not_validated (range_server [Byte.x01]) 10 1 reject_reader).
  - lia.
  - lia.
  - split; [reflexivity|]. split; [reflexivity|].
    exists "bytes"%string. split; reflexivity.
Defined.


(* ===================================================================== *)
(** * Further properties of the code *)

(** ** More on the yielded ranges *)

Module TrackerMore.
Import Tracker TrackerFacts.

Lemma merge_walk_nonempty : forall mid i e,
  Forall (fun g => fst g <= snd g) (merge_walk i mid e).
Proof.
  induction mid as [|[j k] mid IH]; intros i e; simpl.
  - destruct (Z.leb_spec i e); repeat constructor. simpl. lia.
  - apply Forall_app. split; [|apply IH].
    destruct (Z.gtb_spec j i); repeat constructor. simpl. lia.
Qed.

Lemma merge_walk_chain : forall mid i e,
  chain mid -> chain (merge_walk i mid e).
Proof.
  induction mid as [|[j k] mid IH]; intros i e Hc.
  - simpl. destruct (Z.leb_spec i e); repeat constructor. simpl. lia.
  - inversion Hc as [|? ? Hjk Hall Hrest]; subst. simpl in Hjk.
    change (merge_walk i ((j, k) :: mid) e)
      with ((if j >? i then [(i, j - 1)] else []) ++ merge_walk (k + 1) mid e).
    destruct (Z.gtb_spec j i) as [Hgt|]; [|apply IH; exact Hrest].
    simpl. constructor; [simpl; lia | | apply IH; exact Hrest].
    assert (Hs : Forall (fun g => k + 1 <= fst g) (merge_walk (k + 1) mid e)).
    { apply merge_walk_starts; [lia|].
      pose proof (chain_nonempty _ Hrest) as Hne.
      rewrite Forall_forall in *. intros iv Hin.
      specialize (Hall iv Hin). specialize (Hne iv Hin). simpl in *. lia. }
    eapply Forall_impl; [|exact Hs]. simpl. intros. lia.
Qed.

Lemma reserve_yields_chain t a b :
  wf t -> a <= b -> chain (fst (reserve t a b)).
Proof.
  intros Hwf Hab.
  destruct (reserve_shape t a b Hwf Hab)
    as (pre & mid & post & E & _ & _ & _ & Er).
  rewrite Er. simpl. apply merge_walk_chain.
  destruct Hwf as [_ Hc]. rewrite E in Hc.
  apply chain_app in Hc as (_ & Hc & _). apply chain_app in Hc as (Hcm & _ & _).
  exact Hcm.
Qed.

Lemma reserve_yields_within t a b :
  wf t -> a <= b ->
  Forall (fun g => a <= fst g /\ fst g <= snd g /\ snd g <= b) (fst (reserve t a b)).
Proof.
  intros Hwf Hab.
  pose proof (chain_nonempty _ (reserve_yields_chain t a b Hwf Hab)) as Hne.
  rewrite Forall_forall in *. intros g Hin. specialize (Hne g Hin).
  assert (H1 : covered (snd (reserve t a b)) (fst g) /\ ~ covered t (fst g)).
  { apply reserve_yields_exact; [assumption..|].
    exists g. split; [exact Hin | unfold inside; lia]. }
  assert (H2 : covered (snd (reserve t a b)) (snd g) /\ ~ covered t (snd g)).
  { apply reserve_yields_exact; [assumption..|].
    exists g. split; [exact Hin | unfold inside; lia]. }
  destruct H1 as [C1 N1]. destruct H2 as [C2 N2].
  apply reserve_covered in C1; [|assumption..].
  apply reserve_covered in C2; [|assumption..].
  destruct C1 as [|C1]; [contradiction|]. destruct C2 as [|C2]; [contradiction|].
  lia.
Qed.

Lemma reserve_nil_iff t a b :
  wf t -> a <= b ->
  (fst (reserve t a b) = [] <-> forall x, a <= x <= b -> covered t x).
Proof.
  intros Hwf Hab. split.
  - intros Hnil x Hx.
    destruct (reserve_shape t a b Hwf Hab)
      as (pre & mid & post & E & _ & _ & _ & Er).
    rewrite Er in Hnil. simpl in Hnil.
    pose proof (lo_bound_le a mid). pose proof (hi_bound_ge b mid).
    destruct (merge_walk_nil _ _ _ Hnil x ltac:(lia)) as (iv & Hin & Hiv).
    apply covered_intervals. exists iv. split; [|exact Hiv].
    rewrite E. apply in_or_app. right. apply in_or_app. left. exact Hin.
  - intros Hcov. destruct (fst (reserve t a b)) as [|g gs] eqn:Eg; [reflexivity|].
    exfalso.
    pose proof (reserve_yields_within t a b Hwf Hab) as Hw.
    rewrite Eg in Hw. inversion Hw as [|? ? Hg _]; subst.
    assert (H1 : covered (snd (reserve t a b)) (fst g) /\ ~ covered t (fst g)).
    { apply reserve_yields_exact; [assumption..|].
      exists g. split; [rewrite Eg; left; reflexivity | unfold inside; lia]. }
    apply (proj2 H1). apply Hcov. lia.
Qed.

Lemma reserve_upper t a b M :
  wf t -> a <= b -> b <= M ->
  Forall (fun r => r <= M) (snd t) ->
  Forall (fun r => r <= M) (snd (snd (reserve t a b))).
Proof.
  intros Hwf Hab HbM Hup.
  destruct (reserve_shape t a b Hwf Hab)
    as (pre & mid & post & E & Hpre & Hmid & Hpost & Er).
  rewrite Er. simpl snd.
  rewrite (wf_of_intervals t Hwf), E in Hup. simpl in Hup.
  rewrite !map_app in Hup.
  apply Forall_app in Hup as [Hu1 Hu2]. apply Forall_app in Hu2 as [Hu2 Hu3].
  rewrite Forall_map in Hu2.
  rewrite map_app. simpl. apply Forall_app. split; [exact Hu1|].
  constructor; [|exact Hu3].
  destruct (hi_bound_cases b mid) as [Eh|(iv & Hin & Eh)]; rewrite Eh; [exact HbM|].
  rewrite Forall_forall in Hu2. apply Hu2. exact Hin.
Qed.

End TrackerMore.

(** ** Invariants kept by every use of the stream *)

Module ClientFacts.
Import Tracker TrackerFacts StreamFacts TrackerMore.

Lemma file_read_cases size s :
  (exists e, file_read size s = Raise e s) \/
  (exists pos, file_read size s
               = Ok (py_slice_from (File.content (_file s)) (cursor s) size)
                    (restore_pos pos s) /\
               pos = (cursor s + length (py_slice_from (File.content (_file s))
                                           (cursor s) size))%nat).
Proof.
  unfold file_read, File.read, py_slice_from, cursor.
  destruct (Z.ltb_spec size (-1)); [left; eexists; reflexivity|].
  right. eexists. split; reflexivity.
Qed.

Lemma seek_cases offset whence s :
  (exists e, seek offset whence s = Raise e s) \/
  (exists pos, seek offset whence s = Ok (Z.of_nat pos) (restore_pos pos s)).
Proof.
  unfold seek, File.seek.
  destruct (whence =? 0); [|destruct (whence =? 1); [|destruct (whence =? 2)]];
    try (left; eexists; reflexivity);
    match goal with |- context [?p <? 0] => destruct (p <? 0) end;
    try (left; eexists; reflexivity); right; eexists; reflexivity.
Qed.

Section Preserve.

Variable srv : session.
Variables L chunk : Z.
Hypothesis HL : 1 <= L.
Hypothesis Hchunk : 1 <= chunk.

(** A property of the object that downloads inside the object, cursor
    moves and the start of a parse attempt keep. *)
Variable P : LazyZipOverHTTP -> Prop.
Hypothesis P_inv : forall s, P s -> stream_inv L chunk s.
Hypothesis P_download : forall a b s,
  0 <= a -> a <= b -> b <= L - 1 -> P s -> P (state_of (_download srv a b s)).
Hypothesis P_cursor : forall pos s, P s -> P (restore_pos pos s).
Hypothesis P_zip : forall s, P s -> P (log EvZipFile s).

Lemma read_window_bounds size s :
  stream_inv L chunk s ->
  0 <= fst (read_window size s) /\
  fst (read_window size s) <= snd (read_window size s) /\
  snd (read_window size s) <= L - 1.
Proof.
  intros (IL & Ic & _). unfold read_window. rewrite IL, Ic. simpl.
  destruct (Z.ltb_spec size 0); lia.
Qed.

Lemma P_read size s : P s -> P (state_of (read srv size s)).
Proof.
  intros HP. rewrite read_eq.
  destruct (read_window_bounds size s (P_inv s HP)) as (W1 & W2 & W3).
  pose proof (P_download _ _ s W1 W2 W3 HP) as HP1.
  destruct (_download srv _ _ s) as [[] s1|e s1]; simpl in *; [|exact HP1].
  destruct (file_read_cases size s1) as [[e E]|[pos [E _]]]; rewrite E; simpl.
  - exact HP1.
  - apply P_cursor. exact HP1.
Qed.

Lemma P_seek offset whence s : P s -> P (state_of (seek offset whence s)).
Proof.
  intros HP.
  destruct (seek_cases offset whence s) as [[e E]|[pos E]]; rewrite E; simpl.
  - exact HP.
  - apply P_cursor. exact HP.
Qed.

Lemma P_run_reader p : forall s, P s -> P (state_of (run_reader srv p s)).
Proof.
  induction p as [o|size k IH|offset whence k IH|k IH]; intros s HP; simpl.
  - destruct o; exact HP.
  - unfold bind. destruct (attempt_eq (read srv size) s) as [v E]. rewrite E.
    apply IH. apply P_read. exact HP.
  - unfold bind. destruct (attempt_eq (seek offset whence) s) as [v E]. rewrite E.
    apply IH. apply P_seek. exact HP.
  - unfold bind, tell. apply IH. exact HP.
Qed.

Lemma P_parse_attempt p s : P s -> P (state_of (parse_attempt srv p s)).
Proof.
  intros HP. rewrite parse_attempt_eq.
  pose proof (P_run_reader p _ (P_zip s HP)) as H.
  destruct (run_reader srv p (log EvZipFile s)) as [[] s'|e s']; simpl in *.
  - apply P_cursor. exact H.
  - destruct (is_BadZipFile e); simpl; apply P_cursor; exact H.
Qed.

Lemma P_probe p : forall starts s,
  Forall (fun st => 0 <= st <= L - 1) starts ->
  P s -> P (state_of (probe srv p (L - 1) starts s)).
Proof.
  induction starts as [|st rest IH]; intros s Hst HP; [exact HP|].
  inversion Hst as [|? ? Hb Hrest]; subst.
  rewrite probe_cons.
  pose proof (P_download st (L - 1) s ltac:(lia) ltac:(lia) ltac:(lia) HP) as H1.
  destruct (_download srv st (L - 1) s) as [[] s1|e s1]; simpl in H1; [|exact H1].
  pose proof (P_parse_attempt p s1 H1) as H2.
  destruct (parse_attempt srv p s1) as [parsed s2|e s2]; simpl in H2; [|exact H2].
  destruct parsed; [exact H2|]. apply IH; assumption.
Qed.

Lemma P_check_zip p s : P s -> P (state_of (_check_zip srv p s)).
Proof.
  intros HP. destruct (P_inv s HP) as (IL & Ic & _).
  destruct (Z_le_gt_dec L 1) as [Hs|Hb].
  - rewrite (check_zip_eq srv p s []); [exact HP|].
    rewrite IL, Ic. apply range_small; assumption.
  - destruct (range_bounds L chunk Hchunk ltac:(lia)) as (r & Er & _ & Hr).
    rewrite (check_zip_eq srv p s r); [|rewrite IL, Ic; exact Er].
    rewrite IL. apply P_probe; [|exact HP]. apply Forall_rev. exact Hr.
Qed.

Lemma P_open p :
  announces srv L -> P (negotiated chunk L) ->
  P (state_of (open srv chunk p)).
Proof.
  intros Han HP. rewrite (open_eq srv chunk p L Han ltac:(lia)).
  apply P_check_zip. exact HP.
Qed.

End Preserve.

End ClientFacts.

(** ** Ranged fetches stay inside the object and never repeat *)

Module FetchFacts.
Import Tracker TrackerFacts StreamFacts TrackerMore ClientFacts.

Lemma Forall_firstn_of {A} (Q : A -> Prop) k (l : list A) :
  Forall Q l -> Forall Q (firstn k l).
Proof.
  intros H. rewrite <- (firstn_skipn k l) in H.
  apply Forall_app in H. apply H.
Qed.

Lemma pairs_app {A} (R : A -> A -> Prop) (l1 l2 : list A) :
  ForallOrdPairs R l1 -> ForallOrdPairs R l2 ->
  (forall x y, In x l1 -> In y l2 -> R x y) ->
  ForallOrdPairs R (l1 ++ l2).
Proof.
  intros H1 H2 Hx. induction H1 as [|x l1 Hall H1 IH]; simpl; [exact H2|].
  constructor.
  - apply Forall_app. split; [exact Hall|].
    apply Forall_forall. intros y Hy. apply Hx; [left; reflexivity | exact Hy].
  - apply IH. intros x' y Hx' Hy. apply Hx; [right; exact Hx' | exact Hy].
Qed.

Lemma fetches_log_zip s : fetches (trace (log EvZipFile s)) = fetches (trace s).
Proof.
  change (trace (log EvZipFile s)) with (trace s ++ [EvZipFile]).
  rewrite fetches_app. apply app_nil_r.
Qed.

Section Bounded.

Variable srv : session.
Variables L chunk : Z.
Hypothesis HL : 1 <= L.
Hypothesis Hchunk : 1 <= chunk.

Lemma bounded_inv s : bounded L chunk s -> stream_inv L chunk s.
Proof. intros H. apply H. Qed.

Lemma bounded_download a b s :
  0 <= a -> a <= b -> b <= L - 1 ->
  bounded L chunk s -> bounded L chunk (state_of (_download srv a b s)).
Proof.
  intros Ha Hab Hb (Hinv & Hup & Hfe).
  destruct (download_inv srv L chunk a b s ltac:(lia) Hinv) as (Hinv' & _ & _).
  destruct (download_spec srv a b s) as (k & _ & _ & _ & Htr & Hres).
  pose proof Hinv as (_ & _ & Hwf & _).
  split; [exact Hinv'|]. split.
  - destruct (is_ok (_download srv a b s)).
    + destruct Hres as [Ht _].
      change (_right (state_of (_download srv a b s)))
        with (snd (tracker (state_of (_download srv a b s)))).
      rewrite Ht. apply reserve_upper; assumption.
    + change (_right (state_of (_download srv a b s)))
        with (snd (tracker (state_of (_download srv a b s)))).
      rewrite Hres. exact Hup.
  - rewrite Htr, fetches_app, fetches_gets. apply Forall_app. split; [exact Hfe|].
    apply Forall_firstn_of.
    eapply Forall_impl; [|apply (reserve_yields_within _ a b Hwf Hab)].
    intros g (G1 & G2 & G3). unfold in_bounds. lia.
Qed.

Lemma bounded_cursor pos s :
  bounded L chunk s -> bounded L chunk (restore_pos pos s).
Proof. intros H. exact H. Qed.

Lemma bounded_zip s : bounded L chunk s -> bounded L chunk (log EvZipFile s).
Proof.
  intros (Hinv & Hup & Hfe). split; [exact Hinv|]. split; [exact Hup|].
  rewrite fetches_log_zip. exact Hfe.
Qed.

Lemma bounded_negotiated : bounded L chunk (negotiated chunk L).
Proof.
  split; [apply inv_negotiated|]. split; constructor.
Qed.

End Bounded.

Section Frugal.

Variable srv : session.
Variables L chunk : Z.
Hypothesis HL : 1 <= L.
Hypothesis Hchunk : 1 <= chunk.
Hypothesis Hsrv : always_serves srv.

Lemma frugal_inv s : frugal L chunk s -> stream_inv L chunk s.
Proof. intros H. apply H. Qed.

Lemma frugal_download a b s :
  0 <= a -> a <= b -> b <= L - 1 ->
  frugal L chunk s -> frugal L chunk (state_of (_download srv a b s)).
Proof.
  intros Ha Hab Hb (Hbd & Hdis & Hun).
  pose proof (bounded_download srv L chunk a b s Ha Hab Hb Hbd) as Hbd'.
  pose proof Hbd as ((_ & _ & Hwf & Hnn) & _ & _).
  destruct (download_served srv a b s) as (s' & E & Ht & Htr & _).
  { destruct (reserve_nonneg (tracker s) a b Hwf Hab Ha Hnn) as [_ Hg].
    rewrite Forall_forall in *. intros g Hin. split; [apply Hsrv | apply Hg, Hin]. }
  rewrite E in *. simpl state_of in *.
  assert (Ef : fetches (trace s') = fetches (trace s) ++ fst (reserve (tracker s) a b)).
  { rewrite Htr, fetches_app, fetches_gets. reflexivity. }
  split; [exact Hbd'|]. split.
  - rewrite Ef. apply pairs_app.
    + exact Hdis.
    + apply chain_disjoint. apply reserve_yields_chain; assumption.
    + intros g1 g2 H1 H2 (x & X1 & X2).
      assert (Hc : covered (tracker s) x) by (apply Hun; exists g1; auto).
      assert (Hn : covered (snd (reserve (tracker s) a b)) x /\ ~ covered (tracker s) x).
      { apply reserve_yields_exact; [assumption..|]. exists g2. auto. }
      apply (proj2 Hn). exact Hc.
  - intros x. unfold fetched. rewrite Ef, Ht. split.
    + intros (g & Hin & Hg). apply in_app_or in Hin as [Hin|Hin].
      * apply reserve_covered; [assumption..|]. left. apply Hun. exists g. auto.
      * apply (reserve_yields_exact (tracker s) a b x Hwf Hab). exists g. auto.
    + intros Hc.
      destruct (Z_le_gt_dec a x) as [Hax|Hax];
        [destruct (Z_le_gt_dec x b) as [Hxb|Hxb]|].
      * (* inside the request: old or new *)
        assert (Hd : (exists g, In g (fetches (trace s)) /\ inside g x) \/
                     ~ covered (tracker s) x).
        { clear - Hun. destruct (Hun x) as [_ Hback].
          assert (Hdec : covered (tracker s) x \/ ~ covered (tracker s) x).
          { unfold covered. induction (intervals (tracker s)) as [|[l r] ivs IH].
            - right. intros (? & ? & [] & _).
            - destruct IH as [(l' & r' & Hin & Hx)|Hn].
              + left. exists l', r'. split; [right; exact Hin | exact Hx].
              + destruct (Z_le_gt_dec l x) as [Hl|Hl];
                  [destruct (Z_le_gt_dec x r) as [Hr|Hr]|].
                * left. exists l, r. split; [left; reflexivity | lia].
                * right. intros (l' & r' & [E|Hin] & Hx);
                    [inversion E; subst; lia | apply Hn; exists l', r'; auto].
                * right. intros (l' & r' & [E|Hin] & Hx);
                    [inversion E; subst; lia | apply Hn; exists l', r'; auto]. }
          destruct Hdec as [Hc|Hn]; [left; apply Hback; exact Hc | right; exact Hn]. }
        destruct Hd as [(g & Hin & Hg)|Hn].
        -- exists g. split; [apply in_or_app; left; exact Hin | exact Hg].
        -- destruct (proj2 (reserve_yields_exact (tracker s) a b x Hwf Hab)
                       (conj Hc Hn)) as (g & Hin & Hg).
           exists g. split; [apply in_or_app; right; exact Hin | exact Hg].
      * apply reserve_covered in Hc; [|assumption..].
        destruct Hc as [Hc|Hc]; [|lia].
        apply Hun in Hc as (g & Hin & Hg).
        exists g. split; [apply in_or_app; left; exact Hin | exact Hg].
      * apply reserve_covered in Hc; [|assumption..].
        destruct Hc as [Hc|Hc]; [|lia].
        apply Hun in Hc as (g & Hin & Hg).
        exists g. split; [apply in_or_app; left; exact Hin | exact Hg].
Qed.

Lemma frugal_cursor pos s : frugal L chunk s -> frugal L chunk (restore_pos pos s).
Proof. intros H. exact H. Qed.

Lemma frugal_zip s : frugal L chunk s -> frugal L chunk (log EvZipFile s).
Proof.
  intros (Hbd & Hdis & Hun). split; [apply bounded_zip; exact Hbd|].
  unfold fetched. rewrite fetches_log_zip. split; [exact Hdis | exact Hun].
Qed.

Lemma frugal_negotiated : frugal L chunk (negotiated chunk L).
Proof.
  split; [apply bounded_negotiated|]. split; [constructor|].
  intros x. split.
  - intros (g & [] & _).
  - intros (l & r & [] & _).
Qed.

End Frugal.

End FetchFacts.

(** ** The mirror holds the bytes of the object *)

Module MirrorFacts.
Import Tracker TrackerFacts StreamFacts TrackerMore ClientFacts FetchFacts.

Lemma covered_dec t x : covered t x \/ ~ covered t x.
Proof.
  unfold covered. induction (intervals t) as [|[l r] ivs IH].
  - right. intros (? & ? & [] & _).
  - destruct IH as [(l' & r' & Hin & Hx)|Hn].
    + left. exists l', r'. split; [right; exact Hin | exact Hx].
    + destruct (Z_le_gt_dec l x) as [Hl|Hl];
        [destruct (Z_le_gt_dec x r) as [Hr|Hr]|].
      * left. exists l, r. split; [left; reflexivity | lia].
      * right. intros (l' & r' & [E|Hin] & Hx);
          [inversion E; subst; lia | apply Hn; exists l', r'; auto].
      * right. intros (l' & r' & [E|Hin] & Hx);
          [inversion E; subst; lia | apply Hn; exists l', r'; auto].
Qed.

(** What the range server sends for a request inside the object. *)
Lemma honest_body data g :
  in_bounds (Z.of_nat (length data)) g ->
  length (body (get (range_server data) (fst g) (snd g)))
  = Z.to_nat (snd g - fst g + 1) /\
  forall i, (i < Z.to_nat (snd g - fst g + 1))%nat ->
    nth_error (body (get (range_server data) (fst g) (snd g))) i
    = nth_error data (Z.to_nat (fst g) + i).
Proof.
  intros (G1 & G2 & G3). simpl. split.
  - rewrite length_firstn, length_skipn. lia.
  - intros i Hi. rewrite nth_error_firstn.
    destruct (Nat.ltb_spec i (Z.to_nat (snd g - fst g + 1))); [|lia].
    apply nth_error_skipn.
Qed.

(** Overwriting inside the file. *)
Lemma write_inside c p bd :
  bd <> [] -> (p + length bd <= length c)%nat ->
  length (File.content (File.write (File.mk c p) bd)) = length c /\
  forall i,
    nth_error (File.content (File.write (File.mk c p) bd)) i
    = if (i <? p)%nat then nth_error c i
      else if (i <? p + length bd)%nat then nth_error bd (i - p)
      else nth_error c i.
Proof.
  intros Hne Hlen. rewrite (write_nonempty _ bd Hne). cbn [File.content File.fpos].
  replace (p - length c)%nat with 0%nat by lia. cbn [repeat]. rewrite app_nil_l.
  assert (Hp : length (firstn p c) = p) by (rewrite length_firstn; lia).
  split.
  - rewrite !length_app, Hp, length_skipn. lia.
  - intros i. rewrite nth_error_app, Hp.
    destruct (Nat.ltb_spec i p) as [Hi|Hi].
    + rewrite nth_error_firstn. destruct (Nat.ltb_spec i p); [reflexivity | lia].
    + rewrite nth_error_app.
      destruct (Nat.ltb_spec (i - p) (length bd)) as [Hb|Hb];
        destruct (Nat.ltb_spec i (p + length bd)); try lia; [reflexivity|].
      rewrite nth_error_skipn. f_equal. lia.
Qed.

Section Honest.

Variable data : list Byte.byte.

Let L := Z.of_nat (length data).
Let srv := range_server data.

Lemma honest_fetch g s :
  in_bounds L g ->
  length (File.content (_file s)) = length data ->
  exists s',
    fetch srv g s = Ok tt s' /\ frame s s' /\
    trace s' = trace s ++ [ev_get g] /\
    length (File.content (_file s')) = length data /\
    forall i,
      nth_error (File.content (_file s)) i = nth_error data i \/
      fst g <= Z.of_nat i <= snd g ->
      nth_error (File.content (_file s')) i = nth_error data i.
Proof.
  intros Hg Hlen. pose proof Hg as (G1 & G2 & G3).
  destruct (honest_body data g Hg) as [Hbl Hbn].
  rewrite (fetch_writes_body srv g s eq_refl G1). unfold srv.
  remember (body (get (range_server data) (fst g) (snd g))) as bd eqn:Ebd.
  assert (Hne : bd <> []).
  { intros E. rewrite E in Hbl. simpl in Hbl. lia. }
  destruct (write_inside (File.content (_file s)) (Z.to_nat (fst g)) bd Hne)
    as [Wl Wn].
  { rewrite Hbl, Hlen. unfold L in G3. lia. }
  eexists. split; [reflexivity|]. split; [repeat split|].
  split; [reflexivity|]. cbn [_file set_file]. split; [rewrite Wl; exact Hlen|].
  intros i Hi. rewrite Wn.
  destruct (Nat.ltb_spec i (Z.to_nat (fst g))) as [H1|H1].
  - destruct Hi as [Hi|Hi]; [exact Hi | lia].
  - destruct (Nat.ltb_spec i (Z.to_nat (fst g) + length bd)) as [H2|H2].
    + rewrite Hbn by lia. f_equal. lia.
    + destruct Hi as [Hi|Hi]; [exact Hi | lia].
Qed.

Lemma honest_fetch_all gaps : forall s,
  Forall (in_bounds L) gaps ->
  length (File.content (_file s)) = length data ->
  exists s',
    fetch_all srv gaps s = Ok tt s' /\ frame s s' /\
    trace s' = trace s ++ map ev_get gaps /\
    length (File.content (_file s')) = length data /\
    forall i,
      nth_error (File.content (_file s)) i = nth_error data i \/
      (exists g, In g gaps /\ fst g <= Z.of_nat i <= snd g) ->
      nth_error (File.content (_file s')) i = nth_error data i.
Proof.
  induction gaps as [|g gaps IH]; intros s Hb Hlen.
  - exists s. split; [reflexivity|]. split; [apply frame_refl|].
    split; [simpl; rewrite app_nil_r; reflexivity|]. split; [exact Hlen|].
    intros i [Hi|(g & [] & _)]. exact Hi.
  - inversion Hb as [|? ? Hg Hrest]; subst.
    destruct (honest_fetch g s Hg Hlen) as (s1 & E1 & F1 & T1 & L1 & A1).
    destruct (IH s1 Hrest L1) as (s2 & E2 & F2 & T2 & L2 & A2).
    exists s2.
    change (fetch_all srv (g :: gaps) s)
      with (match fetch srv g s with
            | Ok _ s' => fetch_all srv gaps s'
            | Raise e s' => Raise e s'
            end).
    rewrite E1. split; [exact E2|]. split; [eapply frame_trans; eassumption|].
    split; [rewrite T2, T1, <- app_assoc; reflexivity|]. split; [exact L2|].
    intros i [Hi|(g' & [<-|Hin] & Hi)].
    + apply A2. left. apply A1. left. exact Hi.
    + apply A2. left. apply A1. right. exact Hi.
    + apply A2. right. exists g'. auto.
Qed.

Variable chunk : Z.

Lemma mirrors_inv s : mirrors data chunk s -> stream_inv L chunk s.
Proof. intros H. apply H. Qed.

Lemma mirrors_download a b s :
  0 <= a -> a <= b -> b <= L - 1 ->
  mirrors data chunk s -> mirrors data chunk (state_of (_download srv a b s)).
Proof.
  intros Ha Hab Hb (Hbd & Hlen & Hag).
  pose proof (bounded_download srv L chunk a b s Ha Hab Hb Hbd) as Hbd'.
  pose proof Hbd as ((_ & _ & Hwf & _) & _ & _).
  destruct (honest_fetch_all (fst (reserve (tracker s) a b)) s)
    as (s1 & E1 & F1 & T1 & L1 & A1).
  { eapply Forall_impl; [|apply (reserve_yields_within _ a b Hwf Hab)].
    intros g (G1 & G2 & G3). unfold in_bounds. lia. }
  { exact Hlen. }
  destruct (download_spec srv a b s) as (k & _ & _ & _ & _ & Hres).
  pose proof (download_eq srv a b s) as Eq. fold srv in Eq. rewrite E1 in Eq.
  fold srv in Hres. rewrite Eq in Hres, Hbd' |- *.
  simpl is_ok in Hres. cbv iota in Hres. destruct Hres as [Ht _].
  split; [exact Hbd'|]. split; [exact L1|].
  intros x Hx. rewrite Ht in Hx.
  change (File.content (_file (state_of (Ok tt (restore_pos (cursor s)
            (set_tracker
               (merge_store (_left s1) (_right s1)
                  (bisect_left (_right s) a) (bisect_right (_left s) b)
                  (merge_bounds (_left s) (_right s) a b
                     (bisect_left (_right s) a) (bisect_right (_left s) b)))
               s1))))))
    with (File.content (_file s1)).
  apply A1.
  destruct (covered_dec (tracker s) x) as [Hc|Hn].
  - left. apply Hag. exact Hc.
  - right.
    destruct (proj2 (reserve_yields_exact (tracker s) a b x Hwf Hab) (conj Hx Hn))
      as (g & Hin & Hg).
    exists g. split; [exact Hin|].
    pose proof (reserve_yields_within _ a b Hwf Hab) as Hw.
    rewrite Forall_forall in Hw. specialize (Hw g Hin).
    unfold inside in Hg. rewrite Z2Nat.id by lia. exact Hg.
Qed.

Lemma mirrors_cursor pos s :
  mirrors data chunk s -> mirrors data chunk (restore_pos pos s).
Proof. intros H. exact H. Qed.

Lemma mirrors_zip s : mirrors data chunk s -> mirrors data chunk (log EvZipFile s).
Proof.
  intros (Hbd & Hlen & Hag). split; [apply bounded_zip; exact Hbd|].
  split; [exact Hlen | exact Hag].
Qed.

Lemma mirrors_negotiated : mirrors data chunk (negotiated chunk L).
Proof.
  split; [apply bounded_negotiated|]. split.
  - simpl. rewrite repeat_length. unfold L. lia.
  - intros x (l & r & [] & _).
Qed.

End Honest.

End MirrorFacts.

(** ** The first probe and the ways opening fails *)

Module OpenFacts.
Import Tracker TrackerFacts StreamFacts TrackerMore ClientFacts FetchFacts.

Lemma first_probe_bounds L chunk :
  1 <= chunk -> 2 <= L ->
  0 <= first_probe L chunk /\ first_probe L chunk <= L - 2 /\
  L - first_probe L chunk <= chunk + 1.
Proof.
  intros Hc HL. unfold first_probe.
  pose proof (Z.div_mod (L - 2) chunk ltac:(lia)) as E.
  pose proof (Z.mod_pos_bound (L - 2) chunk ltac:(lia)) as B.
  assert (0 <= (L - 2) / chunk) by (apply Z.div_pos; lia).
  nia.
Qed.

Lemma range_first L chunk :
  1 <= chunk -> 2 <= L ->
  exists r rest,
    py_range0 (L - 1) chunk = Some r /\
    rev r = first_probe L chunk :: rest /\
    Forall (fun st => 0 <= st <= L - 1) rest.
Proof.
  intros Hc HL.
  destruct (range_bounds L chunk Hc HL) as (r & Er & _ & Hr).
  exists r. revert Er Hr. unfold py_range0, range_len.
  destruct (Z.eqb_spec chunk 0); [lia|].
  destruct (Z.ltb_spec 0 chunk); [|lia].
  destruct (Z.ltb_spec 0 (L - 1)); [|lia].
  replace (L - 1 - 1) with (L - 2) by lia.
  assert (Hq : 0 <= (L - 2) / chunk) by (apply Z.div_pos; lia).
  assert (En : Z.to_nat ((L - 2) / chunk + 1) = S (Z.to_nat ((L - 2) / chunk))) by lia.
  rewrite En, seq_S, map_app. simpl. intros Er Hr.
  inversion Er; subst r. rewrite rev_app_distr. simpl.
  eexists. split; [reflexivity|]. split.
  - f_equal. unfold first_probe. rewrite Z2Nat.id by lia. lia.
  - apply Forall_rev. apply Forall_app in Hr. apply Hr.
Qed.

(** [_download] of a non-empty range with nothing recorded: one request,
    for the whole range. *)
Lemma download_first_trace srv a b s :
  tracker s = empty -> a <= b ->
  trace (state_of (_download srv a b s)) = trace s ++ [EvGet a b].
Proof.
  intros Ht Hab. rewrite download_eq, Ht, (reserve_empty a b Hab).
  simpl fst.
  change (fetch_all srv [(a, b)] s)
    with (match fetch srv (a, b) s with
          | Ok _ s' => Ok tt s'
          | Raise e s' => Raise e s'
          end).
  destruct (fetch_frame srv (a, b) s) as [_ T].
  destruct (fetch srv (a, b) s) as [[] s1|e s1]; simpl in *; exact T.
Qed.

Lemma download_first_refused srv a b s :
  tracker s = empty -> a <= b ->
  is_success (get_status (get srv a b)) = false ->
  _download srv a b s = Raise HTTPStatusError (log (EvGet a b) s).
Proof.
  intros Ht Hab Hs. rewrite download_eq, Ht, (reserve_empty a b Hab).
  simpl fst.
  change (fetch_all srv [(a, b)] s)
    with (match fetch srv (a, b) s with
          | Ok _ s' => Ok tt s'
          | Raise e s' => Raise e s'
          end).
  assert (E : fetch srv (a, b) s = Raise HTTPStatusError (log (EvGet a b) s)).
  { cbv beta iota delta
      [fetch bind _stream_response raise_for_status modify ret raise self fst snd].
    rewrite Hs. reflexivity. }
  rewrite E. f_equal.
  unfold restore_pos, cursor, set_file, log. simpl.
  rewrite file_eta. reflexivity.
Qed.

Lemma download_first_served srv a b s :
  tracker s = empty -> 0 <= a -> a <= b ->
  is_success (get_status (get srv a b)) = true ->
  exists s',
    _download srv a b s = Ok tt s' /\ tracker s' = ([a], [b]) /\
    trace s' = trace s ++ [EvGet a b] /\ cursor s' = cursor s /\
    _length s' = _length s /\ chunk_size s' = chunk_size s.
Proof.
  intros Ht Ha Hab Hs.
  destruct (download_served srv a b s) as (s' & E & T & Tr & C & Ln & Ch).
  { rewrite Ht, (reserve_empty a b Hab). repeat constructor; simpl; assumption. }
  rewrite Ht, (reserve_empty a b Hab) in T, Tr.
  exists s'. auto 10.
Qed.

(** What [_download] can raise. *)
Lemma fetch_raises srv g s e s' :
  fetch srv g s = Raise e s' -> e = HTTPStatusError \/ e = OSError.
Proof.
  cbv beta iota delta
    [fetch bind _stream_response raise_for_status modify ret raise self].
  destruct (is_success (get_status (get srv (fst g) (snd g))));
    [|intros E; inversion E; auto].
  unfold seek, File.seek. change (0 =? 0) with true. cbv iota.
  destruct (fst g <? 0); simpl.
  - intros E. inversion E. auto.
  - match goal with |- context [write_chunks ?cs ?s0] =>
      destruct (write_chunks_ok cs s0) as (s1 & E1 & _) end.
    rewrite E1. discriminate.
Qed.

Lemma fetch_all_raises srv gaps : forall s e s',
  fetch_all srv gaps s = Raise e s' -> e = HTTPStatusError \/ e = OSError.
Proof.
  induction gaps as [|g gaps IH]; intros s e s' E; [discriminate|].
  change (fetch_all srv (g :: gaps) s)
    with (match fetch srv g s with
          | Ok _ s1 => fetch_all srv gaps s1
          | Raise x s1 => Raise x s1
          end) in E.
  destruct (fetch srv g s) as [[] s1|x s1] eqn:Ef.
  - apply (IH _ _ _ E).
  - inversion E; subst. apply (fetch_raises _ _ _ _ _ Ef).
Qed.

Lemma run_reader_raises srv e p : forall s,
  always_raises e p -> exists s', run_reader srv p s = Raise e s'.
Proof.
  induction p as [o|size k IH|offset whence k IH|k IH]; intros s Hr; simpl in *.
  - subst o. eexists. reflexivity.
  - unfold bind. destruct (attempt_eq (read srv size) s) as [v E]. rewrite E.
    apply IH, Hr.
  - unfold bind. destruct (attempt_eq (seek offset whence) s) as [v E]. rewrite E.
    apply IH, Hr.
  - unfold bind, tell. apply IH, Hr.
Qed.

End OpenFacts.

(** ** An object the reader rejects *)

Module CorruptFacts.
Import Tracker TrackerFacts StreamFacts TrackerMore ClientFacts FetchFacts MirrorFacts.

Lemma range_head L chunk :
  1 <= chunk -> 2 <= L ->
  exists tl, py_range0 (L - 1) chunk = Some (0 :: tl).
Proof.
  intros Hc HL. unfold py_range0, range_len.
  destruct (Z.eqb_spec chunk 0); [lia|].
  destruct (Z.ltb_spec 0 chunk); [|lia].
  destruct (Z.ltb_spec 0 (L - 1)); [|lia].
  assert (Hq : 0 <= (L - 1 - 1) / chunk) by (apply Z.div_pos; lia).
  replace (Z.to_nat ((L - 1 - 1) / chunk + 1))
    with (S (Z.to_nat ((L - 1 - 1) / chunk))) by lia.
  cbn [seq map]. eexists. reflexivity.
Qed.

Lemma honest_announces data :
  announces (range_server data) (Z.of_nat (length data)).
Proof.
  split; [reflexivity|]. split; [reflexivity|].
  exists "bytes"%string. split; reflexivity.
Qed.

Lemma honest_serves data : always_serves (range_server data).
Proof. intros a b. reflexivity. Qed.

(** A reader that rejects whatever it is given rejects every object. *)
Lemma always_bad_corrupt data chunk p :
  always_bad p -> corrupt_for data chunk p.
Proof.
  intros Hbad s _. apply run_reader_bad. exact Hbad.
Qed.

Section Rejected.

Variable data : list Byte.byte.
Variable chunk : Z.
Variable p : zip_reader.

Hypothesis HL : 1 <= Z.of_nat (length data).
Hypothesis Hchunk : 1 <= chunk.

Lemma mirrors_run q s :
  mirrors data chunk s ->
  mirrors data chunk (state_of (run_reader (range_server data) q s)).
Proof.
  exact (P_run_reader (range_server data) (Z.of_nat (length data)) chunk
           HL Hchunk (mirrors data chunk)
           (mirrors_inv data chunk) (mirrors_download data chunk)
           (mirrors_cursor data chunk) q s).
Qed.

(** Once every offset is recorded, the mirror file is the object. *)
Lemma full_content s :
  mirrors data chunk s ->
  (forall x, 0 <= x < Z.of_nat (length data) -> covered (tracker s) x) ->
  File.content (_file s) = data.
Proof.
  intros (_ & Hlen & Hag) Hcov. apply nth_error_ext. intros i.
  destruct (Nat.lt_ge_cases i (length data)) as [Hi|Hi].
  - rewrite <- (Nat2Z.id i). apply Hag. apply Hcov. lia.
  - rewrite (proj2 (nth_error_None _ i)) by lia.
    rewrite (proj2 (nth_error_None data i)) by lia. reflexivity.
Qed.

(** ... and the stream sends no further request, whatever is read. *)
Lemma complete_download a b s :
  0 <= a -> a <= b -> b <= Z.of_nat (length data) - 1 -> complete data chunk s ->
  complete data chunk (state_of (_download (range_server data) a b s)) /\
  trace (state_of (_download (range_server data) a b s)) = trace s.
Proof.
  intros Ha Hab Hb [Hm Hcov].
  pose proof (mirrors_inv data chunk s Hm) as Hinv.
  pose proof Hinv as (_ & _ & Hwf & _).
  destruct (download_inv (range_server data) (Z.of_nat (length data)) chunk
              a b s ltac:(lia) Hinv) as (_ & [Hext _] & _).
  assert (Hnil : fst (reserve (tracker s) a b) = []).
  { apply reserve_nil_iff; [exact Hwf | exact Hab |].
    intros x Hx. apply Hcov. lia. }
  destruct (download_spec (range_server data) a b s) as (k & _ & _ & _ & Htr & _).
  rewrite Hnil, firstn_nil, app_nil_r in Htr.
  split; [split|exact Htr].
  - apply mirrors_download; assumption.
  - intros x Hx. apply Hext, Hcov, Hx.
Qed.

Lemma complete_read size s :
  complete data chunk s ->
  complete data chunk (state_of (read (range_server data) size s)) /\
  trace (state_of (read (range_server data) size s)) = trace s.
Proof.
  intros Hc. rewrite read_eq.
  destruct (read_window_bounds (Z.of_nat (length data)) chunk HL Hchunk size s
              (mirrors_inv data chunk s (proj1 Hc))) as (W1 & W2 & W3).
  destruct (complete_download _ _ s W1 W2 W3 Hc) as [Hc1 Ht1].
  destruct (_download (range_server data) _ _ s) as [[] s1|e s1]; simpl in *; [|auto].
  destruct (file_read_cases size s1) as [[e E]|[pos [E _]]]; rewrite E; simpl; auto.
Qed.

Lemma complete_seek offset whence s :
  complete data chunk s ->
  complete data chunk (state_of (seek offset whence s)) /\
  trace (state_of (seek offset whence s)) = trace s.
Proof.
  intros Hc.
  destruct (seek_cases offset whence s) as [[e E]|[pos E]]; rewrite E; simpl; auto.
Qed.

Lemma complete_run q : forall s,
  complete data chunk s ->
  trace (state_of (run_reader (range_server data) q s)) = trace s.
Proof.
  induction q as [o|size k IH|offset whence k IH|k IH]; intros s Hc; simpl.
  - destruct o; reflexivity.
  - unfold bind.
    destruct (attempt_eq (read (range_server data) size) s) as [v E]. rewrite E.
    destruct (complete_read size s Hc) as [Hc1 Ht1].
    rewrite (IH v _ Hc1). exact Ht1.
  - unfold bind. destruct (attempt_eq (seek offset whence) s) as [v E]. rewrite E.
    destruct (complete_seek offset whence s Hc) as [Hc1 Ht1].
    rewrite (IH v _ Hc1). exact Ht1.
  - unfold bind, tell. apply IH. exact Hc.
Qed.

Hypothesis Hbad : corrupt_for data chunk p.

(** One step of the probe on a rejected object: the range is fetched, the
    reader raises [BadZipFile], and the guarded attempt swallows it. *)
Lemma attempt_rejected st s :
  0 <= st <= Z.of_nat (length data) - 1 -> mirrors data chunk s ->
  exists s1 s2,
    _download (range_server data) st (Z.of_nat (length data) - 1) s = Ok tt s1 /\
    mirrors data chunk s1 /\
    (forall x, st <= x <= Z.of_nat (length data) - 1 -> covered (tracker s1) x) /\
    parses (trace s1) = parses (trace s) /\
    ZipFile (range_server data) p s1 = Raise BadZipFile s2 /\
    parse_attempt (range_server data) p s1 = Ok false (restore_pos (cursor s1) s2) /\
    mirrors data chunk (restore_pos (cursor s1) s2) /\
    parses (trace s2) = S (parses (trace s1)).
Proof.
  intros Hst Hm.
  destruct (download_serves (range_server data) (Z.of_nat (length data)) chunk
              st (Z.of_nat (length data) - 1) s (honest_serves data)
              ltac:(lia) (mirrors_inv data chunk s Hm))
    as (s1 & E1 & _ & [_ Hp1] & Hcov1).
  pose proof (mirrors_download data chunk st (Z.of_nat (length data) - 1) s
                ltac:(lia) ltac:(lia) ltac:(lia) Hm) as Hm1.
  rewrite E1 in Hm1. simpl state_of in Hm1.
  pose proof (mirrors_zip data chunk s1 Hm1) as Hmz.
  destruct (Hbad (log EvZipFile s1) Hmz) as (s2 & E2).
  pose proof (mirrors_run p _ Hmz) as Hm2.
  destruct (run_reader_inv (range_server data) (Z.of_nat (length data)) chunk HL Hchunk p _
              (mirrors_inv data chunk _ Hmz)) as [_ [_ Hp2]].
  rewrite E2 in Hm2, Hp2. simpl state_of in Hm2, Hp2.
  exists s1, s2. split; [exact E1|]. split; [exact Hm1|].
  split; [exact Hcov1|]. split; [exact Hp1|].
  split; [rewrite ZipFile_eq; exact E2|].
  split; [rewrite parse_attempt_eq, E2; reflexivity|].
  split; [apply mirrors_cursor; exact Hm2|].
  rewrite Hp2. apply parses_log_zip.
Qed.

(** The probe over the starts [front ++ [z]]: every attempt fails, and
    the last one is made after [z .. L-1] has been fetched. *)
Lemma probe_rejected z : forall front s,
  0 <= z <= Z.of_nat (length data) - 1 ->
  Forall (fun st => 0 <= st <= Z.of_nat (length data) - 1) front ->
  mirrors data chunk s ->
  exists s0 s1 s2,
    _download (range_server data) z (Z.of_nat (length data) - 1) s0 = Ok tt s1 /\
    mirrors data chunk s1 /\
    (forall x, covered (tracker s) x -> covered (tracker s1) x) /\
    (forall x, z <= x <= Z.of_nat (length data) - 1 -> covered (tracker s1) x) /\
    ZipFile (range_server data) p s1 = Raise BadZipFile s2 /\
    probe (range_server data) p (Z.of_nat (length data) - 1) (front ++ [z]) s
    = Ok tt (restore_pos (cursor s1) s2) /\
    mirrors data chunk (restore_pos (cursor s1) s2) /\
    parses (trace s2) = (parses (trace s) + length front + 1)%nat.
Proof.
  induction front as [|st rest IH]; intros s Hz Hfront Hm.
  - destruct (attempt_rejected z s Hz Hm)
      as (s1 & s2 & E1 & Hm1 & Hcov & Hp1 & Ez & Ea & Hm2 & Hp2).
    exists s, s1, s2. split; [exact E1|]. split; [exact Hm1|].
    split.
    { intros x Hx.
      destruct (download_inv (range_server data) (Z.of_nat (length data)) chunk
                  z (Z.of_nat (length data) - 1) s ltac:(lia)
                  (mirrors_inv data chunk s Hm)) as (_ & [Hext _] & _).
      rewrite E1 in Hext. apply Hext, Hx. }
    split; [exact Hcov|]. split; [exact Ez|].
    split; [|split; [exact Hm2 | rewrite Hp2, Hp1; simpl; lia]].
    change ([] ++ [z]) with [z]. rewrite probe_cons, E1, Ea. reflexivity.
  - inversion Hfront as [|? ? Hst Hrest]; subst.
    destruct (attempt_rejected st s Hst Hm)
      as (s1 & s2 & E1 & Hm1 & Hcov & Hp1 & Ez & Ea & Hm2 & Hp2).
    destruct (IH (restore_pos (cursor s1) s2) Hz Hrest Hm2)
      as (t0 & t1 & t2 & F1 & Hn1 & Hmono & Hcovz & Fz & Fp & Hn2 & Hq).
    exists t0, t1, t2. split; [exact F1|]. split; [exact Hn1|].
    split.
    { intros x Hx. apply Hmono.
      change (tracker (restore_pos (cursor s1) s2)) with (tracker s2).
      destruct (run_reader_inv (range_server data) (Z.of_nat (length data)) chunk
                  HL Hchunk p (log EvZipFile s1)
                  (mirrors_inv data chunk _ (mirrors_zip data chunk s1 Hm1)))
        as [_ [Hext2 _]].
      rewrite ZipFile_eq in Ez. rewrite Ez in Hext2. simpl state_of in Hext2.
      apply Hext2.
      destruct (download_inv (range_server data) (Z.of_nat (length data)) chunk
                  st (Z.of_nat (length data) - 1) s ltac:(lia)
                  (mirrors_inv data chunk s Hm)) as (_ & [Hext _] & _).
      rewrite E1 in Hext. apply Hext, Hx. }
    split; [exact Hcovz|]. split; [exact Fz|].
    split; [|split; [exact Hn2|]].
    + change ((st :: rest) ++ [z]) with (st :: (rest ++ [z])).
      rewrite probe_cons, E1, Ea. exact Fp.
    + rewrite Hq.
      change (trace (restore_pos (cursor s1) s2)) with (trace s2).
      rewrite Hp2, Hp1. simpl. lia.
Qed.

End Rejected.

End CorruptFacts.

(** ** Statements *)

Import TrackerMore ClientFacts FetchFacts MirrorFacts OpenFacts CorruptFacts.

(** X1: on a well-formed tracker, the ranges [_merge] yields for a
    request [(a, b)], [a <= b], contain exactly the offsets of [a..b]
    that no recorded interval contains: nothing mirrored is fetched
    again, nothing missing is left out. *)
Theorem yields_are_the_missing_bytes (t : list Z * list Z) (a b x : Z) :
  wf t -> a <= b ->
  ((exists g, In g (fst (reserve t a b)) /\ inside g x) <->
   a <= x <= b /\ ~ covered t x).
Proof.
  intros Hwf Hab.
  rewrite (reserve_yields_exact t a b x Hwf Hab).
  rewrite (reserve_covered t a b x Hwf Hab). tauto.
Qed.

Lemma yields_are_the_missing_bytes_witness :
  (exists g, In g (fst (reserve ([0; 20], [9; 29]) 5 24)) /\ inside g 12) <->
  5 <= 12 <= 24 /\ ~ covered ([0; 20], [9; 29]) 12.
Proof.
  apply (yields_are_the_missing_bytes ([0; 20], [9; 29]) 5 24 12).
  - split; [reflexivity|]. repeat constructor; simpl; lia.
  - lia.
Defined.

(** X2: on a well-formed tracker the yielded ranges come in ascending
    order, each one non-empty and ending strictly before the next one
    starts, and all of them inside the requested range. *)
Theorem yields_ascending_disjoint (t : list Z * list Z) (a b : Z) :
  wf t -> a <= b ->
  chain (fst (reserve t a b)) /\
  Forall (fun g => a <= fst g /\ fst g <= snd g /\ snd g <= b) (fst (reserve t a b)).
Proof.
  intros Hwf Hab. split.
  - apply reserve_yields_chain; assumption.
  - apply reserve_yields_within; assumption.
Qed.

Lemma yields_ascending_disjoint_witness :
  chain (fst (reserve ([0; 20; 40], [9; 29; 49]) 5 44)) /\
  Forall (fun g => 5 <= fst g /\ fst g <= snd g /\ snd g <= 44)
    (fst (reserve ([0; 20; 40], [9; 29; 49]) 5 44)).
Proof.
  apply (yields_ascending_disjoint ([0; 20; 40], [9; 29; 49]) 5 44).
  - split; [reflexivity|]. repeat constructor; simpl; lia.
  - lia.
Defined.

(** X3: a request yields no range exactly when every offset of it is
    already recorded; [_download] of such a request returns without any
    ranged fetch, leaves the mirror file and the cursor as they were, and
    records no new offset. *)
Theorem covered_request_is_free
  (srv : session) (s : LazyZipOverHTTP) (a b : Z) :
  wf (tracker s) -> a <= b ->
  (fst (reserve (tracker s) a b) = []
   <-> forall x, a <= x <= b -> covered (tracker s) x) /\
  ((forall x, a <= x <= b -> covered (tracker s) x) ->
   exists s',
     _download srv a b s = Ok tt s' /\
     trace s' = trace s /\ _file s' = _file s /\
     forall x, covered (tracker s') x <-> covered (tracker s) x).
Proof.
  intros Hwf Hab. split; [apply reserve_nil_iff; assumption|].
  intros Hcov.
  pose proof (proj2 (reserve_nil_iff (tracker s) a b Hwf Hab) Hcov) as Hnil.
  pose proof (download_eq srv a b s) as Eq. rewrite Hnil in Eq. simpl in Eq.
  eexists. split; [exact Eq|]. split; [reflexivity|]. split.
  - unfold restore_pos, cursor, set_file. simpl. apply file_eta.
  - intros x.
    destruct (download_returned srv a b s _ Eq) as [T _]. rewrite T.
    rewrite (reserve_covered (tracker s) a b x Hwf Hab).
    split; [intros [H|H]; [exact H | apply Hcov; exact H] | auto].
Qed.

Lemma covered_request_is_free_witness :
  exists s',
    _download (refusing_server 30) 12 17
      (set_tracker ([10], [19]) (negotiated 10 30)) = Ok tt s' /\
    trace s' = trace (set_tracker ([10], [19]) (negotiated 10 30)) /\
    _file s' = _file (set_tracker ([10], [19]) (negotiated 10 30)) /\
    forall x, covered (tracker s') x
              <-> covered (tracker (set_tracker ([10], [19]) (negotiated 10 30))) x.
Proof.
  apply (proj2 (covered_request_is_free (refusing_server 30)
                  (set_tracker ([10], [19]) (negotiated 10 30)) 12 17
                  (conj eq_refl
                     (chain_cons (10, 19) [] ltac:(simpl; lia)
                        (Forall_nil _) chain_nil))
                  ltac:(lia))).
  intros x Hx. exists 10, 19. split; [left; reflexivity | lia].
Defined.

(** X4: when [_download] raises, it raises the status error of a refused
    request or the error of a seek to a negative offset; the two interval
    lists are exactly as before the call, so nothing is recorded for a
    range that was not completely fetched, and the cursor is back where it
    was.  The requests sent are an initial part of the yielded ranges. *)
Theorem failed_download_records_nothing
  (srv : session) (s s' : LazyZipOverHTTP) (a b : Z) (e : exn) :
  _download srv a b s = Raise e s' ->
  tracker s' = tracker s /\ cursor s' = cursor s /\
  (e = HTTPStatusError \/ e = OSError) /\
  exists k, fetches (trace s')
            = fetches (trace s) ++ firstn k (fst (reserve (tracker s) a b)).
Proof.
  intros E.
  destruct (download_spec srv a b s) as (k & Hcur & _ & _ & Htr & Hres).
  pose proof (download_eq srv a b s) as Eq.
  rewrite E in Hcur, Htr, Hres, Eq.
  cbn [state_of is_ok] in Hcur, Htr, Hres.
  split; [exact Hres|]. split; [exact Hcur|]. split.
  - destruct (fetch_all srv (fst (reserve (tracker s) a b)) s) as [[] s1|x s1] eqn:Ef;
      [discriminate|].
    inversion Eq; subst. apply (fetch_all_raises _ _ _ _ _ Ef).
  - exists k. rewrite Htr, fetches_app, fetches_gets. reflexivity.
Qed.

Lemma failed_download_records_nothing_witness :
  tracker (log (EvGet 20 29) (negotiated 10 30)) = tracker (negotiated 10 30) /\
  cursor (log (EvGet 20 29) (negotiated 10 30)) = cursor (negotiated 10 30) /\
  (HTTPStatusError = HTTPStatusError \/ HTTPStatusError = OSError) /\
  exists k, fetches (trace (log (EvGet 20 29) (negotiated 10 30)))
            = fetches (trace (negotiated 10 30))
              ++ firstn k (fst (reserve (tracker (negotiated 10 30)) 20 29)).
Proof.
  apply (failed_download_records_nothing (refusing_server 30)
           (negotiated 10 30) (log (EvGet 20 29) (negotiated 10 30)) 20 29
           HTTPStatusError).
  reflexivity.
Defined.

(** X5: for every chunk size of at least 1, a served fetch of the range
    [g] (start not negative) writes the whole response body into the mirror
    at offset [fst g], the same bytes whatever the size of the pieces in
    which the body is consumed, and logs exactly one request. *)
Theorem fetch_writes_whole_body
  (srv : session) (g : Z * Z) (s : LazyZipOverHTTP) :
  1 <= chunk_size s ->
  is_success (get_status (get srv (fst g) (snd g))) = true ->
  0 <= fst g ->
  fetch srv g s =
  Ok tt (set_file
           (File.write (File.mk (File.content (_file s)) (Z.to_nat (fst g)))
              (body (get srv (fst g) (snd g))))
           (log (ev_get g) s)).
Proof.
  intros Hc Hs Hg.
  cbv beta iota delta
    [fetch bind _stream_response raise_for_status modify ret raise self].
  rewrite Hs. cbv iota beta. unfold seek, File.seek.
  change (0 =? 0) with true. cbv iota.
  destruct (Z.ltb_spec (fst g) 0); [lia|].
  rewrite write_chunks_concat, response_chunks_concat. reflexivity.
Qed.

Lemma fetch_writes_whole_body_witness :
  fetch (range_server (repeat Byte.xff 30)) (20, 29) (negotiated 3 30) =
  Ok tt (set_file
           (File.write (File.mk (File.content (_file (negotiated 3 30)))
                          (Z.to_nat 20))
              (body (get (range_server (repeat Byte.xff 30)) 20 29)))
           (log (ev_get (20, 29)) (negotiated 3 30))).
Proof.
  apply (fetch_writes_whole_body (range_server (repeat Byte.xff 30)) (20, 29)
           (negotiated 3 30)).
  - simpl. lia.
  - reflexivity.
  - simpl. lia.
Defined.

(** X6: whatever the server answers and whatever the archive reader does,
    every ranged request sent while opening an object of length [L >= 1]
    (chunk size at least 1), and by any later [read], is a non-empty range
    inside [0 .. L-1], and every recorded interval ends at [L-1] at the
    latest. *)
Theorem fetches_stay_inside_object
  (srv : session) (L chunk : Z) (p : zip_reader) :
  1 <= L -> 1 <= chunk -> announces srv L ->
  bounded L chunk (state_of (open srv chunk p)) /\
  forall s size, bounded L chunk s -> bounded L chunk (state_of (read srv size s)).
Proof.
  intros HL Hc Han. split.
  - exact (P_open srv L chunk HL Hc (bounded L chunk)
             (bounded_inv L chunk) (bounded_download srv L chunk)
             (bounded_cursor L chunk) (bounded_zip L chunk)
             p Han (bounded_negotiated L chunk)).
  - intros s size.
    exact (P_read srv L chunk HL Hc (bounded L chunk)
             (bounded_inv L chunk) (bounded_download srv L chunk)
             (bounded_cursor L chunk) size s).
Qed.

Lemma fetches_stay_inside_object_witness :
  bounded 25 10 (state_of (open (refusing_server 25) 10 tail_reader)) /\
  bounded 25 10
    (state_of (read (refusing_server 25) 4
                 (state_of (open (refusing_server 25) 10 tail_reader)))).
Proof.
  destruct (fetches_stay_inside_object (refusing_server 25) 25 10 tail_reader)
    as [H1 H2].
  - lia.
  - lia.
  - split; [reflexivity|]. split; [reflexivity|].
    exists "bytes"%string. split; reflexivity.
  - split; [exact H1 | apply H2; exact H1].
Defined.

(** X7: with a server that serves every ranged request, no offset is ever
    fetched twice: the ranges requested while opening, and by any later
    [read], are pairwise disjoint, and the offsets they contain are exactly
    the offsets of the recorded intervals. *)
Theorem no_byte_fetched_twice
  (srv : session) (L chunk : Z) (p : zip_reader) :
  1 <= L -> 1 <= chunk -> announces srv L -> always_serves srv ->
  frugal L chunk (state_of (open srv chunk p)) /\
  forall s size, frugal L chunk s -> frugal L chunk (state_of (read srv size s)).
Proof.
  intros HL Hc Han Hsrv. split.
  - exact (P_open srv L chunk HL Hc (frugal L chunk)
             (frugal_inv L chunk) (frugal_download srv L chunk Hsrv)
             (frugal_cursor L chunk) (frugal_zip L chunk)
             p Han (frugal_negotiated L chunk)).
  - intros s size.
    exact (P_read srv L chunk HL Hc (frugal L chunk)
             (frugal_inv L chunk) (frugal_download srv L chunk Hsrv)
             (frugal_cursor L chunk) size s).
Qed.

Lemma no_byte_fetched_twice_witness :
  frugal 25 10 (state_of (open (range_server (repeat Byte.x01 25)) 10 tail_reader)) /\
  frugal 25 10
    (state_of (read (range_server (repeat Byte.x01 25)) 4
                 (state_of (open (range_server (repeat Byte.x01 25)) 10 tail_reader)))).
Proof.
  destruct (no_byte_fetched_twice (range_server (repeat Byte.x01 25)) 25 10 tail_reader)
    as [H1 H2].
  - lia.
  - lia.
  - split; [reflexivity|]. split; [reflexivity|].
    exists "bytes"%string. split; reflexivity.
  - intros a b. reflexivity.
  - split; [exact H1 | apply H2; exact H1].
Defined.

(** X8: behind a server that honours range requests against the object
    [data] (not empty, chunk size at least 1), whatever the archive reader
    does while the stream is opened, the mirror keeps the size of the
    object and holds the object's byte at every offset of a recorded
    interval; every later [read] keeps it so. *)
Theorem opened_mirror_holds_object
  (data : list Byte.byte) (chunk : Z) (p : zip_reader) :
  data <> [] -> 1 <= chunk ->
  mirrors data chunk (state_of (open (range_server data) chunk p)) /\
  forall s size,
    mirrors data chunk s ->
    mirrors data chunk (state_of (read (range_server data) size s)).
Proof.
  intros Hd Hc.
  assert (HL : 1 <= Z.of_nat (length data)).
  { destruct data; [contradiction | simpl length; lia]. }
  assert (Han : announces (range_server data) (Z.of_nat (length data))).
  { split; [reflexivity|]. split; [reflexivity|].
    exists "bytes"%string. split; reflexivity. }
  split.
  - exact (P_open (range_server data) (Z.of_nat (length data)) chunk HL Hc
             (mirrors data chunk)
             (mirrors_inv data chunk) (mirrors_download data chunk)
             (mirrors_cursor data chunk) (mirrors_zip data chunk)
             p Han (mirrors_negotiated data chunk)).
  - intros s size.
    exact (P_read (range_server data) (Z.of_nat (length data)) chunk HL Hc
             (mirrors data chunk)
             (mirrors_inv data chunk) (mirrors_download data chunk)
             (mirrors_cursor data chunk) size s).
Qed.

Lemma opened_mirror_holds_object_witness :
  mirrors (repeat Byte.x01 21 ++ sig_bytes) 10
    (state_of (open (range_server (repeat Byte.x01 21 ++ sig_bytes)) 10 tail_reader)) /\
  mirrors (repeat Byte.x01 21 ++ sig_bytes) 10
    (state_of (read (range_server (repeat Byte.x01 21 ++ sig_bytes)) 4
                 (state_of (open (range_server (repeat Byte.x01 21 ++ sig_bytes))
                              10 tail_reader)))).
Proof.
  destruct (opened_mirror_holds_object (repeat Byte.x01 21 ++ sig_bytes) 10 tail_reader)
    as [H1 H2].
  - discriminate.
  - lia.
  - split; [exact H1 | apply H2; exact H1].
Defined.

(** *** Reading from a faithful mirror *)

Lemma file_read_ok size s :
  -1 <= size ->
  file_read size s
  = Ok (py_slice_from (File.content (_file s)) (cursor s) size)
       (restore_pos
          (cursor s + length (py_slice_from (File.content (_file s)) (cursor s) size))
          s).
Proof.
  intros Hs. unfold file_read, File.read, py_slice_from, cursor.
  destruct (Z.ltb_spec size (-1)); [lia | reflexivity].
Qed.

Lemma slice_agree (c d : list Byte.byte) (pos : nat) (size : Z) :
  length c = length d ->
  (forall i, (pos <= i < length d)%nat ->
             size < 0 \/ (i < pos + Z.to_nat size)%nat ->
             nth_error c i = nth_error d i) ->
  py_slice_from c pos size = py_slice_from d pos size.
Proof.
  intros Hlen Hag. unfold py_slice_from.
  destruct (Z.ltb_spec size 0) as [Hneg|Hpos]; apply nth_error_ext; intros i.
  - rewrite !nth_error_skipn.
    destruct (Nat.lt_ge_cases (pos + i) (length d)) as [Hi|Hi].
    + apply Hag; [lia | left; exact Hneg].
    + rewrite (proj2 (nth_error_None c (pos + i))) by lia.
      rewrite (proj2 (nth_error_None d (pos + i))) by lia. reflexivity.
  - rewrite !nth_error_firstn.
    destruct (Nat.ltb_spec i (Z.to_nat size)) as [Hn|Hn]; [|reflexivity].
    rewrite !nth_error_skipn.
    destruct (Nat.lt_ge_cases (pos + i) (length d)) as [Hi|Hi].
    + apply Hag; [lia | right; lia].
    + rewrite (proj2 (nth_error_None c (pos + i))) by lia.
      rewrite (proj2 (nth_error_None d (pos + i))) by lia. reflexivity.
Qed.

Lemma read_honest_download
  (data : list Byte.byte) (chunk size : Z) (s : LazyZipOverHTTP) :
  data <> [] -> 1 <= chunk ->
  mirrors data chunk s ->
  0 <= size \/
  (size = -1 /\ Z.of_nat (length data) - chunk <= Z.of_nat (cursor s)) ->
  exists s1,
    _download (range_server data)
      (fst (read_window size s)) (snd (read_window size s)) s = Ok tt s1 /\
    mirrors data chunk s1 /\ cursor s1 = cursor s /\
    py_slice_from (File.content (_file s1)) (cursor s) size
    = py_slice_from data (cursor s) size.
Proof.
  intros Hd Hc Hm Hsz.
  assert (HL : 1 <= Z.of_nat (length data)).
  { destruct data; [contradiction | simpl length; lia]. }
  pose proof (mirrors_inv data chunk s Hm) as Hinv.
  pose proof Hinv as (IL & Ic & _).
  assert (Hw : 0 <= fst (read_window size s) /\
               fst (read_window size s) <= snd (read_window size s) /\
               snd (read_window size s) <= Z.of_nat (length data) - 1).
  { unfold read_window. rewrite IL, Ic. simpl.
    destruct (Z.ltb_spec size 0); lia. }
  destruct Hw as (W1 & W2 & W3).
  destruct (download_serves (range_server data) (Z.of_nat (length data)) chunk
              (fst (read_window size s)) (snd (read_window size s)) s)
    as (s1 & E1 & _ & _ & Hcov); [intros a b; reflexivity | lia | exact Hinv |].
  pose proof (mirrors_download data chunk _ _ s W1 W2 W3 Hm) as Hm1.
  pose proof (download_cursor (range_server data)
                (fst (read_window size s)) (snd (read_window size s)) s) as Hcur.
  rewrite E1 in Hm1, Hcur. simpl state_of in Hm1, Hcur.
  exists s1. split; [exact E1|]. split; [exact Hm1|]. split; [exact Hcur|].
  destruct Hm1 as (_ & Hlen1 & Hag1).
  apply slice_agree; [exact Hlen1|].
  intros i Hi Hin.
  rewrite <- (Nat2Z.id i). apply Hag1. apply Hcov.
  unfold read_window. rewrite IL, Ic. simpl.
  destruct (Z.ltb_spec size 0); lia.
Qed.

(** X9: over a faithful mirror of the object [data] (not empty, chunk size
    at least 1, a server that honours range requests), [read(size)] with
    [size >= 0] returns exactly [data[pos : pos + size]] for the cursor
    [pos]: the object's own bytes, fewer than [size] only at the end of the
    object; it advances the cursor by the number of bytes returned and
    leaves the mirror faithful.  The same holds for [read()] (size -1)
    when the cursor is at most one chunk before the end. *)
Theorem read_returns_object_bytes
  (data : list Byte.byte) (chunk size : Z) (s : LazyZipOverHTTP) :
  data <> [] -> 1 <= chunk ->
  mirrors data chunk s ->
  0 <= size \/
  (size = -1 /\ Z.of_nat (length data) - chunk <= Z.of_nat (cursor s)) ->
  exists s',
    read (range_server data) size s
    = Ok (py_slice_from data (cursor s) size) s' /\
    cursor s' = (cursor s + length (py_slice_from data (cursor s) size))%nat /\
    mirrors data chunk s'.
Proof.
  intros Hd Hc Hm Hsz.
  destruct (read_honest_download data chunk size s Hd Hc Hm Hsz)
    as (s1 & E1 & Hm1 & Hcur & Esl).
  rewrite read_eq, E1, (file_read_ok size s1) by lia.
  rewrite Hcur, Esl.
  eexists. split; [reflexivity|]. split; [reflexivity|].
  apply mirrors_cursor. exact Hm1.
Qed.

Lemma read_returns_object_bytes_witness :
  exists s',
    read (range_server (repeat Byte.x01 21 ++ sig_bytes)) 4
      (restore_pos 19 (negotiated 10 25))
    = Ok (py_slice_from (repeat Byte.x01 21 ++ sig_bytes)
            (cursor (restore_pos 19 (negotiated 10 25))) 4) s' /\
    cursor s'
    = (cursor (restore_pos 19 (negotiated 10 25))
       + length (py_slice_from (repeat Byte.x01 21 ++ sig_bytes)
                   (cursor (restore_pos 19 (negotiated 10 25))) 4))%nat /\
    mirrors (repeat Byte.x01 21 ++ sig_bytes) 10 s'.
Proof.
  apply (read_returns_object_bytes (repeat Byte.x01 21 ++ sig_bytes) 10 4
           (restore_pos 19 (negotiated 10 25))).
  - discriminate.
  - lia.
  - apply mirrors_cursor.
    apply (mirrors_negotiated (repeat Byte.x01 21 ++ sig_bytes) 10).
  - left. lia.
Defined.

(** X10: random access.  Over a faithful mirror of [data], seeking to the
    absolute offset [pos] and then reading [size >= 0] bytes returns
    [data[pos : pos + size]], wherever the cursor was before and whatever
    was mirrored before. *)
Theorem seek_then_read
  (data : list Byte.byte) (chunk size : Z) (pos : nat) (s : LazyZipOverHTTP) :
  data <> [] -> 1 <= chunk -> 0 <= size ->
  mirrors data chunk s ->
  exists s',
    bind (seek (Z.of_nat pos) 0) (fun _ => read (range_server data) size) s
    = Ok (py_slice_from data pos size) s' /\
    mirrors data chunk s'.
Proof.
  intros Hd Hc Hsz Hm. unfold bind. rewrite seek_abs.
  destruct (read_honest_download data chunk size (restore_pos pos s) Hd Hc
              (mirrors_cursor data chunk pos s Hm) (or_introl Hsz))
    as (s1 & E1 & Hm1 & Hcur & Esl).
  rewrite read_eq, E1, (file_read_ok size s1) by lia.
  rewrite Hcur, Esl.
  eexists. split; [reflexivity|].
  apply mirrors_cursor. exact Hm1.
Qed.

Lemma seek_then_read_witness :
  exists s',
    bind (seek (Z.of_nat 21) 0)
      (fun _ => read (range_server (repeat Byte.x01 21 ++ sig_bytes)) 4)
      (negotiated 10 25)
    = Ok (py_slice_from (repeat Byte.x01 21 ++ sig_bytes) 21 4) s' /\
    mirrors (repeat Byte.x01 21 ++ sig_bytes) 10 s'.
Proof.
  apply (seek_then_read (repeat Byte.x01 21 ++ sig_bytes) 10 4 21 (negotiated 10 25)).
  - discriminate.
  - lia.
  - lia.
  - apply (mirrors_negotiated (repeat Byte.x01 21 ++ sig_bytes) 10).
Defined.

(** *** Negotiation and probing *)

(** X11: when the HEAD response has a status other than 200, opening
    raises before anything else happens: the status error when the status
    is not a success, the failed assertion when it is another 2xx.  The
    object is as created (length 0, empty mirror, nothing recorded) and
    only the HEAD request has been sent. *)
Theorem bad_head_status_fails_early
  (srv : session) (chunk : Z) (p : zip_reader) :
  head_status (head srv) <> 200 ->
  open srv chunk p
  = Raise (if is_success (head_status (head srv))
           then AssertionError else HTTPStatusError)
          (log EvHead (__post_init__ chunk)).
Proof.
  intros Hs. unfold open, __aenter__.
  cbv beta iota delta [bind modify raise_for_status ret raise self truncate].
  destruct (is_success (head_status (head srv))); [|reflexivity].
  destruct (Z.eqb_spec (head_status (head srv)) 200); [contradiction | reflexivity].
Qed.

Lemma bad_head_status_fails_early_witness :
  open (bare_server 404) 10 tail_reader
  = Raise (if is_success (head_status (head (bare_server 404)))
           then AssertionError else HTTPStatusError)
          (log EvHead (__post_init__ 10)).
Proof.
  apply (bad_head_status_fails_early (bare_server 404) 10 tail_reader).
  simpl. discriminate.
Defined.

(** X12: when the HEAD response is a 200 whose [Content-Length] cannot
    be used, opening raises before the length is recorded, the mirror sized
    or any ranged request sent, even when the server announces byte ranges:
    [KeyError], from the lookup, when the header is missing, and
    [ValueError], from [int], when the header is there but is not an
    integer. *)
Theorem unusable_length_fails_early
  (srv : session) (chunk : Z) (p : zip_reader) :
  head_status (head srv) = 200 ->
  (length_header (head srv) = Missing ->
   open srv chunk p = Raise KeyError (log EvHead (__post_init__ chunk))) /\
  (length_header (head srv) = NotAnInteger ->
   open srv chunk p = Raise ValueError (log EvHead (__post_init__ chunk))).
Proof.
  intros Hs.
  split; intros Hl; unfold open, __aenter__;
    cbv beta iota delta [bind modify raise_for_status ret raise self truncate];
    rewrite Hs, Hl; reflexivity.
Qed.

Lemma unusable_length_fails_early_witness :
  open (bare_server 200) 10 tail_reader
  = Raise KeyError (log EvHead (__post_init__ 10)) /\
  open garbled_server 10 tail_reader
  = Raise ValueError (log EvHead (__post_init__ 10)).
Proof.
  split.
  - apply (proj1 (unusable_length_fails_early (bare_server 200) 10 tail_reader
                    eq_refl)).
    reflexivity.
  - apply (proj2 (unusable_length_fails_early garbled_server 10 tail_reader
                    eq_refl)).
    reflexivity.
Defined.

Lemma first_fetch_download srv g L chunk a b s :
  0 <= a -> a <= b -> b <= L - 1 ->
  first_fetch_is g L chunk s ->
  first_fetch_is g L chunk (state_of (_download srv a b s)).
Proof.
  intros Ha Hab Hb [Hinv (rest & Hf)].
  destruct (download_inv srv L chunk a b s ltac:(lia) Hinv) as (Hinv' & _ & _).
  destruct (download_spec srv a b s) as (k & _ & _ & _ & Htr & _).
  split; [exact Hinv'|].
  rewrite Htr, fetches_app, Hf. eexists. reflexivity.
Qed.

Lemma first_fetch_zip g L chunk s :
  first_fetch_is g L chunk s -> first_fetch_is g L chunk (log EvZipFile s).
Proof.
  intros [Hinv (rest & Hf)]. split; [exact Hinv|].
  rewrite fetches_log_zip. exists rest. exact Hf.
Qed.

Lemma range_length L chunk r :
  1 <= chunk -> 2 <= L ->
  py_range0 (L - 1) chunk = Some r ->
  length r = Z.to_nat ((L - 2) / chunk + 1).
Proof.
  intros Hc HL. unfold py_range0, range_len.
  destruct (Z.eqb_spec chunk 0); [lia|].
  destruct (Z.ltb_spec 0 chunk); [|lia].
  destruct (Z.ltb_spec 0 (L - 1)); [|lia].
  intros E. inversion E. rewrite length_map, length_seq.
  replace (L - 1 - 1) with (L - 2) by lia. reflexivity.
Qed.

(** X13: for an object of length [L >= 2] (chunk size at least 1, byte
    ranges announced), whatever the server answers and whatever the reader
    does, the first ranged request of [open] is for the range from the
    largest multiple of the chunk size below [L - 1] to [L - 1]: between 2
    and [chunk + 1] bytes, not the last [chunk] bytes. *)
Theorem first_probe_range
  (srv : session) (L chunk : Z) (p : zip_reader) :
  1 <= chunk -> 2 <= L -> announces srv L ->
  (exists rest,
     fetches (trace (state_of (open srv chunk p)))
     = (first_probe L chunk, L - 1) :: rest) /\
  first_probe L chunk = chunk * ((L - 2) / chunk) /\
  2 <= (L - 1) - first_probe L chunk + 1 <= chunk + 1.
Proof.
  intros Hc HL Han.
  destruct (first_probe_bounds L chunk Hc HL) as (B1 & B2 & B3).
  split; [|split; [reflexivity | lia]].
  rewrite (open_eq srv chunk p L Han ltac:(lia)).
  destruct (range_first L chunk Hc HL) as (r & rest & Er & Erev & Hrest).
  rewrite (check_zip_eq srv p (negotiated chunk L) r Er), Erev.
  change (_length (negotiated chunk L)) with L.
  set (g := (first_probe L chunk, L - 1)).
  assert (H1 : first_fetch_is g L chunk
                 (state_of (_download srv (first_probe L chunk) (L - 1)
                              (negotiated chunk L)))).
  { split.
    - apply (download_inv srv L chunk); [lia | apply inv_negotiated].
    - rewrite download_first_trace; [|reflexivity | lia].
      exists []. reflexivity. }
  assert (HLL : 1 <= L) by lia.
  rewrite probe_cons.
  destruct (_download srv (first_probe L chunk) (L - 1) (negotiated chunk L))
    as [[] s1|e s1]; simpl state_of in H1; [|apply H1].
  pose proof (P_parse_attempt srv L chunk HLL Hc (first_fetch_is g L chunk)
                (fun s H => proj1 H) (first_fetch_download srv g L chunk)
                (fun pos s H => H) (first_fetch_zip g L chunk) p s1 H1) as H2.
  destruct (parse_attempt srv p s1) as [parsed s2|e s2]; simpl state_of in H2;
    [|apply H2].
  destruct parsed; [apply H2|].
  apply (P_probe srv L chunk HLL Hc (first_fetch_is g L chunk)
           (fun s H => proj1 H) (first_fetch_download srv g L chunk)
           (fun pos s H => H) (first_fetch_zip g L chunk) p rest s2 Hrest H2).
Qed.

Lemma first_probe_range_witness :
  (exists rest,
     fetches (trace (state_of (open (refusing_server 25) 10 tail_reader)))
     = (first_probe 25 10, 25 - 1) :: rest) /\
  first_probe 25 10 = 10 * ((25 - 2) / 10) /\
  2 <= (25 - 1) - first_probe 25 10 + 1 <= 10 + 1.
Proof.
  apply (first_probe_range (refusing_server 25) 25 10 tail_reader).
  - lia.
  - lia.
  - split; [reflexivity|]. split; [reflexivity|].
    exists "bytes"%string. split; reflexivity.
Defined.

(** X14: [_check_zip] swallows [BadZipFile] only.  When the first probe
    is served and the reader raises any other exception, opening raises
    that exception after a single parse attempt, with the cursor back at
    the start. *)
Theorem other_errors_propagate
  (srv : session) (L chunk : Z) (p : zip_reader) (e : exn) :
  1 <= chunk -> 2 <= L -> announces srv L ->
  is_success (get_status (get srv (first_probe L chunk) (L - 1))) = true ->
  always_raises e p -> is_BadZipFile e = false ->
  exists s',
    open srv chunk p = Raise e s' /\
    parses (trace s') = 1%nat /\ cursor s' = 0%nat.
Proof.
  intros Hc HL Han Hget Hr He.
  destruct (first_probe_bounds L chunk Hc HL) as (B1 & B2 & B3).
  rewrite (open_eq srv chunk p L Han ltac:(lia)).
  destruct (range_first L chunk Hc HL) as (r & rest & Er & Erev & Hrest).
  rewrite (check_zip_eq srv p (negotiated chunk L) r Er), Erev.
  change (_length (negotiated chunk L)) with L.
  rewrite probe_cons.
  destruct (download_first_served srv (first_probe L chunk) (L - 1)
              (negotiated chunk L) eq_refl B1 ltac:(lia) Hget)
    as (s1 & E1 & T1 & Tr1 & C1 & L1 & K1).
  rewrite E1, parse_attempt_eq.
  assert (Hinv1 : stream_inv L chunk (log EvZipFile s1)).
  { split; [exact L1|]. split; [exact K1|]. split.
    - change (tracker (log EvZipFile s1)) with (tracker s1). rewrite T1.
      split; [reflexivity|]. repeat constructor; simpl; lia.
    - change (_left (log EvZipFile s1)) with (fst (tracker s1)). rewrite T1.
      repeat constructor. exact B1. }
  destruct (run_reader_raises srv e p (log EvZipFile s1) Hr) as (s2 & E2).
  destruct (run_reader_inv srv L chunk ltac:(lia) Hc p _ Hinv1) as [_ [_ Hp]].
  rewrite E2 in *. rewrite He. cbn [state_of] in Hp.
  eexists. split; [reflexivity|]. split.
  - change (trace (restore_pos (cursor s1) s2)) with (trace s2).
    rewrite Hp, parses_log_zip, Tr1. reflexivity.
  - rewrite cursor_restore, C1. reflexivity.
Qed.

Lemma other_errors_propagate_witness :
  exists s',
    open (range_server (repeat Byte.x01 25)) 10 crashing_reader
    = Raise (OtherError 0) s' /\
    parses (trace s') = 1%nat /\ cursor s' = 0%nat.
Proof.
  apply (other_errors_propagate (range_server (repeat Byte.x01 25)) 25 10
           crashing_reader (OtherError 0)).
  - lia.
  - lia.
  - split; [reflexivity|]. split; [reflexivity|].
    exists "bytes"%string. split; reflexivity.
  - reflexivity.
  - simpl. intros _. reflexivity.
  - reflexivity.
Defined.

(** X15: when the server refuses the first probe, opening raises the
    status error at once: one ranged request has been sent, there was no
    parse attempt, nothing is recorded as mirrored and the mirror file is
    as negotiation left it. *)
Theorem refused_probe_fails_open
  (srv : session) (L chunk : Z) (p : zip_reader) :
  1 <= chunk -> 2 <= L -> announces srv L ->
  is_success (get_status (get srv (first_probe L chunk) (L - 1))) = false ->
  open srv chunk p
  = Raise HTTPStatusError
      (log (EvGet (first_probe L chunk) (L - 1)) (negotiated chunk L)).
Proof.
  intros Hc HL Han Hget.
  destruct (first_probe_bounds L chunk Hc HL) as (B1 & B2 & B3).
  rewrite (open_eq srv chunk p L Han ltac:(lia)).
  destruct (range_first L chunk Hc HL) as (r & rest & Er & Erev & Hrest).
  rewrite (check_zip_eq srv p (negotiated chunk L) r Er), Erev.
  change (_length (negotiated chunk L)) with L.
  rewrite probe_cons.
  rewrite (download_first_refused srv (first_probe L chunk) (L - 1)
             (negotiated chunk L) eq_refl ltac:(lia) Hget).
  reflexivity.
Qed.

Lemma refused_probe_fails_open_witness :
  open (refusing_server 25) 10 tail_reader
  = Raise HTTPStatusError
      (log (EvGet (first_probe 25 10) (25 - 1)) (negotiated 10 25)).
Proof.
  apply (refused_probe_fails_open (refusing_server 25) 25 10 tail_reader).
  - lia.
  - lia.
  - split; [reflexivity|]. split; [reflexivity|].
    exists "bytes"%string. split; reflexivity.
  - reflexivity.
Defined.

(** X16: opening a corrupt archive costs the whole object, once.  When
    every ranged request is served and the reader raises [BadZipFile] at
    every attempt (length [L >= 2], chunk size at least 1), opening returns
    after [(L - 2) / chunk + 1] parse attempts, one per probe start; by then
    every offset of [0 .. L-1], and no other, has been fetched, through
    pairwise disjoint ranges. *)
Theorem corrupt_archive_costs_whole_object
  (srv : session) (L chunk : Z) (p : zip_reader) :
  1 <= chunk -> 2 <= L ->
  announces srv L -> always_serves srv -> always_bad p ->
  exists s',
    open srv chunk p = Ok tt s' /\
    parses (trace s') = Z.to_nat ((L - 2) / chunk + 1) /\
    (forall x, fetched (trace s') x <-> 0 <= x < L) /\
    ForallOrdPairs (fun g1 g2 => ~ overlap g1 g2) (fetches (trace s')).
Proof.
  intros Hc HL Han Hsrv Hbad.
  assert (HLL : 1 <= L) by lia.
  pose proof (P_open srv L chunk HLL Hc (frugal L chunk)
                (frugal_inv L chunk) (frugal_download srv L chunk Hsrv)
                (frugal_cursor L chunk) (frugal_zip L chunk)
                p Han (frugal_negotiated L chunk)) as Hfr.
  rewrite (open_eq srv chunk p L Han ltac:(lia)) in Hfr |- *.
  destruct (range_bounds L chunk Hc HL) as (r & Er & H0 & Hr).
  rewrite (check_zip_eq srv p (negotiated chunk L) r Er) in Hfr |- *.
  change (_length (negotiated chunk L)) with L in Hfr |- *.
  destruct (probe_bad srv L chunk HLL Hc p Hsrv Hbad (rev r)
              (negotiated chunk L) (inv_negotiated chunk L))
    as (s' & E & _ & _ & Hp & Hcov).
  { apply Forall_rev. exact Hr. }
  rewrite E in Hfr |- *. simpl state_of in Hfr.
  destruct Hfr as ((_ & _ & Hin) & Hdis & Hun).
  exists s'. split; [reflexivity|]. split; [|split; [|exact Hdis]].
  - rewrite Hp, length_rev, (range_length L chunk r Hc HL Er). reflexivity.
  - intros x. split.
    + intros (g & Hg & Hx). rewrite Forall_forall in Hin.
      destruct (Hin g Hg) as (G1 & G2 & G3). unfold inside in Hx. lia.
    + intros Hx. apply Hun. apply (Hcov 0); [|lia]. apply -> in_rev. exact H0.
Qed.

Lemma corrupt_archive_costs_whole_object_witness :
  exists s',
    open (range_server (repeat Byte.x01 25)) 10 blind_reader = Ok tt s' /\
    parses (trace s') = Z.to_nat ((25 - 2) / 10 + 1) /\
    (forall x, fetched (trace s') x <-> 0 <= x < 25) /\
    ForallOrdPairs (fun g1 g2 => ~ overlap g1 g2) (fetches (trace s')).
Proof.
  apply (corrupt_archive_costs_whole_object
           (range_server (repeat Byte.x01 25)) 25 10 blind_reader).
  - lia.
  - lia.
  - split; [reflexivity|]. split; [reflexivity|].
    exists "bytes"%string. split; reflexivity.
  - intros a b. reflexivity.
  - simpl. intros _ _. reflexivity.
Defined.

(** X17: after a reservation of [(a, b)], [a <= b], on a well-formed
    tracker, the whole request lies inside one recorded interval (not only
    inside their union), and the number of recorded intervals has grown by
    one at most. *)
Theorem request_in_one_interval (t : list Z * list Z) (a b : Z) :
  wf t -> a <= b ->
  (exists l r, In (l, r) (intervals (snd (reserve t a b))) /\ l <= a /\ b <= r) /\
  (length (intervals (snd (reserve t a b))) <= length (intervals t) + 1)%nat.
Proof.
  intros Hwf Hab.
  destruct (reserve_shape t a b Hwf Hab)
    as (pre & mid & post & E & _ & _ & _ & Er).
  rewrite Er. simpl snd. rewrite intervals_of, E. split.
  - exists (lo_bound a mid), (hi_bound b mid).
    split; [apply in_or_app; right; left; reflexivity|].
    split; [apply lo_bound_le | apply hi_bound_ge].
  - repeat rewrite length_app. cbn [length]. repeat rewrite length_app. lia.
Qed.

Lemma request_in_one_interval_witness :
  (exists l r, In (l, r) (intervals (snd (reserve ([0; 20; 40], [9; 29; 49]) 5 44)))
               /\ l <= 5 /\ 44 <= r) /\
  Nat.le (length (intervals (snd (reserve ([0; 20; 40], [9; 29; 49]) 5 44))))
         (length (intervals ([0; 20; 40], [9; 29; 49])) + 1).
Proof.
  apply (request_in_one_interval ([0; 20; 40], [9; 29; 49]) 5 44).
  - split; [reflexivity|]. repeat constructor; simpl; lia.
  - lia.
Defined.

(** X18: read-ahead.  On an open stream (length at least 1, chunk size at
    least 1) behind a server that serves every request, [read(size)] with
    [size >= 0] returns, and afterwards a run of
    [min(max(size, chunk), L)] consecutive offsets is recorded as mirrored,
    starting at or before the cursor the read started from and ending
    where [cursor + max(size, chunk)] or the object ends. *)
Theorem read_ahead_window
  (srv : session) (L chunk size : Z) (s : LazyZipOverHTTP) :
  1 <= L -> 1 <= chunk -> always_serves srv ->
  stream_inv L chunk s -> 0 <= size ->
  exists data s' lo,
    read srv size s = Ok data s' /\
    lo <= Z.of_nat (cursor s) /\
    lo + Z.min (Z.max size chunk) L
    = Z.min (Z.of_nat (cursor s) + Z.max size chunk) L /\
    forall x, lo <= x < lo + Z.min (Z.max size chunk) L ->
              covered (tracker s') x.
Proof.
  intros HL Hc Hsrv Hinv Hsz. pose proof Hinv as (IL & Ic & _).
  rewrite read_eq.
  assert (Ew : read_window size s
               = (Z.max 0 (Z.min (Z.of_nat (cursor s) + Z.max size chunk) L
                           - Z.max size chunk),
                  Z.min (Z.of_nat (cursor s) + Z.max size chunk) L - 1)).
  { unfold read_window. rewrite IL, Ic.
    destruct (Z.ltb_spec size 0); [lia | reflexivity]. }
  rewrite Ew. simpl fst. simpl snd.
  destruct (download_serves srv L chunk
              (Z.max 0 (Z.min (Z.of_nat (cursor s) + Z.max size chunk) L
                        - Z.max size chunk))
              (Z.min (Z.of_nat (cursor s) + Z.max size chunk) L - 1)
              s Hsrv ltac:(lia) Hinv)
    as (s1 & E1 & _ & _ & Hcov).
  rewrite E1, (file_read_ok size s1) by lia.
  eexists. eexists.
  exists (Z.max 0 (Z.min (Z.of_nat (cursor s) + Z.max size chunk) L
                   - Z.max size chunk)).
  split; [reflexivity|]. split; [lia|]. split; [lia|].
  intros x Hx.
  change (tracker (restore_pos _ s1)) with (tracker s1).
  apply Hcov. lia.
Qed.

Lemma read_ahead_window_witness :
  exists data s' lo,
    read (range_server (repeat Byte.x01 100)) 4
      (restore_pos 50 (negotiated 10 100)) = Ok data s' /\
    lo <= Z.of_nat (cursor (restore_pos 50 (negotiated 10 100))) /\
    lo + Z.min (Z.max 4 10) 100
    = Z.min (Z.of_nat (cursor (restore_pos 50 (negotiated 10 100))) + Z.max 4 10) 100 /\
    forall x, lo <= x < lo + Z.min (Z.max 4 10) 100 ->
              covered (tracker s') x.
Proof.
  apply (read_ahead_window (range_server (repeat Byte.x01 100)) 100 10 4
           (restore_pos 50 (negotiated 10 100))).
  - lia.
  - lia.
  - intros a b. reflexivity.
  - apply (inv_negotiated 10 100).
  - lia.
Defined.

(** ** A corrupt archive is not reported by [open] *)

(** The reader that looks for the signature in the last four bytes rejects
    an object of 25 bytes [0x01]. *)
Lemma ones_rejected chunk :
  1 <= chunk -> corrupt_for (repeat Byte.x01 25) chunk tail_reader.
Proof.
  intros Hc s Hm. pose proof Hm as (_ & Hlen & _).
  unfold tail_reader.
  match goal with |- context [run_reader ?srv (ZSeek ?o ?w ?k) s] =>
    change (run_reader srv (ZSeek o w k) s)
      with (match attempt (seek o w) s with
            | Ok v s' => run_reader srv (k v) s'
            | Raise e s' => Raise e s'
            end)
  end.
  assert (Es : seek (-4) 2 s = Ok 21 (restore_pos 21 s)).
  { unfold seek, File.seek. rewrite Hlen. reflexivity. }
  unfold attempt at 1. rewrite Es.
  destruct (read_honest_download (repeat Byte.x01 25) chunk 4 (restore_pos 21 s))
    as (s1 & E1 & Hm1 & Hcur & Esl);
    [discriminate | exact Hc | apply mirrors_cursor; exact Hm | left; lia |].
  match goal with |- context [run_reader ?srv (ZRead ?n ?k) ?t] =>
    change (run_reader srv (ZRead n k) t)
      with (match attempt (read srv n) t with
            | Ok v s' => run_reader srv (k v) s'
            | Raise e s' => Raise e s'
            end)
  end.
  unfold attempt. rewrite read_eq, E1, (file_read_ok 4 s1) by lia.
  rewrite Hcur, Esl. eexists. reflexivity.
Qed.

(** C1, amended: [open] does not report a corrupt archive.  For an object
    [data] of at least 2 bytes behind a server that honours range requests
    (chunk size at least 1) and a reader for which the object is corrupt
    (it raises [BadZipFile] whenever it is run against a faithful mirror of
    [data]), every parse attempt of [_check_zip] fails and is swallowed,
    the last one too: that one is made right after the probe has downloaded
    [0 .. L-1], on a stream [s1] in which every offset is recorded and the
    mirror file is the object; it raises [BadZipFile], sends no further
    request, and opening returns normally with the state it left, after
    [(L - 2) / chunk + 1] attempts.  Only a later parse by the caller meets
    the exception. *)
Theorem all_failures_swallowed
  (data : list Byte.byte) (chunk : Z) (p : zip_reader) :
  1 <= chunk -> 2 <= Z.of_nat (length data) ->
  corrupt_for data chunk p ->
  exists s0 s1 s2,
    _download (range_server data) 0 (Z.of_nat (length data) - 1) s0 = Ok tt s1 /\
    fully_mirrored data s1 /\
    ZipFile (range_server data) p s1 = Raise BadZipFile s2 /\
    trace s2 = trace s1 ++ [EvZipFile] /\
    open (range_server data) chunk p = Ok tt (restore_pos (cursor s1) s2) /\
    parses (trace s2) = Z.to_nat ((Z.of_nat (length data) - 2) / chunk + 1) /\
    exists s3,
      ZipFile (range_server data) p (restore_pos (cursor s1) s2)
      = Raise BadZipFile s3.
Proof.
  intros Hc HL Hbad.
  assert (HL1 : 1 <= Z.of_nat (length data)) by lia.
  rewrite (open_eq (range_server data) chunk p (Z.of_nat (length data))
             (honest_announces data) ltac:(lia)).
  destruct (range_head (Z.of_nat (length data)) chunk Hc HL) as (tl & Er).
  destruct (range_bounds (Z.of_nat (length data)) chunk Hc HL)
    as (r & Er' & _ & Hr).
  rewrite Er in Er'. inversion Er'; subst r. clear Er'.
  inversion Hr as [|? ? _ Htl]; subst.
  rewrite (check_zip_eq (range_server data) p
             (negotiated chunk (Z.of_nat (length data))) (0 :: tl) Er).
  change (_length (negotiated chunk (Z.of_nat (length data))))
    with (Z.of_nat (length data)).
  change (rev (0 :: tl)) with (rev tl ++ [0]).
  destruct (probe_rejected data chunk p HL1 Hc Hbad 0 (rev tl)
              (negotiated chunk (Z.of_nat (length data)))
              ltac:(lia) (Forall_rev Htl) (mirrors_negotiated data chunk))
    as (s0 & s1 & s2 & E1 & Hm1 & _ & Hcov & Ez & Ep & Hm2 & Hq).
  assert (Hfull : forall x, 0 <= x < Z.of_nat (length data) ->
                            covered (tracker s1) x).
  { intros x Hx. apply Hcov. lia. }
  exists s0, s1, s2. split; [exact E1|]. split; [|split; [exact Ez|split]].
  - split; [exact Hfull|]. exact (full_content data chunk s1 Hm1 Hfull).
  - pose proof (complete_run data chunk HL1 Hc p (log EvZipFile s1)
                  (conj (mirrors_zip data chunk s1 Hm1) Hfull)) as Ht.
    rewrite ZipFile_eq in Ez. rewrite Ez in Ht. exact Ht.
  - split; [exact Ep|]. split.
    + rewrite Hq, length_rev.
      pose proof (range_length (Z.of_nat (length data)) chunk (0 :: tl) Hc HL Er)
        as Hlen.
      cbn [length] in Hlen. rewrite <- Hlen.
      change (parses (trace (negotiated chunk (Z.of_nat (length data))))) with O.
      lia.
    + destruct (Hbad _ (mirrors_zip data chunk _ Hm2)) as (s3 & E3).
      exists s3. rewrite ZipFile_eq. exact E3.
Qed.

Lemma all_failures_swallowed_witness :
  exists s0 s1 s2,
    _download (range_server (repeat Byte.x01 25)) 0
      (Z.of_nat (length (repeat Byte.x01 25)) - 1) s0 = Ok tt s1 /\
    fully_mirrored (repeat Byte.x01 25) s1 /\
    ZipFile (range_server (repeat Byte.x01 25)) tail_reader s1
    = Raise BadZipFile s2 /\
    trace s2 = trace s1 ++ [EvZipFile] /\
    open (range_server (repeat Byte.x01 25)) 10 tail_reader
    = Ok tt (restore_pos (cursor s1) s2) /\
    parses (trace s2)
    = Z.to_nat ((Z.of_nat (length (repeat Byte.x01 25)) - 2) / 10 + 1) /\
    exists s3,
      ZipFile (range_server (repeat Byte.x01 25)) tail_reader
        (restore_pos (cursor s1) s2)
      = Raise BadZipFile s3.
Proof.
  apply (all_failures_swallowed (repeat Byte.x01 25) 10 tail_reader).
  - lia.
  - simpl. lia.
  - apply ones_rejected. lia.
Defined.
